(** * GuideSight: localization, route planning and the session commands

    A shallow embedding of [database.py], [localization.py], [navigation.py],
    [obstacle_detection.py], the listening of [voice_handler.py] and the
    command handlers and background loops of [app.py], followed by the
    properties of the localization and navigation engine.

    Conventions of the embedding:
    - Python [int] is [Z]; Python [float] is an exact rational [Q], and
      [float('inf')] is the extra point [Inf] of [num];
    - a Python [dict] whose iteration order is observed is an association
      list ([pydict]); the dictionaries that are only looked up and updated
      ([g_score], [f_score], [came_from], the adjacency lists) are [gmap]s;
    - a SQLite table is the list of its rows in insertion order;
    - a Python exception is the [Raise] outcome; the two [while] loops of
      the planner take a fuel argument and answer [OutOfFuel] when it is
      used up;
    - OpenCV (feature extraction, descriptor matching) and the camera are
      arguments of the functions that call them; so are the output of the
      detection model, the random draws, the clock and the speech
      recogniser. *)

From Stdlib Require Import ZArith QArith Qround String Ascii List Lia Lqa DecimalString.
From stdpp Require Import gmap strings list fin_maps sorting.

Local Open Scope Z_scope.

(* ===================================================================== *)
(** * Part I: the program                                                 *)
(* ===================================================================== *)

(** ** Python values and outcomes *)

Inductive exn := KeyError | IndexError | IntegrityError.

Inductive outcome (A : Type) :=
| Return (a : A)
| Raise (e : exn)
| OutOfFuel.
Arguments Return {A} a.
Arguments Raise {A} e.
Arguments OutOfFuel {A}.

#[global] Instance outcome_bind : MBind outcome := λ A B k m,
  match m with
  | Return a => k a
  | Raise e => Raise e
  | OutOfFuel => OutOfFuel
  end.

(** [d[k]] on a gmap-modelled dict. *)
Definition getitem {V} (d : gmap Z V) (k : Z) : outcome V :=
  match d !! k with
  | Some v => Return v
  | None => Raise KeyError
  end.

(** [for x in xs: st = body(x, st)], stopping at the first exception. *)
Fixpoint for_each {A S} (body : A → S → outcome S) (xs : list A) (st : S)
  : outcome S :=
  match xs with
  | [] => Return st
  | x :: xs' => st' ← body x st; for_each body xs' st'
  end.

(** [str(n)] for an integer. *)
Definition str_Z (z : Z) : string := NilZero.string_of_int (Z.to_int z).

(** [str(x)] for an optional string: [None] prints as ["None"]. *)
Definition str_opt (o : option string) : string :=
  match o with
  | Some s => s
  | None => "None"%string
  end.

(** An insertion-ordered dict with integer keys. *)
Definition pydict (V : Type) := list (Z * V).

Fixpoint dict_get {V} (d : pydict V) (k : Z) : option V :=
  match d with
  | [] => None
  | (k', v) :: d' => if Z.eqb k' k then Some v else dict_get d' k
  end.

Fixpoint dict_set {V} (d : pydict V) (k : Z) (v : V) : pydict V :=
  match d with
  | [] => [(k, v)]
  | (k', v') :: d' =>
      if Z.eqb k' k then (k', v) :: d' else (k', v') :: dict_set d' k v
  end.

Definition dict_keys {V} (d : pydict V) : list Z := map fst d.

(** A stable insertion sort on an integer key: the model of [ORDER BY]
    (rows with equal keys stay in table order). *)
Fixpoint insert_by {A} (key : A → Z) (x : A) (l : list A) : list A :=
  match l with
  | [] => [x]
  | y :: l' => if key x <=? key y then x :: y :: l' else y :: insert_by key x l'
  end.

Definition sort_by {A} (key : A → Z) (l : list A) : list A :=
  fold_right (insert_by key) [] l.

(** Floats. *)
Inductive num := Fin (q : Q) | Inf.

Definition num_add (a b : num) : num :=
  match a, b with
  | Fin x, Fin y => Fin (x + y)
  | _, _ => Inf
  end.

Definition Qltb (x y : Q) : bool := negb (Qle_bool y x).

Definition num_ltb (a b : num) : bool :=
  match a, b with
  | Fin x, Fin y => Qltb x y
  | Fin _, Inf => true
  | Inf, _ => false
  end.

Definition num_eqb (a b : num) : bool :=
  match a, b with
  | Fin x, Fin y => Qeq_bool x y
  | Inf, Inf => true
  | _, _ => false
  end.

(** ** database.py *)

(** [cv2.KeyPoint]: the six fields that [save_frame] pickles. *)
Record KeyPoint := {
  kp_pt : Q * Q;
  kp_size : Q;
  kp_angle : Q;
  kp_response : Q;
  kp_octave : Z;
  kp_class_id : Z
}.

(** An ORB descriptor array: one 256-bit row per keypoint. *)
Definition Descriptors := list N.

Record LocationRow := {
  loc_id : Z;
  loc_name : string;
  loc_created_at : Z
}.

Record FrameRow := {
  frame_id : Z;
  frame_location_id : Z;
  frame_sequence_number : Z;
  frame_image_path : string;
  frame_keypoints : list KeyPoint;
  frame_descriptors : option Descriptors
}.

Record NodeRow := {
  node_id : Z;
  node_location_id : Z;
  node_frame_id : Z;
  node_position_index : Z
}.

Record EdgeRow := {
  from_node : Z;
  to_node : Z;
  edge_distance : Q
}.

Record Database := {
  locations : list LocationRow;
  frames : list FrameRow;
  graph_nodes : list NodeRow;
  graph_edges : list EdgeRow
}.

(** The tables that [init_database] creates. *)
Definition init_database : Database :=
  {| locations := []; frames := []; graph_nodes := []; graph_edges := [] |}.

(** [cursor.lastrowid] of an [AUTOINCREMENT] insert: one more than the
    largest id of the table (no row is ever deleted). *)
Definition lastrowid (ids : list Z) : Z := 1 + fold_right Z.max 0 ids.

(** [SELECT id FROM locations WHERE name = ?] *)
Definition find_location (name : string) (db : Database) : option LocationRow :=
  List.find (fun l => String.eqb (loc_name l) name) (locations db).

(** [save_location]: the insert fails on the [UNIQUE] name and the id of the
    existing row is returned instead. [now] is [CURRENT_TIMESTAMP]. *)
Definition save_location (now : Z) (name : string) (db : Database)
  : Z * Database :=
  match find_location name db with
  | Some l => (loc_id l, db)
  | None =>
      let location_id := lastrowid (map loc_id (locations db)) in
      (location_id,
       {| locations := locations db ++
            [{| loc_id := location_id; loc_name := name; loc_created_at := now |}];
          frames := frames db;
          graph_nodes := graph_nodes db;
          graph_edges := graph_edges db |})
  end.

(** [SELECT id FROM graph_nodes WHERE location_id = ? AND position_index = ?],
    [fetchone]. *)
Definition find_node (location_id position : Z) (db : Database) : option NodeRow :=
  List.find (fun n => (node_location_id n =? location_id)
                      && (node_position_index n =? position))
            (graph_nodes db).

(** The primary key [(from_node, to_node)] of [graph_edges]. *)
Definition edge_exists (f t : Z) (edges : list EdgeRow) : bool :=
  existsb (fun e => (from_node e =? f) && (to_node e =? t)) edges.

Definition insert_edge (f t : Z) (d : Q) (edges : list EdgeRow)
  : outcome (list EdgeRow) :=
  if edge_exists f t edges then Raise IntegrityError
  else Return (edges ++ [{| from_node := f; to_node := t; edge_distance := d |}]).

(** [save_frame]. Nothing is committed when an insert raises. *)
Definition save_frame (location_id sequence_number : Z) (image_path : string)
    (keypoints : list KeyPoint) (descriptors : option Descriptors)
    (db : Database) : outcome (Z * Database) :=
  let new_frame := lastrowid (map frame_id (frames db)) in
  let frames' := frames db ++
    [{| frame_id := new_frame; frame_location_id := location_id;
        frame_sequence_number := sequence_number;
        frame_image_path := image_path;
        frame_keypoints := keypoints;
        frame_descriptors := descriptors |}] in
  let new_node := lastrowid (map node_id (graph_nodes db)) in
  let nodes' := graph_nodes db ++
    [{| node_id := new_node; node_location_id := location_id;
        node_frame_id := new_frame; node_position_index := sequence_number |}] in
  edges' ←
    (if 0 <? sequence_number then
       match find_node location_id (sequence_number - 1)
               {| locations := locations db; frames := frames';
                  graph_nodes := nodes'; graph_edges := graph_edges db |} with
       | Some prev_node =>
           let distance := (7 # 10)%Q in
           es ← insert_edge (node_id prev_node) new_node distance
                  (graph_edges db);
           insert_edge new_node (node_id prev_node) distance es
       | None => Return (graph_edges db)
       end
     else Return (graph_edges db));
  Return (new_frame,
          {| locations := locations db; frames := frames';
             graph_nodes := nodes'; graph_edges := edges' |}).

(** A row of [get_location_frames]. *)
Record FrameData := {
  fd_id : Z;
  fd_sequence : Z;
  fd_path : string;
  fd_keypoints : list KeyPoint;
  fd_descriptors : option Descriptors
}.

(** [JOIN locations l ON x.location_id = l.id WHERE l.name = ?] *)
Definition in_location (name : string) (location_id : Z) (db : Database) : bool :=
  existsb (fun l => (loc_id l =? location_id) && String.eqb (loc_name l) name)
          (locations db).

Definition get_location_frames (location_name : string) (db : Database)
  : list FrameData :=
  map (fun f => {| fd_id := frame_id f; fd_sequence := frame_sequence_number f;
                   fd_path := frame_image_path f;
                   fd_keypoints := frame_keypoints f;
                   fd_descriptors := frame_descriptors f |})
      (sort_by frame_sequence_number
         (List.filter (fun f => in_location location_name (frame_location_id f) db)
                      (frames db))).

(** [ORDER BY created_at DESC] *)
Definition get_all_locations (db : Database) : list string :=
  map loc_name (sort_by (fun l => - loc_created_at l) (locations db)).

(** The value stored per node id by [get_navigation_graph]. *)
Record NodeData := {
  position : Z;
  nd_frame_id : Z
}.

Definition get_navigation_graph (location_name : string) (db : Database)
  : pydict NodeData * list (Z * Z * Q) :=
  let rows :=
    sort_by node_position_index
      (List.filter (fun n => in_location location_name (node_location_id n) db)
                   (graph_nodes db)) in
  let nodes :=
    fold_left (fun d n => dict_set d (node_id n)
                 {| position := node_position_index n;
                    nd_frame_id := node_frame_id n |}) rows [] in
  let edges :=
    map (fun e => (from_node e, to_node e, edge_distance e))
      (List.filter
         (fun e => existsb (fun n => (node_id n =? from_node e)
                      && in_location location_name (node_location_id n) db)
                   (graph_nodes db))
         (graph_edges db)) in
  (nodes, edges).

(** ** localization.py *)

(** [cv2.DMatch] *)
Record DMatch := {
  queryIdx : Z;
  trainIdx : Z;
  distance : Q
}.

(** [self.matcher.match], the brute-force matcher of OpenCV. *)
Definition Matcher := Descriptors → Descriptors → list DMatch.

(** [extract_features]: [orb.detectAndCompute] on the grey image; the
    descriptors are [None] when nothing is detected. *)
Definition Extractor (Image : Type) := Image → list KeyPoint * option Descriptors.

Definition confidence_threshold : Z := 30.

(** [good_matches = [m for m in matches if m.distance < 50]] *)
Definition good_matches (matches : list DMatch) : list DMatch :=
  List.filter (fun m => Qltb (distance m) 50) matches.

(** The body of the loop over the saved frames; the state is
    [(best_match, best_match_count, best_sequence)]. *)
Definition localize_step (matcher : Matcher) (current_desc : Descriptors)
    (best : option Z * Z * Z) (frame_data : FrameData) : option Z * Z * Z :=
  let '(best_match, best_match_count, best_sequence) := best in
  match fd_descriptors frame_data with
  | None => best
  | Some saved_desc =>
      let matches := matcher current_desc saved_desc in
      let good := good_matches matches in
      if best_match_count <? Z.of_nat (length good)
      then (Some (fd_id frame_data), Z.of_nat (length good), fd_sequence frame_data)
      else best
  end.

Definition localize {Image} (extract_features : Extractor Image)
    (matcher : Matcher) (db : Database)
    (current_frame : Image) (location_name : string)
  : option Z * Z * option Z :=
  let '(current_kp, current_desc) := extract_features current_frame in
  match current_desc with
  | None => (None, 0, None)
  | Some current_desc =>
      if Z.of_nat (length current_kp) <? 10 then (None, 0, None)
      else
        let saved_frames := get_location_frames location_name db in
        match saved_frames with
        | [] => (None, 0, None)
        | _ =>
            let '(best_match, best_match_count, best_sequence) :=
              fold_left (localize_step matcher current_desc) saved_frames
                        (None, 0, 0) in
            let confidence := best_match_count in
            if confidence_threshold <=? confidence
            then (best_match, confidence, Some best_sequence)
            else (None, confidence, None)
        end
  end.

(** A matcher to run [localize] with: brute force on the Hamming distance
    with cross-check, as [cv2.BFMatcher(cv2.NORM_HAMMING, crossCheck=True)]
    is documented to work. A query row is matched with its nearest train
    row when it is in turn the nearest query row of that train row. *)
Fixpoint popcount (p : positive) : Z :=
  match p with
  | xH => 1
  | xO p' => popcount p'
  | xI p' => 1 + popcount p'
  end.

Definition hamming (a b : N) : Z :=
  match N.lxor a b with
  | N0 => 0
  | Npos p => popcount p
  end.

Definition nearest (x : N) (rows : list N) : option (nat * Z) :=
  fold_left
    (fun best jy =>
       let d := hamming x (snd jy) in
       match best with
       | None => Some (fst jy, d)
       | Some (_, d0) => if d <? d0 then Some (fst jy, d) else best
       end)
    (imap pair rows) None.

Definition bf_match_crosscheck : Matcher := fun query train =>
  omap
    (fun iq =>
       match nearest (snd iq) train with
       | Some (j, d) =>
           match train !! j with
           | Some t =>
               match nearest t query with
               | Some (i', _) =>
                   if Nat.eqb i' (fst iq)
                   then Some {| queryIdx := Z.of_nat (fst iq);
                                trainIdx := Z.of_nat j;
                                distance := inject_Z d |}
                   else None
               | None => None
               end
           | None => None
           end
       | None => None
       end)
    (imap pair query).

(** ** navigation.py *)

Record Navigator := {
  current_path : list Z;
  current_step : Z
}.

(** [Navigator.__init__] *)
Definition Navigator_init : Navigator :=
  {| current_path := []; current_step := 0 |}.

(** [nodes[k]] on the ordered dict. *)
Definition nodes_getitem (nodes : pydict NodeData) (k : Z) : outcome NodeData :=
  match dict_get nodes k with
  | Some d => Return d
  | None => Raise KeyError
  end.

Definition _heuristic (nodes : pydict NodeData) (node1 node2 : Z) : outcome num :=
  d1 ← nodes_getitem nodes node1;
  d2 ← nodes_getitem nodes node2;
  Return (Fin (inject_Z (Z.abs (position d2 - position d1)) * (7 # 10))).

(** An entry [(f_score, node_id)] of the priority queue and the order of
    Python tuples on it. *)
Definition entry := (num * Z)%type.

Definition entry_ltb (a b : entry) : bool :=
  if num_eqb (fst a) (fst b) then snd a <? snd b
  else num_ltb (fst a) (fst b).

(** [heapq]: the queue is the list of its entries, [heappop] takes a least
    entry out and [heappush] adds one. *)
Fixpoint heappop (h : list entry) : option (entry * list entry) :=
  match h with
  | [] => None
  | x :: h' =>
      match heappop h' with
      | None => Some (x, [])
      | Some (m, rest) =>
          if entry_ltb m x then Some (m, x :: rest) else Some (x, h')
      end
  end.

Definition heappush (h : list entry) (x : entry) : list entry := h ++ [x].

Record astar_state := {
  open_set : list entry;
  came_from : gmap Z Z;
  g_score : gmap Z num;
  f_score : gmap Z num
}.

(** [while current in came_from: ...], then [path.reverse()]. *)
Fixpoint reconstruct_loop (fuel : nat) (came_from : gmap Z Z) (current : Z)
    (path : list Z) : outcome (list Z) :=
  match fuel with
  | O => OutOfFuel
  | S fuel' =>
      match came_from !! current with
      | Some prev => reconstruct_loop fuel' came_from prev (path ++ [prev])
      | None => Return path
      end
  end.

Definition _reconstruct_path (fuel : nat) (came_from : gmap Z Z) (current : Z)
  : outcome (list Z) :=
  path ← reconstruct_loop fuel came_from current [current];
  Return (rev path).

(** The body of [for neighbor, distance in graph[current]]. *)
Definition relax (nodes : pydict NodeData) (goal current : Z)
    (edge : Z * Q) (st : astar_state) : outcome astar_state :=
  let '(neighbor, distance) := edge in
  g_current ← getitem (g_score st) current;
  let tentative_g := num_add g_current (Fin distance) in
  g_neighbor ← getitem (g_score st) neighbor;
  if num_ltb tentative_g g_neighbor then
    h ← _heuristic nodes neighbor goal;
    let f := num_add tentative_g h in
    let open_set' :=
      if negb (existsb (Z.eqb neighbor) (map snd (open_set st)))
      then heappush (open_set st) (f, neighbor)
      else open_set st in
    Return {| open_set := open_set';
              came_from := <[neighbor := current]> (came_from st);
              g_score := <[neighbor := tentative_g]> (g_score st);
              f_score := <[neighbor := f]> (f_score st) |}
  else Return st.

(** [while open_set: ...]; the answer is [None] when the queue runs empty. *)
Fixpoint astar_loop (fuel : nat) (graph : gmap Z (list (Z * Q)))
    (nodes : pydict NodeData) (goal : Z) (st : astar_state)
  : outcome (option (list Z)) :=
  match fuel with
  | O => OutOfFuel
  | S fuel' =>
      match heappop (open_set st) with
      | None => Return None
      | Some ((current_f, current), rest) =>
          if current =? goal then
            path ← _reconstruct_path fuel (came_from st) current;
            Return (Some path)
          else
            adj ← getitem graph current;
            st' ← for_each (relax nodes goal current) adj
                    {| open_set := rest; came_from := came_from st;
                       g_score := g_score st; f_score := f_score st |};
            astar_loop fuel' graph nodes goal st'
      end
  end.

Definition _astar (fuel : nat) (graph : gmap Z (list (Z * Q)))
    (nodes : pydict NodeData) (start goal : Z) : outcome (option (list Z)) :=
  let open_set := [(Fin 0, start)] in
  let came_from : gmap Z Z := ∅ in
  let g_score := <[start := Fin 0]> ((fun _ => Inf) <$> graph) in
  h ← _heuristic nodes start goal;
  let f_score := <[start := h]> ((fun _ => Inf) <$> graph) in
  astar_loop fuel graph nodes goal
    {| open_set := open_set; came_from := came_from;
       g_score := g_score; f_score := f_score |}.

(** [max(keys, key=...)]: the first of the largest. *)
Definition py_max_by {A} (key : A → Z) (x : A) (l : list A) : A :=
  fold_left (fun best y => if key best <? key y then y else best) l x.

(** [lambda k: nodes[k]['position']]; [k] is always a key of [nodes]. *)
Definition position_of (nodes : pydict NodeData) (k : Z) : Z :=
  match dict_get nodes k with
  | Some d => position d
  | None => 0
  end.

(** [graph[from_node].append((to_node, distance))] *)
Definition add_edge (e : Z * Z * Q) (graph : gmap Z (list (Z * Q)))
  : outcome (gmap Z (list (Z * Q))) :=
  let '(from_node, to_node, distance) := e in
  adj ← getitem graph from_node;
  Return (<[from_node := adj ++ [(to_node, distance)]]> graph).

(** [graph = {node_id: [] for node_id in nodes}] and the loop over the
    edges that fills it. *)
Definition build_adjacency (nodes : pydict NodeData) (edges : list (Z * Z * Q))
  : outcome (gmap Z (list (Z * Q))) :=
  for_each add_edge edges (list_to_map (map (fun k => (k, [])) (dict_keys nodes))).

(** The goal of the route: the destination given, or else the first node
    of the highest position. *)
Definition route_goal (nodes : pydict NodeData) (destination_node_id : option Z)
  : Z :=
  match destination_node_id with
  | Some d => d
  | None =>
      match dict_keys nodes with
      | k0 :: ks => py_max_by (position_of nodes) k0 ks
      | [] => 0
      end
  end.

(** [plan_route]: the result and the navigator afterwards. *)
Definition plan_route (fuel : nat) (db : Database) (self : Navigator)
    (location_name : string) (current_node_id : Z)
    (destination_node_id : option Z)
  : outcome (option (list Z)) * Navigator :=
  let '(nodes, edges) := get_navigation_graph location_name db in
  match nodes with
  | [] => (Return None, self)
  | _ =>
      let destination_node_id := route_goal nodes destination_node_id in
      match
        (graph ← build_adjacency nodes edges;
         _astar fuel graph nodes current_node_id destination_node_id)
      with
      | Return (Some (n :: p)) =>
          (Return (Some (n :: p)),
           {| current_path := n :: p; current_step := 0 |})
      | Return _ => (Return None, self)
      | Raise e => (Raise e, self)
      | OutOfFuel => (OutOfFuel, self)
      end
  end.

(** [l[i]] with Python's negative indices. *)
Definition py_index {A} (l : list A) (i : Z) : outcome A :=
  let n := Z.of_nat (length l) in
  let j := if i <? 0 then n + i else i in
  if (j <? 0) || (n <=? j) then Raise IndexError
  else match l !! Z.to_nat j with
       | Some x => Return x
       | None => Raise IndexError
       end.

(** [round(x)] to the nearest integer, ties to the even one. *)
Definition round_half_even (q : Q) : Z :=
  let f := Qfloor q in
  let r := (q - inject_Z f)%Q in
  if Qltb r (1 # 2) then f
  else if Qltb (1 # 2) r then f + 1
  else if Z.even f then f else f + 1.

(** [f"{x:.1f}"] *)
Definition format_1f (x : Q) : string :=
  let n := round_half_even (x * 10) in
  let body (m : Z) := (str_Z (m / 10) ++ "." ++ str_Z (m mod 10))%string in
  if n <? 0 then ("-" ++ body (- n))%string else body n.

Definition get_next_instruction (self : Navigator) (nodes : pydict NodeData)
  : outcome string :=
  let path := current_path self in
  let step := current_step self in
  let len := Z.of_nat (length path) in
  match path with
  | [] => Return "Destination reached"%string
  | _ =>
      if len <=? step then Return "Destination reached"%string
      else
        current_node_id ← py_index path step;
        if step =? len - 1 then Return "Destination reached"%string
        else
          next_node_id ← py_index path (step + 1);
          let distance := (7 # 10)%Q in
          Return ("Continue forward " ++ format_1f distance ++ " meters")%string
  end.

Definition advance_step (self : Navigator) : bool * Navigator :=
  if current_step self <? Z.of_nat (length (current_path self)) - 1
  then (true, {| current_path := current_path self;
                 current_step := current_step self + 1 |})
  else (false, self).

(** [s.lower()] on ASCII and [sub in s]. *)
Definition lower_ascii (c : ascii) : ascii :=
  let n := nat_of_ascii c in
  if (65 <=? n)%nat && (n <=? 90)%nat then ascii_of_nat (n + 32) else c.

Fixpoint py_lower (s : string) : string :=
  match s with
  | EmptyString => EmptyString
  | String c s' => String (lower_ascii c) (py_lower s')
  end.

Fixpoint py_contains (sub s : string) : bool :=
  String.prefix sub s ||
  match s with
  | EmptyString => false
  | String _ s' => py_contains sub s'
  end.

(** The arrival test of [navigation_loop]:
    ["reached" in instruction.lower()]. *)
Definition announces_arrival (instruction : string) : bool :=
  py_contains "reached" (py_lower instruction).

(** ** app.py *)

Inductive Mode := idle | mapping | navigating.

(** A detection as the loops read it: [obs['class']], [obs['distance']]. *)
Record Obstacle := {
  obs_class : string;
  obs_distance : Q
}.

(** [app_state] *)
Record AppState := {
  mode : Mode;
  current_location : option string;
  mapping_frames : Z;
  current_position : option Z;
  localization_confidence : Q;
  obstacles : list Obstacle;
  navigation_instruction : string;
  destination : option string
}.

Definition app_state_init : AppState :=
  {| mode := idle; current_location := None; mapping_frames := 0;
     current_position := None; localization_confidence := 0;
     obstacles := []; navigation_instruction := EmptyString;
     destination := None |}.

(** The daemon threads that the commands start. *)
Inductive Thread :=
| MappingLoop (location_id : Z)
| NavigationLoop (destination : string).

(** The module-level objects of [app.py]: the state dict, the navigator,
    the database, what [voice_handler.speak] was asked to say (oldest
    first) and the threads started so far. *)
Record World := {
  app_state : AppState;
  navigator : Navigator;
  db : Database;
  spoken : list string;
  threads : list Thread
}.

Definition world_init (db0 : Database) : World :=
  {| app_state := app_state_init; navigator := Navigator_init; db := db0;
     spoken := []; threads := [] |}.

(** The JSON body of a response. *)
Record Response := {
  status : string;
  message : string;
  location : option string
}.

Definition set_mode (m : Mode) (a : AppState) : AppState :=
  {| mode := m; current_location := current_location a;
     mapping_frames := mapping_frames a;
     current_position := current_position a;
     localization_confidence := localization_confidence a;
     obstacles := obstacles a;
     navigation_instruction := navigation_instruction a;
     destination := destination a |}.

Definition set_current_location (l : option string) (a : AppState) : AppState :=
  {| mode := mode a; current_location := l;
     mapping_frames := mapping_frames a;
     current_position := current_position a;
     localization_confidence := localization_confidence a;
     obstacles := obstacles a;
     navigation_instruction := navigation_instruction a;
     destination := destination a |}.

Definition set_mapping_frames (n : Z) (a : AppState) : AppState :=
  {| mode := mode a; current_location := current_location a;
     mapping_frames := n;
     current_position := current_position a;
     localization_confidence := localization_confidence a;
     obstacles := obstacles a;
     navigation_instruction := navigation_instruction a;
     destination := destination a |}.

Definition set_destination (d : option string) (a : AppState) : AppState :=
  {| mode := mode a; current_location := current_location a;
     mapping_frames := mapping_frames a;
     current_position := current_position a;
     localization_confidence := localization_confidence a;
     obstacles := obstacles a;
     navigation_instruction := navigation_instruction a;
     destination := d |}.

(** [start_mapping]; the argument is [data.get('location_name')], [None]
    when the key is missing. *)
Definition start_mapping (now : Z) (location_name : option string) (w : World)
  : Response * World :=
  let location_name :=
    match location_name with
    | Some n => n
    | None => "unnamed_location"%string
    end in
  let a := set_mapping_frames 0
             (set_current_location (Some location_name)
                (set_mode mapping (app_state w))) in
  let '(location_id, db') := save_location now location_name (db w) in
  ({| status := "success";
      message := ("Mapping " ++ location_name)%string;
      location := None |},
   {| app_state := a; navigator := navigator w; db := db';
      spoken := spoken w ++ [("Starting to map " ++ location_name)%string];
      threads := threads w ++ [MappingLoop location_id] |}).

(** One round of [mapping_loop] in which the capture timer has fired.
    [capture] is the frame that [camera.read()] delivers, [None] when the
    read fails. The loop has ended when the mode is not [mapping]. *)
Definition mapping_tick {Image} (extract_features : Extractor Image)
    (location_id : Z) (capture : option Image) (w : World) : outcome World :=
  match mode (app_state w), capture with
  | mapping, Some frame =>
      let '(kp, desc) := extract_features frame in
      match desc with
      | Some _ =>
          if 50 <? Z.of_nat (length kp) then
            let n := mapping_frames (app_state w) in
            let frame_path :=
              ("data/saved_frames/" ++ str_Z location_id ++ "_" ++ str_Z n
               ++ ".jpg")%string in
            r ← save_frame location_id n frame_path kp desc (db w);
            Return {| app_state := set_mapping_frames (n + 1) (app_state w);
                      navigator := navigator w; db := snd r;
                      spoken := spoken w; threads := threads w |}
          else Return w
      | None => Return w
      end
  | _, _ => Return w
  end.

Definition stop_mapping (w : World) : Response * World :=
  match mode (app_state w) with
  | mapping =>
      let location_name := current_location (app_state w) in
      let frames_captured := mapping_frames (app_state w) in
      ({| status := "success";
          message := ("Mapping complete: " ++ str_Z frames_captured
                      ++ " frames")%string;
          location := location_name |},
       {| app_state := set_current_location None (set_mode idle (app_state w));
          navigator := navigator w; db := db w;
          spoken := spoken w ++
            [("Mapping complete. Saved " ++ str_Z frames_captured
              ++ " landmarks for " ++ str_opt location_name)%string];
          threads := threads w |})
  | _ =>
      ({| status := "error"; message := "Not in mapping mode";
          location := None |}, w)
  end.

(** [destination not in locations] *)
Definition location_known (destination : option string) (names : list string)
  : bool :=
  match destination with
  | Some d => existsb (String.eqb d) names
  | None => false
  end.

(** [start_navigation]; the argument is [data.get('destination')]. *)
Definition start_navigation (destination : option string) (w : World)
  : Response * World :=
  let locations := get_all_locations (db w) in
  match destination with
  | Some d =>
      if location_known destination locations then
        ({| status := "success";
            message := ("Navigating to " ++ d)%string;
            location := None |},
         {| app_state := set_destination destination
                           (set_mode navigating (app_state w));
            navigator := navigator w; db := db w;
            spoken := spoken w ++ [("Navigating to " ++ d)%string];
            threads := threads w ++ [NavigationLoop d] |})
      else
        ({| status := "error"; message := "Location not found";
            location := None |},
         {| app_state := app_state w; navigator := navigator w; db := db w;
            spoken := spoken w ++
              [("Location " ++ str_opt destination ++ " not found")%string];
            threads := threads w |})
  | None =>
      ({| status := "error"; message := "Location not found";
          location := None |},
       {| app_state := app_state w; navigator := navigator w; db := db w;
          spoken := spoken w ++
            [("Location " ++ str_opt destination ++ " not found")%string];
          threads := threads w |})
  end.

Definition stop_navigation (w : World) : Response * World :=
  match mode (app_state w) with
  | navigating =>
      ({| status := "success"; message := "Navigation stopped";
          location := None |},
       {| app_state := set_destination None (set_mode idle (app_state w));
          navigator := {| current_path := [];
                          current_step := current_step (navigator w) |};
          db := db w;
          spoken := spoken w ++ ["Navigation stopped"%string];
          threads := threads w |})
  | _ =>
      ({| status := "error"; message := "Not in navigation mode";
          location := None |}, w)
  end.

(** The four commands of the presentation layer and the states that a
    sequence of them reaches from a fresh process. *)
Inductive Command :=
| StartMapping (now : Z) (location_name : option string)
| StopMapping
| StartNavigation (destination : option string)
| StopNavigation.

Definition run_command (c : Command) (w : World) : Response * World :=
  match c with
  | StartMapping now n => start_mapping now n w
  | StopMapping => stop_mapping w
  | StartNavigation d => start_navigation d w
  | StopNavigation => stop_navigation w
  end.

Definition run_commands (cs : list Command) (w : World) : World :=
  fold_left (fun w c => snd (run_command c w)) cs w.

Definition reachable (w : World) : Prop :=
  ∃ db0 cs, w = run_commands cs (world_init db0).

(** [_cap_confidence] of [navigation_loop]. The argument is [None], a
    number, or a value on which [float(val)] raises. *)
Inductive raw_confidence :=
| RawNone
| RawNum (v : Q)
| RawOther.

(** [min(a, b)] and [max(a, b)] of Python: the first of two equals. *)
Definition py_min (a b : Q) : Q := if Qltb b a then b else a.
Definition py_max (a b : Q) : Q := if Qltb a b then b else a.

(** [round(x, 1)] *)
Definition py_round1 (x : Q) : Q := (inject_Z (round_half_even (x * 10)) / 10)%Q.

Definition _cap_confidence (val : raw_confidence) : Q :=
  match val with
  | RawOther => 0%Q
  | _ =>
      let v := match val with RawNum x => x | _ => 0%Q end in
      let v := if Qle_bool 0 v && Qle_bool v 1 then (v * 100)%Q else v in
      py_round1 (py_max 0 (py_min v 100))
  end.

(** ** obstacle_detection.py *)

Definition class_names : list string :=
  ["person"; "bicycle"; "car"; "motorbike"; "aeroplane";
   "bus"; "train"; "truck"; "boat"; "traffic light";
   "fire hydrant"; "stop sign"; "parking meter"; "bench"; "bird";
   "cat"; "dog"; "horse"; "sheep"; "cow"; "elephant"; "bear";
   "zebra"; "giraffe"; "backpack"; "umbrella"; "handbag"; "tie";
   "suitcase"; "frisbee"; "skis"; "snowboard"; "sports ball";
   "kite"; "baseball bat"; "baseball glove"; "skateboard";
   "surfboard"; "tennis racket"; "bottle"; "wine glass"; "cup";
   "fork"; "knife"; "spoon"; "bowl"; "banana"; "apple";
   "sandwich"; "orange"; "broccoli"; "carrot"; "hot dog"; "pizza";
   "donut"; "cake"; "chair"; "sofa"; "pottedplant"; "bed";
   "diningtable"; "toilet"; "tvmonitor"; "laptop"; "mouse";
   "remote"; "keyboard"; "cell phone"; "microwave"; "oven";
   "toaster"; "sink"; "refrigerator"; "book"; "clock"; "vase";
   "scissors"; "teddy bear"; "hair drier"; "toothbrush"]%string.

Definition obstacle_priority : list (string * Z) :=
  [("person", 3); ("chair", 2); ("sofa", 2); ("diningtable", 2); ("bed", 2);
   ("pottedplant", 1); ("bottle", 1)]%string.

(** [self.obstacle_priority.get(class_name, 1)] *)
Definition priority_of (class_name : string) : Z :=
  match List.find (fun kv => String.eqb (fst kv) class_name) obstacle_priority with
  | Some (_, p) => p
  | None => 1
  end.

Definition _estimate_distance (box_area : Q) : Q :=
  if Qltb (3 # 10) box_area then (1 # 2)%Q
  else if Qltb (15 # 100) box_area then 1%Q
  else if Qltb (5 # 100) box_area then (3 # 2)%Q
  else (5 # 2)%Q.

(** A detection: the dict that [detect_obstacles] builds. *)
Record Detection := {
  det_class : string;
  det_confidence : Q;
  det_bbox : Z * Z * Z * Z;
  det_distance : Q;
  det_priority : Z
}.

(** [int(x)] of a float: rounding towards zero. *)
Definition py_int (x : Q) : Z := Z.quot (Qnum x) (Zpos (Qden x)).

(** The three output tensors of the model: a box is
    [(ymin, xmin, ymax, xmax)]. *)
Record ModelOutput := {
  out_boxes : list (Q * Q * Q * Q);
  out_classes : list Q;
  out_scores : list Q
}.

(** [a[i]] for an index from [range]. *)
Definition getitem_nat {A} (l : list A) (i : nat) : outcome A :=
  match l !! i with
  | Some x => Return x
  | None => Raise IndexError
  end.

(** The body of [for i in range(len(scores))]. *)
Definition detect_step (width height : Z) (out : ModelOutput) (i : nat)
    (obstacles : list Detection) : outcome (list Detection) :=
  score ← getitem_nat (out_scores out) i;
  if Qltb (1 # 2) score then
    c ← getitem_nat (out_classes out) i;
    let class_id := py_int c in
    if class_id <? Z.of_nat (length class_names) then
      class_name ← py_index class_names class_id;
      box ← getitem_nat (out_boxes out) i;
      let '(ymin, xmin, ymax, xmax) := box in
      let bbox := (py_int (xmin * inject_Z width), py_int (ymin * inject_Z height),
                   py_int (xmax * inject_Z width), py_int (ymax * inject_Z height)) in
      let box_area := ((xmax - xmin) * (ymax - ymin))%Q in
      let distance := _estimate_distance box_area in
      Return (obstacles ++
                [{| det_class := class_name; det_confidence := score;
                    det_bbox := bbox; det_distance := distance;
                    det_priority := priority_of class_name |}])
    else Return obstacles
  else Return obstacles.

(** The order of the sort keys [(-priority, distance)]. *)
Definition detection_ltb (a b : Detection) : bool :=
  if - det_priority a =? - det_priority b
  then Qltb (det_distance a) (det_distance b)
  else - det_priority a <? - det_priority b.

(** [list.sort]: stable, by [<] on the keys. *)
Fixpoint insert_sorted {A} (ltb : A → A → bool) (x : A) (l : list A) : list A :=
  match l with
  | [] => [x]
  | y :: l' => if ltb y x then y :: insert_sorted ltb x l'
               else x :: y :: l'
  end.

Definition py_sort {A} (ltb : A → A → bool) (l : list A) : list A :=
  fold_right (insert_sorted ltb) [] l.

(** The draws of [_mock_detection]: [random.random()], the index that
    [random.choice] picks and [random.uniform(1.0, 2.5)]. *)
Record MockDraw := {
  draw_random : Q;
  draw_choice : nat;
  draw_uniform : Q
}.

Definition _mock_detection (width height : Z) (r : MockDraw) : list Detection :=
  if Qltb (draw_random r) (3 # 10) then
    [{| det_class := nth (draw_choice r) ["chair"; "person"; "table"]%string "chair";
        det_confidence := 85 # 100;
        det_bbox := (width / 3, height / 3, 2 * width / 3, 2 * height / 3);
        det_distance := draw_uniform r;
        det_priority := 2 |}]
  else [].

(** [detect_obstacles]: [interpreter] is the output of the model on the
    frame, [None] when no model is loaded. *)
Definition detect_obstacles (interpreter : option ModelOutput)
    (width height : Z) (r : MockDraw) : outcome (list Detection) :=
  match interpreter with
  | None => Return (_mock_detection width height r)
  | Some out =>
      obstacles ←
        for_each (detect_step width height out)
                 (seq 0 (length (out_scores out))) [];
      Return (py_sort detection_ltb obstacles)
  end.

(** The warning of the navigation loop:
    [obstacles and obstacles[0]['distance'] < 1.5]. *)
Definition obstacle_warning (obstacles : list Detection) : option string :=
  match obstacles with
  | obs :: _ =>
      if Qltb (det_distance obs) (3 # 2)
      then Some ("Warning! " ++ det_class obs ++ " ahead at "
                 ++ format_1f (det_distance obs) ++ " meters")%string
      else None
  | [] => None
  end.

(** ** app.py: the navigation loop *)

Definition set_current_position (p : option Z) (a : AppState) : AppState :=
  {| mode := mode a; current_location := current_location a;
     mapping_frames := mapping_frames a;
     current_position := p;
     localization_confidence := localization_confidence a;
     obstacles := obstacles a;
     navigation_instruction := navigation_instruction a;
     destination := destination a |}.

Definition set_localization_confidence (c : Q) (a : AppState) : AppState :=
  {| mode := mode a; current_location := current_location a;
     mapping_frames := mapping_frames a;
     current_position := current_position a;
     localization_confidence := c;
     obstacles := obstacles a;
     navigation_instruction := navigation_instruction a;
     destination := destination a |}.

Definition set_obstacles (o : list Obstacle) (a : AppState) : AppState :=
  {| mode := mode a; current_location := current_location a;
     mapping_frames := mapping_frames a;
     current_position := current_position a;
     localization_confidence := localization_confidence a;
     obstacles := o;
     navigation_instruction := navigation_instruction a;
     destination := destination a |}.

Definition set_navigation_instruction (i : string) (a : AppState) : AppState :=
  {| mode := mode a; current_location := current_location a;
     mapping_frames := mapping_frames a;
     current_position := current_position a;
     localization_confidence := localization_confidence a;
     obstacles := obstacles a;
     navigation_instruction := i;
     destination := destination a |}.

Definition with_app_state (a : AppState) (w : World) : World :=
  {| app_state := a; navigator := navigator w; db := db w;
     spoken := spoken w; threads := threads w |}.

Definition with_navigator (n : Navigator) (w : World) : World :=
  {| app_state := app_state w; navigator := n; db := db w;
     spoken := spoken w; threads := threads w |}.

(** [voice_handler.speak(text)] *)
Definition speak (text : string) (w : World) : World :=
  {| app_state := app_state w; navigator := navigator w; db := db w;
     spoken := spoken w ++ [text]; threads := threads w |}.

(** What the loops keep of a detection. *)
Definition obstacle_of (d : Detection) : Obstacle :=
  {| obs_class := det_class d; obs_distance := det_distance d |}.

(** The local variables of [navigation_loop]. *)
Record NavLocals := {
  last_localization : Q;
  last_obstacle_check : Q;
  last_instruction : Q;
  current_node : option Z
}.

(** What the loop finds outside in one round: the frame that
    [camera.read()] delivers ([None] when the read fails), the
    detections on it, and the clock at each place of the round that
    reads it. *)
Record NavRound (Image : Type) := {
  round_capture : option Image;
  round_detections : outcome (list Detection);
  clock_localization : Q;
  clock_instruction : Q;
  clock_instruction_spoken : Q;
  clock_localized : Q;
  clock_obstacle : Q;
  clock_obstacle_checked : Q
}.
Arguments round_capture {Image} _.
Arguments round_detections {Image} _.
Arguments clock_localization {Image} _.
Arguments clock_instruction {Image} _.
Arguments clock_instruction_spoken {Image} _.
Arguments clock_localized {Image} _.
Arguments clock_obstacle {Image} _.
Arguments clock_obstacle_checked {Image} _.

(** The truth value of an id or [None] in a condition. *)
Definition truthy (o : option Z) : bool :=
  match o with
  | Some n => negb (n =? 0)
  | None => false
  end.

(** [for node_id, node_data in nodes.items(): if node_data.get('frame_id')
    == frame_id: current_node = node_id; break] *)
Definition resolve_node (nodes : pydict NodeData) (frame_id : Z)
    (current_node : option Z) : option Z :=
  match List.find (fun kv => nd_frame_id (snd kv) =? frame_id) nodes with
  | Some (node_id, _) => Some node_id
  | None => current_node
  end.

(** The start of [navigation_loop], before the [while]. *)
Definition navigation_loop_enter (t1 t2 t3 : Q) (w : World) : NavLocals * World :=
  ({| last_localization := t1; last_obstacle_check := t2;
      last_instruction := t3; current_node := None |},
   with_app_state (set_localization_confidence 0 (app_state w)) w).

Inductive LoopControl := NextRound | Break.

(** The obstacle check at the end of a round. *)
Definition obstacle_check {Image} (r : NavRound Image) (l : NavLocals) (w : World)
  : outcome (NavLocals * World) :=
  if Qle_bool (1 # 2) (clock_obstacle r - last_obstacle_check l) then
    detections ← round_detections r;
    let w1 := with_app_state
                (set_obstacles (map obstacle_of detections) (app_state w)) w in
    let w2 := match obstacle_warning detections with
              | Some text => speak text w1
              | None => w1
              end in
    Return ({| last_localization := last_localization l;
               last_obstacle_check := clock_obstacle_checked r;
               last_instruction := last_instruction l;
               current_node := current_node l |}, w2)
  else Return (l, w).

(** [# Plan route if needed]: the route is planned when a node is known
    and no path is held; what [plan_route] returns is not looked at. *)
Definition plan_if_needed (fuel : nat) (destination : string)
    (current_node : option Z) (w : World) : outcome World :=
  match current_node, current_path (navigator w) with
  | Some node, [] =>
      if node =? 0 then Return w
      else
        let '(res, nav) :=
          plan_route fuel (db w) (navigator w) destination node None in
        _ ← res; Return (with_navigator nav w)
  | _, _ => Return w
  end.

(** [# Get instruction]: the instruction is stored, spoken every five
    seconds, each time with a step forward on the path, and ends the trip
    when it says that the destination is reached. *)
Definition give_instruction {Image} (r : NavRound Image) (nodes : pydict NodeData)
    (l : NavLocals) (w : World) : outcome (LoopControl * NavLocals * World) :=
  if truthy (current_node l)
     && negb (match current_path (navigator w) with [] => true | _ => false end)
  then
    instruction ← get_next_instruction (navigator w) nodes;
    let w := with_app_state
               (set_navigation_instruction instruction (app_state w)) w in
    let speaks := Qle_bool 5 (clock_instruction r - last_instruction l) in
    let w := if speaks
             then with_navigator (snd (advance_step (navigator w)))
                    (speak instruction w)
             else w in
    let l := {| last_localization := last_localization l;
                last_obstacle_check := last_obstacle_check l;
                last_instruction :=
                  if speaks then clock_instruction_spoken r
                  else last_instruction l;
                current_node := current_node l |} in
    if announces_arrival instruction then
      Return (Break, l,
              speak "You have arrived at your destination"
                (with_app_state (set_mode idle (app_state w)) w))
    else Return (NextRound, l, w)
  else Return (NextRound, l, w).

(** [# Localize every 1 second], up to the update of
    [last_localization]. [normalize] tells the first loop, which stores
    the confidence through [_cap_confidence], from the second, which
    stores it as it is. *)
Definition localization_block {Image} (extract_features : Extractor Image)
    (matcher : Matcher) (fuel : nat) (normalize : bool) (destination : string)
    (r : NavRound Image) (frame : Image) (l : NavLocals) (w : World)
  : outcome (LoopControl * NavLocals * World) :=
  let '(frame_id, confidence, sequence) :=
    localize extract_features matcher (db w) frame destination in
  let conf :=
    if normalize then _cap_confidence (RawNum (inject_Z confidence))
    else inject_Z confidence in
  let w := with_app_state (set_localization_confidence conf (app_state w)) w in
  if truthy frame_id then
    let w := with_app_state (set_current_position sequence (app_state w)) w in
    let '(nodes, edges) := get_navigation_graph destination (db w) in
    let l := {| last_localization := last_localization l;
                last_obstacle_check := last_obstacle_check l;
                last_instruction := last_instruction l;
                current_node :=
                  match frame_id with
                  | Some fid => resolve_node nodes fid (current_node l)
                  | None => current_node l
                  end |} in
    w ← plan_if_needed fuel destination (current_node l) w;
    give_instruction r nodes l w
  else
    Return (NextRound, l,
            speak "Unable to determine location. Please look around" w).

(** The body of the [while] of [navigation_loop], entered with the mode
    [navigating]. *)
Definition navigation_round {Image} (extract_features : Extractor Image)
    (matcher : Matcher) (fuel : nat) (normalize : bool) (destination : string)
    (r : NavRound Image) (l : NavLocals) (w : World)
  : outcome (LoopControl * NavLocals * World) :=
  match round_capture r with
  | None => Return (NextRound, l, w)
  | Some frame =>
      res ←
        (if Qle_bool 1 (clock_localization r - last_localization l) then
           res ← localization_block extract_features matcher fuel normalize
                   destination r frame l w;
           let '(c, l, w) := res in
           match c with
           | Break => Return (Break, l, w)
           | NextRound =>
               Return (NextRound,
                       {| last_localization := clock_localized r;
                          last_obstacle_check := last_obstacle_check l;
                          last_instruction := last_instruction l;
                          current_node := current_node l |}, w)
           end
         else Return (NextRound, l, w));
      let '(c, l, w) := res in
      match c with
      | Break => Return (Break, l, w)
      | NextRound =>
          lw ← obstacle_check r l w;
          Return (NextRound, fst lw, snd lw)
      end
  end.

(** The thread of [navigation_loop]: its two [while] loops, one after
    the other, and its end. *)
Inductive NavPhase := FirstLoop | SecondLoop | Finished.

(** One step of the thread: the test of the [while] it is in and, when
    the mode is [navigating], one round of its body. *)
Definition navigation_step {Image} (extract_features : Extractor Image)
    (matcher : Matcher) (fuel : nat) (destination : string)
    (r : NavRound Image) (phase : NavPhase) (l : NavLocals) (w : World)
  : outcome (NavPhase * NavLocals * World) :=
  match phase, mode (app_state w) with
  | FirstLoop, navigating =>
      res ← navigation_round extract_features matcher fuel true destination r l w;
      let '(c, l', w') := res in
      Return (match c with NextRound => FirstLoop | Break => SecondLoop end, l', w')
  | FirstLoop, _ => Return (SecondLoop, l, w)
  | SecondLoop, navigating =>
      res ← navigation_round extract_features matcher fuel false destination r l w;
      let '(c, l', w') := res in
      Return (match c with NextRound => SecondLoop | Break => Finished end, l', w')
  | SecondLoop, _ => Return (Finished, l, w)
  | Finished, _ => Return (Finished, l, w)
  end.

(** ** voice_handler.py and the voice command of app.py *)

(** What the recogniser gives to [listen]: the text it recognised, or
    the exception it raised. *)
Inductive Heard :=
| HeardText (raw : string)
| WaitTimeoutError
| UnknownValueError
| RequestError.

(** [VoiceHandler.listen]: the recognised text in lower case (ASCII), or
    [None]. *)
Definition listen (heard : Heard) (w : World) : option string * World :=
  let w := speak "Listening..." w in
  match heard with
  | HeardText raw => (Some (py_lower raw), w)
  | WaitTimeoutError => (None, w)
  | UnknownValueError => (None, speak "Sorry, I didn't understand that" w)
  | RequestError => (None, speak "Speech recognition service unavailable" w)
  end.

Definition error_response (text : string) : Response :=
  {| status := "error"; message := text; location := None |}.

(** [voice_command]. The handlers it calls read the JSON body of the same
    request: [data_location_name] and [data_destination] are its
    [data.get('location_name')] and [data.get('destination')]. The
    location name that the command takes from the spoken words is not
    used. *)
Definition voice_command (heard : Heard) (now : Z)
    (data_location_name data_destination : option string) (w : World)
  : Response * World :=
  let '(text, w) := listen heard w in
  match text with
  | None | Some EmptyString => (error_response "No command recognized", w)
  | Some text =>
      if py_contains "map" text || py_contains "create" text then
        start_mapping now data_location_name w
      else if py_contains "stop" text then
        match mode (app_state w) with
        | mapping => stop_mapping w
        | navigating => stop_navigation w
        | idle => (error_response "Command not understood", w)
        end
      else if py_contains "navigate" text || py_contains "go to" text
              || py_contains "take me" text then
        if existsb (fun loc => py_contains (py_lower loc) text)
             (get_all_locations (db w))
        then start_navigation data_destination w
        else (error_response "Destination not recognized",
              speak "Destination not found" w)
      else if py_contains "where am i" text then
        ({| status := "success"; message := "Location query";
            location := None |},
         speak
           match current_position (app_state w) with
           | Some p => ("You are at position " ++ str_Z p ++ " in "
                        ++ str_opt (destination (app_state w)))%string
           | None => "Location unknown"%string
           end w)
      else (error_response "Command not understood", w)
  end.

(** ** A mapped location to run the program on

    Three frames of 80, 60 and 55 keypoints are captured at the location
    kitchen in a fresh store; a capture is the pair that the feature extractor returns
    for it. *)
Definition demo_image : Type := list KeyPoint * option Descriptors.

Definition demo_extract : Extractor demo_image := fun frame => frame.

Definition demo_keypoint : KeyPoint :=
  {| kp_pt := (0, 0)%Q; kp_size := 31; kp_angle := 0; kp_response := 0;
     kp_octave := 0; kp_class_id := -1 |}.

Definition demo_frame (n : nat) (base : N) : demo_image :=
  (repeat demo_keypoint n,
   Some (map (fun i => (base + N.of_nat i)%N) (seq 0 n))).

(** Descriptors of different frames differ in 80 bits at least. *)
Definition demo_base (k : N) : N := N.shiftl (N.ones 80) (16 + 96 * k).

Definition demo_captures : list (option demo_image) :=
  [Some (demo_frame 80 (demo_base 0)); Some (demo_frame 60 (demo_base 1));
   Some (demo_frame 55 (demo_base 2))].

Definition demo_mapping : World :=
  snd (start_mapping 0 (Some "kitchen"%string) (world_init init_database)).

Definition demo_world : World :=
  match for_each (mapping_tick demo_extract 1) demo_captures demo_mapping with
  | Return w => snd (stop_mapping w)
  | _ => demo_mapping
  end.

Definition demo_nodes : pydict NodeData :=
  fst (get_navigation_graph "kitchen" (db demo_world)).

Definition demo_graph : gmap Z (list (Z * Q)) :=
  match build_adjacency demo_nodes
          (snd (get_navigation_graph "kitchen" (db demo_world))) with
  | Return g => g
  | _ => ∅
  end.

(** A trip to the kitchen under way: the route from node 1 is planned and
    two instructions have been spoken. *)
Definition demo_underway : World :=
  let w := snd (start_navigation (Some "kitchen"%string) demo_world) in
  {| app_state := app_state w;
     navigator := {| current_path := [1; 2; 3]; current_step := 2 |};
     db := db w; spoken := spoken w; threads := threads w |}.

(* ===================================================================== *)
(** * Part II: properties                                                 *)
(* ===================================================================== *)

(** ** Localizer *)

Section Localizer.
Context {Image : Type}.
Variable extract_features : Extractor Image.
Variable matcher : Matcher.

(** The match score of a stored frame against the live descriptors:
    the number of matches at distance below 50. A frame stored without
    descriptors has no score. *)
Definition match_score (current_desc : Descriptors) (f : FrameData) : option Z :=
  match fd_descriptors f with
  | None => None
  | Some saved_desc =>
      Some (Z.of_nat (length (good_matches (matcher current_desc saved_desc))))
  end.

(** [f], at index [i] of the store's answer, has the highest score [M],
    and is the first frame to have it. *)
Definition first_best (current_desc : Descriptors) (fr : list FrameData)
    (i : nat) (f : FrameData) (M : Z) : Prop :=
  fr !! i = Some f ∧ match_score current_desc f = Some M ∧
  (∀ j g s, (j < i)%nat → fr !! j = Some g →
            match_score current_desc g = Some s → s < M) ∧
  (∀ j g s, fr !! j = Some g → match_score current_desc g = Some s → s ≤ M).

(** [g] is [f] with the same or a lower score. *)
Definition lowered (current_desc : Descriptors) (f g : FrameData) : Prop :=
  fd_id g = fd_id f ∧ fd_sequence g = fd_sequence f ∧
  match match_score current_desc f, match_score current_desc g with
  | Some s, Some s' => s' ≤ s
  | None, None => True
  | _, _ => False
  end.

Lemma match_score_nonneg cd f s : match_score cd f = Some s → 0 ≤ s.
Proof.
  unfold match_score. destruct (fd_descriptors f); [|done].
  intros [= <-]. lia.
Qed.

Lemma localize_step_score cd bm bc bs f :
  localize_step matcher cd (bm, bc, bs) f =
    match match_score cd f with
    | Some s => if bc <? s then (Some (fd_id f), s, fd_sequence f)
                else (bm, bc, bs)
    | None => (bm, bc, bs)
    end.
Proof.
  unfold localize_step, match_score. by destruct (fd_descriptors f).
Qed.

(** Frames whose score does not exceed the running count leave the
    state of the loop alone. *)
Lemma fold_no_better cd fr bm bc bs :
  (∀ g s, g ∈ fr → match_score cd g = Some s → s ≤ bc) →
  fold_left (localize_step matcher cd) fr (bm, bc, bs) = (bm, bc, bs).
Proof.
  induction fr as [|g fr IH]; intros Hle; [done|].
  cbn [fold_left]. rewrite localize_step_score.
  destruct (match_score cd g) as [s|] eqn:Hs.
  - assert (s ≤ bc) by (eapply Hle; [left|done]).
    destruct (Z.ltb_spec bc s); [lia|].
    apply IH. intros g' s' Hin. apply Hle. by right.
  - apply IH. intros g' s' Hin. apply Hle. by right.
Qed.

(** The running count stays below a bound that all frames seen are
    below. *)
Lemma fold_below cd fr bm bc bs M :
  bc < M →
  (∀ g s, g ∈ fr → match_score cd g = Some s → s < M) →
  ∃ bm' bc' bs',
    fold_left (localize_step matcher cd) fr (bm, bc, bs) = (bm', bc', bs')
    ∧ bc ≤ bc' < M.
Proof.
  revert bm bc bs. induction fr as [|g fr IH]; intros bm bc bs Hbc Hlt.
  - exists bm, bc, bs. split; [done|lia].
  - cbn [fold_left]. rewrite localize_step_score.
    assert (Hfr : ∀ g' s', g' ∈ fr → match_score cd g' = Some s' → s' < M).
    { intros g' s' Hin. apply Hlt. by right. }
    destruct (match_score cd g) as [s|] eqn:Hs.
    + assert (s < M) by (eapply Hlt; [left|done]).
      destruct (Z.ltb_spec bc s).
      * destruct (IH (Some (fd_id g)) s (fd_sequence g)) as (a & b & c & -> & ?);
          [done..|]. exists a, b, c. split; [done|lia].
      * by apply IH.
    + by apply IH.
Qed.

Lemma first_best_split cd fr i f M :
  first_best cd fr i f M →
  ∃ pre post, fr = pre ++ f :: post ∧
    (∀ g s, g ∈ pre → match_score cd g = Some s → s < M) ∧
    (∀ g s, g ∈ post → match_score cd g = Some s → s ≤ M).
Proof.
  intros (Hi & _ & Hpre & Hall).
  exists (take i fr), (drop (S i) fr). split; [|split].
  - by rewrite <- (take_drop_middle fr i f) at 1.
  - intros g s [j Hj]%list_elem_of_lookup.
    pose proof (lookup_lt_Some _ _ _ Hj) as Hlen. rewrite length_take in Hlen.
    rewrite lookup_take_lt in Hj by lia. apply (Hpre j); lia || done.
  - intros g s [j Hj]%list_elem_of_lookup. rewrite lookup_drop in Hj.
    by eapply Hall.
Qed.

(** The loop ends on the first best frame. *)
Lemma fold_first_best cd fr i f M :
  first_best cd fr i f M →
  fold_left (localize_step matcher cd) fr (None, 0, 0) =
    if 0 <? M then (Some (fd_id f), M, fd_sequence f) else (None, 0, 0).
Proof.
  intros Hfb. pose proof Hfb as (_ & Hf & _ & _).
  destruct (first_best_split _ _ _ _ _ Hfb) as (pre & post & -> & Hpre & Hpost).
  pose proof (match_score_nonneg _ _ _ Hf) as HM.
  rewrite fold_left_app. cbn [fold_left].
  destruct (Z.ltb_spec 0 M) as [Hpos|Hzero].
  - destruct (fold_below cd pre None 0 0 M Hpos Hpre) as (a & b & c & -> & Hb).
    rewrite localize_step_score, Hf.
    destruct (Z.ltb_spec b M); [|lia].
    apply fold_no_better. done.
  - assert (M = 0) as -> by lia.
    rewrite (fold_no_better cd pre).
    + rewrite localize_step_score, Hf. cbn. by apply fold_no_better.
    + intros g s Hg Hs. pose proof (Hpre g s Hg Hs).
      pose proof (match_score_nonneg _ _ _ Hs). lia.
Qed.

(** A store in which some frame has a score has a first best frame. *)
Lemma first_best_exists cd fr :
  (∃ g, g ∈ fr ∧ is_Some (match_score cd g)) →
  ∃ i f M, first_best cd fr i f M.
Proof.
  induction fr as [|g fr IH] using rev_ind; intros (g0 & Hin & Hsc).
  { by apply elem_of_nil in Hin. }
  destruct (decide (Exists (λ g1, is_Some (match_score cd g1)) fr))
    as [Hex|Hno]; rewrite Exists_exists in Hex || rewrite Exists_exists in Hno.
  - destruct (IH Hex) as (i & f & M & Hi & Hf & Hpre & Hall).
    pose proof (lookup_lt_Some _ _ _ Hi) as Hlt.
    destruct (match_score cd g) as [s|] eqn:Hs.
    + destruct (Z.le_gt_cases s M) as [Hle|Hgt].
      * exists i, f, M. repeat split.
        -- by rewrite lookup_app_l.
        -- done.
        -- intros j g' s' Hj Hg'. rewrite lookup_app_l in Hg' by lia.
           by eapply Hpre.
        -- intros j g' s' Hg' Hs'.
           destruct (decide (j < length fr)%nat).
           ++ rewrite lookup_app_l in Hg' by lia. by eapply Hall.
           ++ rewrite lookup_app_r in Hg' by lia.
              destruct (j - length fr)%nat; [|done].
              cbn in Hg'. injection Hg' as <-. congruence.
      * exists (length fr), g, s. repeat split.
        -- rewrite lookup_app_r by lia. by rewrite Nat.sub_diag.
        -- done.
        -- intros j g' s' Hj Hg' Hs'. rewrite lookup_app_l in Hg' by lia.
           pose proof (Hall _ _ _ Hg' Hs'). lia.
        -- intros j g' s' Hg' Hs'.
           destruct (decide (j < length fr)%nat).
           ++ rewrite lookup_app_l in Hg' by lia.
              pose proof (Hall _ _ _ Hg' Hs'). lia.
           ++ rewrite lookup_app_r in Hg' by lia.
              destruct (j - length fr)%nat; [|done].
              cbn in Hg'. injection Hg' as <-. assert (s' = s) by congruence. lia.
    + exists i, f, M. repeat split.
      * by rewrite lookup_app_l.
      * done.
      * intros j g' s' Hj Hg'. rewrite lookup_app_l in Hg' by lia.
        by eapply Hpre.
      * intros j g' s' Hg' Hs'.
        destruct (decide (j < length fr)%nat).
        -- rewrite lookup_app_l in Hg' by lia. by eapply Hall.
        -- rewrite lookup_app_r in Hg' by lia.
           destruct (j - length fr)%nat; [|done].
           cbn in Hg'. injection Hg' as <-. congruence.
  - assert (g0 = g) as ->.
    { apply elem_of_app in Hin as [Hin|Hin%list_elem_of_singleton]; [|done].
      exfalso. apply Hno. eauto. }
    destruct Hsc as [s Hs].
    exists (length fr), g, s. repeat split.
    + rewrite lookup_app_r by lia. by rewrite Nat.sub_diag.
    + done.
    + intros j g' s' Hj Hg' Hs'. rewrite lookup_app_l in Hg' by lia.
      exfalso. apply Hno. exists g'. split; [|by eexists].
      apply list_elem_of_lookup. eauto.
    + intros j g' s' Hg' Hs'.
      destruct (decide (j < length fr)%nat).
      * rewrite lookup_app_l in Hg' by lia.
        exfalso. apply Hno. exists g'. split; [|by eexists].
        apply list_elem_of_lookup. eauto.
      * rewrite lookup_app_r in Hg' by lia.
        destruct (j - length fr)%nat; [|done].
        cbn in Hg'. injection Hg' as <-. assert (s' = s) by congruence. lia.
Qed.
End Localizer.

(** What [localize] computes once the live frame has passed the
    keypoint check. *)
Lemma localize_passed {Image} (ef : Extractor Image) (matcher : Matcher)
    db frame name kp cd :
  ef frame = (kp, Some cd) → 10 ≤ Z.of_nat (length kp) →
  localize ef matcher db frame name =
    let '(bm, bc, bs) :=
      fold_left (localize_step matcher cd) (get_location_frames name db)
                (None, 0, 0) in
    if 30 <=? bc then (bm, bc, Some bs) else (None, bc, None).
Proof.
  intros Hef Hkp. unfold localize. rewrite Hef.
  destruct (Z.ltb_spec (Z.of_nat (length kp)) 10); [lia|].
  by destruct (get_location_frames name db).
Qed.

Lemma first_best_lowered matcher cd fr fr' i f f' M :
  Forall2 (lowered matcher cd) fr fr' →
  first_best matcher cd fr i f M →
  fr' !! i = Some f' → match_score matcher cd f' = Some M →
  first_best matcher cd fr' i f' M.
Proof.
  intros HF (Hi & Hf & Hpre & Hall) Hi' Hf'. repeat split; [done..| |].
  - intros j g' s' Hj Hg' Hs'.
    destruct (Forall2_lookup_r _ _ _ _ _ HF Hg') as (g & Hg & _ & _ & Hlow).
    rewrite Hs' in Hlow. destruct (match_score matcher cd g) as [s|] eqn:Hs; [|done].
    pose proof (Hpre _ _ _ Hj Hg Hs). lia.
  - intros j g' s' Hg' Hs'.
    destruct (Forall2_lookup_r _ _ _ _ _ HF Hg') as (g & Hg & _ & _ & Hlow).
    rewrite Hs' in Hlow. destruct (match_score matcher cd g) as [s|] eqn:Hs; [|done].
    pose proof (Hall _ _ _ Hg Hs). lia.
Qed.

(** C1. Once the live frame has passed the keypoint check, [localize]
    answers with the id and the sequence index of the first frame, in the
    order in which the store lists them, that has the highest match score,
    when this score is at least 30; with [None], the best score and [None]
    when the best score is below 30 (the best score is 0 when no stored frame
    has descriptors). Every store has such a first best frame or no scored
    frame at all. Lowering the scores of other frames, the score of the
    first best frame being kept, does not change the answer. *)
Theorem localize_returns_first_best {Image} (ef : Extractor Image)
    (matcher : Matcher) db frame name kp cd :
  ef frame = (kp, Some cd) → 10 ≤ Z.of_nat (length kp) →
  let fr := get_location_frames name db in
  (∀ i f M, first_best matcher cd fr i f M → 30 ≤ M →
     localize ef matcher db frame name = (Some (fd_id f), M, Some (fd_sequence f)))
  ∧ (∀ i f M, first_best matcher cd fr i f M → M < 30 →
     localize ef matcher db frame name = (None, M, None))
  ∧ ((∀ g, g ∈ fr → match_score matcher cd g = None) →
     localize ef matcher db frame name = (None, 0, None))
  ∧ ((∃ i f M, first_best matcher cd fr i f M)
     ∨ (∀ g, g ∈ fr → match_score matcher cd g = None))
  ∧ (∀ db',
       Forall2 (lowered matcher cd) fr (get_location_frames name db') →
       (∀ i f M, first_best matcher cd fr i f M →
          ∃ f', get_location_frames name db' !! i = Some f'
                ∧ match_score matcher cd f' = Some M) →
       localize ef matcher db' frame name = localize ef matcher db frame name).
Proof.
  intros Hef Hkp fr.
  assert (Hhigh : ∀ db0 i f M,
    first_best matcher cd (get_location_frames name db0) i f M → 30 ≤ M →
    localize ef matcher db0 frame name = (Some (fd_id f), M, Some (fd_sequence f))).
  { intros db0 i f M Hfb HM.
    rewrite (localize_passed _ _ _ _ _ _ _ Hef Hkp), (fold_first_best _ _ _ _ _ _ Hfb).
    destruct (Z.ltb_spec 0 M); [|lia]. destruct (Z.leb_spec 30 M); [done|lia]. }
  assert (Hlow : ∀ db0 i f M,
    first_best matcher cd (get_location_frames name db0) i f M → M < 30 →
    localize ef matcher db0 frame name = (None, M, None)).
  { intros db0 i f M Hfb HM. pose proof Hfb as (_ & Hf & _ & _).
    pose proof (match_score_nonneg _ _ _ _ Hf).
    rewrite (localize_passed _ _ _ _ _ _ _ Hef Hkp), (fold_first_best _ _ _ _ _ _ Hfb).
    destruct (Z.ltb_spec 0 M).
    - destruct (Z.leb_spec 30 M); [lia|done].
    - assert (M = 0) as -> by lia. done. }
  assert (Hnone : ∀ db0,
    (∀ g, g ∈ get_location_frames name db0 → match_score matcher cd g = None) →
    localize ef matcher db0 frame name = (None, 0, None)).
  { intros db0 Hno. rewrite (localize_passed _ _ _ _ _ _ _ Hef Hkp).
    rewrite fold_no_better; [done|]. intros g s Hg Hs.
    rewrite (Hno g Hg) in Hs. done. }
  assert (Htotal : (∃ i f M, first_best matcher cd fr i f M)
     ∨ (∀ g, g ∈ fr → match_score matcher cd g = None)).
  { destruct (decide (Exists (λ g, is_Some (match_score matcher cd g)) fr))
      as [Hex|Hno].
    - left. apply first_best_exists. by apply Exists_exists.
    - right. intros g Hg. destruct (match_score matcher cd g) eqn:Hs; [|done].
      exfalso. apply Hno, Exists_exists. exists g. split; [done|]. by rewrite Hs. }
  split_and!; [by apply Hhigh|by apply Hlow|by apply Hnone|done|].
  intros db' HF Hkeep.
  destruct Htotal as [(i & f & M & Hfb)|Hno].
  - destruct (Hkeep _ _ _ Hfb) as (f' & Hi' & Hf').
    pose proof (first_best_lowered _ _ _ _ _ _ _ _ HF Hfb Hi' Hf') as Hfb'.
    destruct Hfb as (Hi & Hrest).
    destruct (Forall2_lookup_l _ _ _ _ _ HF Hi) as (f2 & Hf2 & Hid & Hseq & _).
    assert (f2 = f') as -> by congruence.
    destruct (Z.le_gt_cases 30 M).
    + rewrite (Hhigh db' _ _ _ Hfb'), (Hhigh db i f M); [|by split|done..].
      by rewrite Hid, Hseq.
    + rewrite (Hlow db' _ _ _ Hfb'), (Hlow db i f M); [done|by split|lia..].
  - rewrite (Hnone db Hno), (Hnone db'); [done|].
    intros g' [j Hj]%list_elem_of_lookup.
    destruct (Forall2_lookup_r _ _ _ _ _ HF Hj) as (g & Hg & _ & _ & Hl).
    rewrite (Hno g) in Hl by (apply list_elem_of_lookup; eauto).
    by destruct (match_score matcher cd g').
Qed.

(** C3. [localize] answers [(None, 0, None)] when the live frame has no
    descriptors or fewer than 10 keypoints, whatever the store holds, and
    when the store has no frame for the location. *)
Theorem localize_sentinel {Image} (ef : Extractor Image) (matcher : Matcher)
    db frame name :
  snd (ef frame) = None ∨ Z.of_nat (length (fst (ef frame))) < 10
  ∨ get_location_frames name db = [] →
  localize ef matcher db frame name = (None, 0, None).
Proof.
  intros H. unfold localize. destruct (ef frame) as [kp [cd|]]; [|done].
  cbn in H. destruct (Z.ltb_spec (Z.of_nat (length kp)) 10); [done|].
  destruct H as [H|[H|H]]; [done|lia|]. by rewrite H.
Qed.

(** ** Session commands *)

(** C4, as the code has it. [start_mapping] sets the mode to [mapping]
    whatever the mode was; [start_navigation] sets it to [navigating]
    whatever it was when the destination is a known location and leaves it
    alone otherwise. The mode is one value, so a session is never mapping
    and navigating at once. *)
Theorem start_commands_set_mode (w : World) (now : Z) (n d : option string) :
  mode (app_state (snd (start_mapping now n w))) = mapping
  ∧ mode (app_state (snd (start_navigation d w))) =
      (if location_known d (get_all_locations (db w)) then navigating
       else mode (app_state w))
  ∧ ¬ (mode (app_state w) = mapping ∧ mode (app_state w) = navigating).
Proof.
  split_and!.
  - unfold start_mapping. by destruct (save_location _ _ _).
  - unfold start_navigation. destruct d as [d|]; [|done].
    by destruct (location_known _ _).
  - intros [H1 H2]. congruence.
Qed.

(** C4, as the claim states it, fails: after [start_mapping] a fresh
    process is in mode [mapping], and from there [start_navigation] to the
    location just created moves it to [navigating]; from there
    [start_mapping] moves it back to [mapping]. *)
Lemma start_commands_not_gated_on_idle :
  ¬ (∀ w, reachable w →
       (∀ d, mode (app_state (snd (start_navigation d w))) = navigating →
             mode (app_state w) = idle)
       ∧ (∀ now n, mode (app_state (snd (start_mapping now n w))) = mapping →
             mode (app_state w) = idle)).
Proof.
  intros H.
  destruct (H (run_commands [StartMapping 0 (Some "hall"%string)]
                 (world_init init_database))) as [Hnav _].
  { by eexists _, _. }
  specialize (Hnav (Some "hall"%string)).
  vm_compute in Hnav. by specialize (Hnav eq_refl).
Qed.

(** C5, as the code has it. In mode [navigating], [stop_navigation]
    succeeds, sets the mode to [idle], empties the planned path and clears
    the destination; the step index stays as it was. In any other mode it
    answers with an error and changes nothing. *)
Theorem stop_navigation_effect (w : World) :
  (mode (app_state w) = navigating →
     let '(r, w') := stop_navigation w in
     status r = "success"%string
     ∧ mode (app_state w') = idle
     ∧ current_path (navigator w') = []
     ∧ destination (app_state w') = None
     ∧ current_step (navigator w') = current_step (navigator w))
  ∧ (mode (app_state w) ≠ navigating →
     let '(r, w') := stop_navigation w in
     status r = "error"%string ∧ w' = w).
Proof.
  unfold stop_navigation. split; intros Hm.
  - by rewrite Hm.
  - by destruct (mode (app_state w)).
Qed.

(** C8. [start_navigation] to a name that is not in the store's list of
    locations answers with the error ["Location not found"] and leaves the
    session state (mode, destination, path, step index, position), the
    store and the threads as they were; a session that was idle stays
    idle. *)
Theorem start_navigation_not_found (w : World) (d : string) :
  d ∉ get_all_locations (db w) →
  let '(r, w') := start_navigation (Some d) w in
  status r = "error"%string ∧ message r = "Location not found"%string
  ∧ app_state w' = app_state w ∧ navigator w' = navigator w
  ∧ db w' = db w ∧ threads w' = threads w
  ∧ (mode (app_state w) = idle → mode (app_state w') = idle).
Proof.
  intros Hd. unfold start_navigation.
  destruct (location_known _ _) eqn:Hk; [|done].
  exfalso. apply Hd. cbn in Hk. apply existsb_exists in Hk as (x & Hx & Heq).
  apply String.eqb_eq in Heq as ->. by apply list_elem_of_In.
Qed.

(** ** Instructions *)

(** C6. With a planned path of length [L ≥ 1]: at step index [L - 1] the
    instruction is ["Destination reached"] (in lower case, "destination
    reached", which the arrival test of the navigation loop accepts); at
    every smaller step index from 0 on it is ["Continue forward 0.7
    meters"], whatever the path is, and the arrival test rejects it. *)
Theorem get_next_instruction_by_step (self : Navigator) (nodes : pydict NodeData) :
  let L := Z.of_nat (length (current_path self)) in
  1 ≤ L →
  (current_step self = L - 1 →
     get_next_instruction self nodes = Return "Destination reached"%string
     ∧ py_lower "Destination reached" = "destination reached"%string
     ∧ announces_arrival "Destination reached" = true)
  ∧ (0 ≤ current_step self < L - 1 →
     get_next_instruction self nodes = Return "Continue forward 0.7 meters"%string
     ∧ announces_arrival "Continue forward 0.7 meters" = false).
Proof.
  intros L HL.
  assert (Hidx : ∀ i, 0 ≤ i < L → ∃ x, py_index (current_path self) i = Return x).
  { intros i Hi. unfold py_index. fold L.
    destruct (Z.ltb_spec i 0) as [?|_]; [lia|].
    destruct (Z.ltb_spec i 0) as [?|_]; [lia|].
    destruct (Z.leb_spec L i) as [?|_]; [lia|]. cbn.
    destruct (current_path self !! Z.to_nat i) eqn:Hl; [by eexists|].
    apply lookup_ge_None in Hl. lia. }
  unfold get_next_instruction. fold L.
  destruct (current_path self) as [|n p] eqn:Hp; [cbn in L; lia|].
  split.
  - intros Hs. split; [|done].
    destruct (Z.leb_spec L (current_step self)); [done|].
    destruct (Hidx (current_step self)) as [x ->]; [lia|]. cbn.
    destruct (Z.eqb_spec (current_step self) (L - 1)); [done|lia].
  - intros Hs. split; [|done].
    destruct (Z.leb_spec L (current_step self)); [lia|].
    destruct (Hidx (current_step self)) as [x ->]; [lia|]. cbn.
    destruct (Z.eqb_spec (current_step self) (L - 1)); [lia|].
    destruct (Hidx (current_step self + 1)) as [y ->]; [lia|]. done.
Qed.

(** ** Confidence normalization *)

Lemma Qltb_lt (x y : Q) : Qltb x y = true ↔ (x < y)%Q.
Proof.
  unfold Qltb. rewrite negb_true_iff. split.
  - intros H. apply Qnot_le_lt. intros Hle. apply Qle_bool_iff in Hle. congruence.
  - intros H. destruct (Qle_bool y x) eqn:E; [|done].
    apply Qle_bool_iff in E. exfalso. by apply (Qlt_not_le x y).
Qed.

Lemma Qltb_ge (x y : Q) : Qltb x y = false ↔ (y <= x)%Q.
Proof.
  unfold Qltb. rewrite negb_false_iff. apply Qle_bool_iff.
Qed.

Lemma Qltb_comp (x x' y y' : Q) :
  (x == x')%Q → (y == y')%Q → Qltb x y = Qltb x' y'.
Proof.
  intros Hx Hy. destruct (Qltb x' y') eqn:E.
  - apply Qltb_lt. apply Qltb_lt in E. by rewrite Hx, Hy.
  - apply Qltb_ge. apply Qltb_ge in E. by rewrite Hx, Hy.
Qed.

Lemma round_half_even_comp (x y : Q) :
  (x == y)%Q → round_half_even x = round_half_even y.
Proof.
  intros H. unfold round_half_even.
  rewrite (Qfloor_comp _ _ H).
  rewrite (Qltb_comp (x - inject_Z (Qfloor y)) (y - inject_Z (Qfloor y))
             (1 # 2) (1 # 2)) by (by rewrite ?H).
  rewrite (Qltb_comp (1 # 2) (1 # 2) (x - inject_Z (Qfloor y))
             (y - inject_Z (Qfloor y))) by (by rewrite ?H).
  done.
Qed.

Lemma round_half_even_Z (x : Q) (n : Z) :
  (x == inject_Z n)%Q → round_half_even x = n.
Proof.
  intros H. rewrite (round_half_even_comp _ _ H).
  unfold round_half_even. rewrite Qfloor_Z.
  assert (Qltb (inject_Z n - inject_Z n) (1 # 2) = true) as ->; [|done].
  apply Qltb_lt. lra.
Qed.

Lemma round_half_even_floor (x : Q) :
  Qfloor x ≤ round_half_even x ≤ Qfloor x + 1.
Proof.
  unfold round_half_even.
  repeat match goal with |- context [if ?b then _ else _] => destruct b end; lia.
Qed.

(** Rounding keeps a value between two integers between them. *)
Lemma round_half_even_bounds (x : Q) (a b : Z) :
  (inject_Z a <= x)%Q → (x <= inject_Z b)%Q → a ≤ round_half_even x ≤ b.
Proof.
  intros Ha Hb. pose proof (round_half_even_floor x) as [Hlo Hhi].
  assert (a ≤ Qfloor x).
  { rewrite <- (Qfloor_Z a). by apply Qfloor_resp_le. }
  assert (Qfloor x ≤ b).
  { rewrite <- (Qfloor_Z b). by apply Qfloor_resp_le. }
  split; [lia|].
  destruct (decide (Qfloor x = b)) as [Heq|]; [|lia].
  rewrite (round_half_even_Z x b); [lia|].
  apply Qle_antisym; [done|]. rewrite <- Heq. apply Qfloor_le.
Qed.

Lemma py_round1_comp (x y : Q) : (x == y)%Q → py_round1 x = py_round1 y.
Proof.
  intros H. unfold py_round1. rewrite (round_half_even_comp (x * 10) (y * 10)); [done|].
  by rewrite H.
Qed.

Lemma py_round1_bounds (x : Q) :
  (0 <= x)%Q → (x <= 100)%Q →
  ∃ n, py_round1 x = (inject_Z n / 10)%Q ∧ 0 ≤ n ≤ 1000.
Proof.
  intros H0 H100. exists (round_half_even (x * 10)). split; [done|].
  apply round_half_even_bounds.
  - change (inject_Z 0) with 0%Q. lra.
  - change (inject_Z 1000) with 1000%Q. lra.
Qed.


(** The clamp [max(0.0, min(v, 100.0))]. *)
Lemma clamp_cases (v : Q) :
  ((v < 0)%Q ∧ py_max 0 (py_min v 100) = 0%Q)
  ∨ ((0 <= v)%Q ∧ (v <= 100)%Q ∧ (py_max 0 (py_min v 100) == v)%Q)
  ∨ ((100 < v)%Q ∧ py_max 0 (py_min v 100) = 100%Q).
Proof.
  unfold py_max, py_min.
  destruct (Qltb 100 v) eqn:E1.
  - apply Qltb_lt in E1. right. right. split; [done|].
    assert (Qltb 0 100 = true) as -> by done. done.
  - apply Qltb_ge in E1. destruct (Qltb 0 v) eqn:E2.
    + apply Qltb_lt in E2. right. left. split_and!; [lra|done|reflexivity].
    + apply Qltb_ge in E2. destruct (Qlt_le_dec v 0).
      * left. done.
      * right. left. split_and!; [done|done|lra].
Qed.

Lemma cap_confidence_range (val : raw_confidence) :
  _cap_confidence val = 0%Q
  ∨ ∃ n, _cap_confidence val = (inject_Z n / 10)%Q ∧ 0 ≤ n ≤ 1000.
Proof.
  assert (Hnum : ∀ v, ∃ n,
    py_round1 (py_max 0 (py_min v 100)) = (inject_Z n / 10)%Q ∧ 0 ≤ n ≤ 1000).
  { intros v. destruct (clamp_cases v) as [[_ ->]|[(H0 & H1 & He)|[_ ->]]].
    - apply py_round1_bounds; lra.
    - rewrite (py_round1_comp _ _ He). by apply py_round1_bounds.
    - apply py_round1_bounds; lra. }
  destruct val as [|v|]; cbn -[py_round1 py_max py_min Qle_bool].
  - right. apply Hnum.
  - right. apply Hnum.
  - by left.
Qed.

Lemma tenth_bounds (n : Z) :
  0 ≤ n ≤ 1000 → (0 <= inject_Z n / 10)%Q ∧ (inject_Z n / 10 <= 100)%Q.
Proof.
  intros Hn.
  assert (inject_Z 0 <= inject_Z n)%Q as H0 by (rewrite <- Zle_Qle; lia).
  assert (inject_Z n <= inject_Z 1000)%Q as H1 by (rewrite <- Zle_Qle; lia).
  change (inject_Z 0) with 0%Q in H0. change (inject_Z 1000) with 1000%Q in H1.
  split.
  - apply Qle_shift_div_l; lra.
  - apply Qle_shift_div_r; lra.
Qed.


(** ** Route planning *)

Lemma reconstruct_loop_nonempty fuel cf cur path p :
  reconstruct_loop fuel cf cur path = Return p → path ≠ [] → p ≠ [].
Proof.
  revert cur path. induction fuel as [|fuel IH]; intros cur path; [done|].
  cbn. destruct (cf !! cur) as [prev|].
  - intros H Hne. apply (IH _ _ H). by destruct path.
  - by intros [= ->].
Qed.

Lemma reconstruct_path_nonempty fuel cf cur p :
  _reconstruct_path fuel cf cur = Return p → p ≠ [].
Proof.
  unfold _reconstruct_path.
  destruct (reconstruct_loop fuel cf cur [cur]) as [q| |] eqn:Hq; [|done..].
  cbn. intros [= <-]. apply reconstruct_loop_nonempty in Hq; [|done].
  intros Hr. apply (f_equal (@rev Z)) in Hr. rewrite rev_involutive in Hr. done.
Qed.

Lemma astar_loop_nonempty fuel graph nodes goal st p :
  astar_loop fuel graph nodes goal st = Return (Some p) → p ≠ [].
Proof.
  revert st. induction fuel as [|fuel IH]; intros st; [done|].
  cbn -[_reconstruct_path].
  destruct (heappop (open_set st)) as [[[f cur] rest]|]; [|done].
  destruct (cur =? goal).
  - destruct (_reconstruct_path (S fuel) (came_from st) cur) as [q| |] eqn:Hq;
      [|done..].
    cbn. intros [= <-]. by eapply reconstruct_path_nonempty.
  - destruct (getitem graph cur) as [adj| |]; [|done..]. cbn.
    destruct (for_each _ adj _) as [st'| |]; [|done..]. cbn. apply IH.
Qed.

Lemma astar_nonempty fuel graph nodes start goal p :
  _astar fuel graph nodes start goal = Return (Some p) → p ≠ [].
Proof.
  unfold _astar. destruct (_heuristic nodes start goal); [|done..].
  cbn. apply astar_loop_nonempty.
Qed.

(** C10. [plan_route] changes the navigator in one case only. When the
    graph of the location has no node, or the search ends without a path,
    it answers [None] and the navigator is as before; when the search finds
    a path, the path becomes [current_path], [current_step] becomes 0 and
    the path is the answer; when the search raises or does not end, the
    navigator is as before as well. *)
Theorem plan_route_atomic (fuel : nat) (db : Database) (self : Navigator)
    (name : string) (cur : Z) (dest : option Z) :
  let nodes := fst (get_navigation_graph name db) in
  let edges := snd (get_navigation_graph name db) in
  let found :=
    graph ← build_adjacency nodes edges;
    _astar fuel graph nodes cur (route_goal nodes dest) in
  (nodes = [] → plan_route fuel db self name cur dest = (Return None, self))
  ∧ (nodes ≠ [] → found = Return None →
     plan_route fuel db self name cur dest = (Return None, self))
  ∧ (∀ p, nodes ≠ [] → found = Return (Some p) →
     plan_route fuel db self name cur dest =
       (Return (Some p), {| current_path := p; current_step := 0 |}))
  ∧ ((∀ p, found ≠ Return (Some p)) →
     snd (plan_route fuel db self name cur dest) = self).
Proof.
  unfold plan_route. destruct (get_navigation_graph name db) as [nodes edges].
  cbn [fst snd]. split_and!.
  - by intros ->.
  - intros Hne Hf. destruct nodes as [|nd nodes]; [done|]. by rewrite Hf.
  - intros p Hne Hf. destruct nodes as [|nd nodes]; [done|]. rewrite Hf.
    destruct p as [|n p]; [|done]. exfalso.
    destruct (build_adjacency _ edges) as [graph| |]; [|done..].
    cbn in Hf. by apply astar_nonempty in Hf.
  - intros Hf. destruct nodes as [|nd nodes]; [done|].
    match goal with |- context [match ?x with _ => _ end] =>
      destruct x as [[[|n p]|]| |] eqn:Hx end; try done.
    by destruct (Hf (n :: p)).
Qed.

(** ** Mapping *)

(** A capture is accepted when the frame was read, has descriptors and has
    more than 50 keypoints. *)
Definition accepted {Image} (ef : Extractor Image) (capture : option Image) : bool :=
  match capture with
  | Some frame =>
      match snd (ef frame) with
      | Some _ => 50 <? Z.of_nat (length (fst (ef frame)))
      | None => false
      end
  | None => false
  end.

(** The edges of a store join nodes that were inserted before them; every
    store that [save_frame] has built is so. *)
Definition edges_closed (db : Database) : Prop :=
  ∀ e, e ∈ graph_edges db →
    from_node e < lastrowid (map node_id (graph_nodes db))
    ∧ to_node e < lastrowid (map node_id (graph_nodes db)).

(** The edges that come with the node [new_node] of sequence index [seq]:
    a pair with the node of the previous index, when there is one. *)
Definition frame_links (location_id seq new_node : Z) (db : Database)
  : list EdgeRow :=
  if 0 <? seq then
    match find_node location_id (seq - 1) db with
    | Some prev =>
        [{| from_node := node_id prev; to_node := new_node;
            edge_distance := 7 # 10 |};
         {| from_node := new_node; to_node := node_id prev;
            edge_distance := 7 # 10 |}]
    | None => []
    end
  else [].

Lemma fold_max_nonneg (ids : list Z) : 0 ≤ fold_right Z.max 0 ids.
Proof. induction ids; cbn; lia. Qed.

Lemma fold_max_app (l k : list Z) :
  fold_right Z.max 0 (l ++ k) = Z.max (fold_right Z.max 0 l) (fold_right Z.max 0 k).
Proof.
  induction l as [|x l IH]; cbn.
  - pose proof (fold_max_nonneg k). lia.
  - rewrite IH. lia.
Qed.

Lemma lastrowid_gt (ids : list Z) (x : Z) : x ∈ ids → x < lastrowid ids.
Proof.
  unfold lastrowid. induction ids as [|y ids IH]; intros Hin.
  - by apply elem_of_nil in Hin.
  - apply elem_of_cons in Hin as [->|Hin]; cbn; [lia|]. specialize (IH Hin). lia.
Qed.

Lemma lastrowid_snoc (ids : list Z) :
  lastrowid (ids ++ [lastrowid ids]) = lastrowid ids + 1.
Proof.
  unfold lastrowid. rewrite fold_max_app. cbn.
  pose proof (fold_max_nonneg ids). lia.
Qed.

Lemma find_snoc_false {A} (f : A → bool) (l : list A) (x : A) :
  f x = false → List.find f (l ++ [x]) = List.find f l.
Proof.
  intros Hx. induction l as [|y l IH]; cbn; [by rewrite Hx|].
  by destruct (f y).
Qed.

Lemma find_snoc_some {A} (f : A → bool) (l : list A) (x : A) :
  f x = true → is_Some (List.find f (l ++ [x])).
Proof.
  intros Hx. induction l as [|y l IH]; cbn; [by rewrite Hx|].
  by destruct (f y).
Qed.

Lemma find_node_in location_id pos db n :
  find_node location_id pos db = Some n → n ∈ graph_nodes db.
Proof.
  unfold find_node. intros H%find_some. apply list_elem_of_In, H.
Qed.

Lemma edge_exists_false (f t : Z) (edges : list EdgeRow) :
  (∀ e, e ∈ edges → from_node e ≠ f ∨ to_node e ≠ t) →
  edge_exists f t edges = false.
Proof.
  intros H. unfold edge_exists. apply not_true_is_false.
  intros (e & Hin & He)%existsb_exists.
  apply andb_true_iff in He as [?%Z.eqb_eq ?%Z.eqb_eq].
  destruct (H e); [by apply list_elem_of_In|done..].
Qed.

(** What [save_frame] does to a store whose edges are closed: one frame
    row, one node row for it at the same index, and the links. *)
Lemma save_frame_closed location_id seq path kp desc db :
  edges_closed db →
  let new_frame := lastrowid (map frame_id (frames db)) in
  let new_node := lastrowid (map node_id (graph_nodes db)) in
  save_frame location_id seq path kp desc db =
    Return (new_frame,
      {| locations := locations db;
         frames := frames db ++
           [{| frame_id := new_frame; frame_location_id := location_id;
               frame_sequence_number := seq; frame_image_path := path;
               frame_keypoints := kp; frame_descriptors := desc |}];
         graph_nodes := graph_nodes db ++
           [{| node_id := new_node; node_location_id := location_id;
               node_frame_id := new_frame; node_position_index := seq |}];
         graph_edges := graph_edges db ++ frame_links location_id seq new_node db |}).
Proof.
  intros Hcl new_frame new_node. unfold save_frame, frame_links.
  fold new_frame new_node.
  destruct (0 <? seq) eqn:Hseq; [|cbn; by rewrite app_nil_r].
  unfold find_node at 1. cbn [graph_nodes].
  rewrite find_snoc_false.
  2:{ cbn. apply andb_false_iff. right. apply Z.eqb_neq. lia. }
  fold (find_node location_id (seq - 1) db).
  destruct (find_node location_id (seq - 1) db) as [prev|] eqn:Hprev;
    [|cbn; by rewrite app_nil_r].
  assert (node_id prev < new_node) as Hlt.
  { apply lastrowid_gt, list_elem_of_fmap. exists prev. split; [done|].
    by eapply find_node_in. }
  unfold insert_edge.
  rewrite edge_exists_false.
  2:{ intros e He. right. destruct (Hcl e He) as [_ ?]. fold new_node in H. lia. }
  cbn -[edge_exists]. rewrite edge_exists_false.
  2:{ intros e [He|He%list_elem_of_singleton]%elem_of_app.
      - left. destruct (Hcl e He) as [? _]. fold new_node in H. lia.
      - left. subst e. cbn. lia. }
  cbn. by rewrite <- app_assoc.
Qed.

Lemma frame_links_length location_id seq new_node db :
  length (frame_links location_id seq new_node db) =
    match find_node location_id (seq - 1) db with
    | Some _ => if 0 <? seq then 2%nat else 0%nat
    | None => 0%nat
    end.
Proof.
  unfold frame_links. destruct (0 <? seq), (find_node _ _ _); done.
Qed.

Lemma frame_links_weight location_id seq new_node db e :
  e ∈ frame_links location_id seq new_node db → edge_distance e = (7 # 10)%Q.
Proof.
  unfold frame_links. destruct (0 <? seq); [|by intros ?%elem_of_nil].
  destruct (find_node _ _ _); [|by intros ?%elem_of_nil].
  intros [->|[->|?%elem_of_nil]%elem_of_cons]%elem_of_cons; done.
Qed.

Lemma save_frame_keeps_closed location_id seq path kp desc db r :
  edges_closed db →
  save_frame location_id seq path kp desc db = Return r →
  edges_closed (snd r).
Proof.
  intros Hcl. rewrite save_frame_closed by done. intros [= <-]. cbn [snd].
  intros e. cbn [graph_edges graph_nodes]. rewrite map_app. cbn [map node_id].
  rewrite lastrowid_snoc.
  intros [He|He]%elem_of_app.
  - destruct (Hcl e He). lia.
  - unfold frame_links in He. destruct (0 <? seq); [|by apply elem_of_nil in He].
    destruct (find_node _ _ _) as [prev|] eqn:Hprev; [|by apply elem_of_nil in He].
    assert (node_id prev < lastrowid (map node_id (graph_nodes db))).
    { apply lastrowid_gt, list_elem_of_fmap. exists prev. split; [done|].
      by eapply find_node_in. }
    apply elem_of_cons in He as [->|[->|?%elem_of_nil]%elem_of_cons]; [| |done];
      cbn; lia.
Qed.

(** The state of a running mapping loop for the location [location_id]:
    the frames saved so far carry the indices below the counter. *)
Definition mapping_inv (location_id : Z) (w : World) : Prop :=
  mode (app_state w) = mapping
  ∧ 0 ≤ mapping_frames (app_state w)
  ∧ edges_closed (db w)
  ∧ (0 < mapping_frames (app_state w) →
     is_Some (find_node location_id (mapping_frames (app_state w) - 1) (db w))).

Lemma mapping_tick_rejected {Image} (ef : Extractor Image) location_id capture w :
  accepted ef capture = false →
  mapping_tick ef location_id capture w = Return w.
Proof.
  unfold accepted, mapping_tick. intros H.
  destruct (mode (app_state w)); [done| |done].
  destruct capture as [frame|]; [|done].
  destruct (ef frame) as [kp [d|]]; [|done]. cbn in H. by rewrite H.
Qed.

Lemma mapping_tick_accepted {Image} (ef : Extractor Image) location_id capture w :
  accepted ef capture = true →
  mapping_inv location_id w →
  let k := mapping_frames (app_state w) in
  let new_node := lastrowid (map node_id (graph_nodes (db w))) in
  ∃ w' f nd,
    mapping_tick ef location_id capture w = Return w'
    ∧ mapping_inv location_id w'
    ∧ mapping_frames (app_state w') = k + 1
    ∧ frames (db w') = frames (db w) ++ [f]
    ∧ frame_sequence_number f = k
    ∧ graph_nodes (db w') = graph_nodes (db w) ++ [nd]
    ∧ node_frame_id nd = frame_id f ∧ node_position_index nd = k
    ∧ node_id nd = new_node
    ∧ graph_edges (db w') =
        graph_edges (db w) ++ frame_links location_id k new_node (db w).
Proof.
  intros Hacc (Hmode & Hk & Hcl & Hprev) k new_node.
  unfold accepted in Hacc. destruct capture as [frame|]; [|done].
  unfold mapping_tick. rewrite Hmode.
  destruct (ef frame) as [kp [d|]]; [|done]. cbn in Hacc. rewrite Hacc.
  fold k. rewrite save_frame_closed by done. cbn [mbind outcome_bind snd].
  eexists _, _, _. split; [done|].
  split; [|split_and!; done].
  unfold mapping_inv. split_and!.
  - done.
  - cbn. lia.
  - intros e. cbn [graph_edges graph_nodes db]. rewrite map_app. cbn [map node_id].
    rewrite lastrowid_snoc. fold new_node.
    intros [He|He]%elem_of_app.
    + destruct (Hcl e He). fold new_node in H, H0. lia.
    + unfold frame_links in He. destruct (0 <? k); [|by apply elem_of_nil in He].
      destruct (find_node _ _ _) as [prev|] eqn:Hp; [|by apply elem_of_nil in He].
      assert (node_id prev < new_node).
      { apply lastrowid_gt, list_elem_of_fmap. exists prev. split; [done|].
        by eapply find_node_in. }
      apply elem_of_cons in He as [->|[->|?%elem_of_nil]%elem_of_cons]; [| |done];
        cbn; lia.
  - cbn. intros _. replace (k + 1 - 1) with k by lia.
    unfold find_node. cbn [graph_nodes]. apply find_snoc_some. cbn.
    by rewrite !Z.eqb_refl.
Qed.

(** A run of the mapping loop over a list of captures. *)
Lemma mapping_ticks_counts {Image} (ef : Extractor Image) location_id captures :
  ∀ w, mapping_inv location_id w →
  let n := length (List.filter (accepted ef) captures) in
  ∃ w' new_edges,
    for_each (mapping_tick ef location_id) captures w = Return w'
    ∧ mapping_inv location_id w'
    ∧ mapping_frames (app_state w') = mapping_frames (app_state w) + Z.of_nat n
    ∧ length (frames (db w')) = (length (frames (db w)) + n)%nat
    ∧ length (graph_nodes (db w')) = (length (graph_nodes (db w)) + n)%nat
    ∧ graph_edges (db w') = graph_edges (db w) ++ new_edges
    ∧ length new_edges =
        (if 0 <? mapping_frames (app_state w) then (2 * n)%nat
         else (2 * (n - 1))%nat)
    ∧ ∀ e, e ∈ new_edges → edge_distance e = (7 # 10)%Q.
Proof.
  induction captures as [|c captures IH]; intros w Hinv; cbn zeta.
  - exists w, []. cbn. split_and!; try done.
    + lia.
    + by rewrite app_nil_r.
    + by destruct (0 <? _).
    + by intros e ?%elem_of_nil.
  - cbn [for_each List.filter]. destruct (accepted ef c) eqn:Hc.
    + destruct (mapping_tick_accepted ef location_id c w Hc Hinv)
        as (w1 & f & nd & -> & Hinv1 & Hk1 & Hf1 & _ & Hn1 & _ & _ & _ & He1).
      destruct (IH w1 Hinv1)
        as (w' & es & Hrun & Hinv' & Hk' & Hf' & Hn' & He' & Hlen & Hw).
      exists w', (frame_links location_id (mapping_frames (app_state w))
                    (lastrowid (map node_id (graph_nodes (db w)))) (db w) ++ es).
      cbn [mbind outcome_bind]. split; [done|]. split; [done|].
      destruct Hinv as (_ & Hk & _ & Hprev).
      split_and!.
      * rewrite Hk', Hk1. cbn [length]. lia.
      * rewrite Hf', Hf1, length_app. cbn [length]. lia.
      * rewrite Hn', Hn1, length_app. cbn [length]. lia.
      * by rewrite He', He1, <- app_assoc.
      * rewrite length_app, Hlen, frame_links_length.
        destruct (Z.ltb_spec 0 (mapping_frames (app_state w1))); [|lia].
        destruct (Z.ltb_spec 0 (mapping_frames (app_state w))).
        -- destruct (Hprev ltac:(done)) as [prev ->]. cbn [length]. lia.
        -- destruct (find_node _ _ _); cbn [length]; lia.
      * intros e [He|He]%elem_of_app; [by eapply frame_links_weight|by apply Hw].
    + rewrite mapping_tick_rejected by done. cbn [mbind outcome_bind].
      by apply IH.
Qed.

Lemma start_mapping_inv now name db0 :
  edges_closed db0 →
  let w0 := snd (start_mapping now (Some name) (world_init db0)) in
  mapping_inv (fst (save_location now name db0)) w0
  ∧ mapping_frames (app_state w0) = 0
  ∧ frames (db w0) = frames db0
  ∧ graph_nodes (db w0) = graph_nodes db0
  ∧ graph_edges (db w0) = graph_edges db0.
Proof.
  intros Hcl. unfold start_mapping, save_location. cbn [db world_init].
  destruct (find_location name db0); cbn; (split_and!; try done);
    split_and!; done || lia.
Qed.


(** ** A* on a path graph *)

(** The adjacency list of the node at index [i] of the path [ids]: the
    nodes at the indices next to [i], at distance [w]. *)
Definition path_neighbours (ids : list Z) (w : Q) (i : nat) : list (Z * Q) :=
  match i with
  | S j => match ids !! j with Some p => [(p, w)] | None => [] end
  | O => []
  end ++
  match ids !! S i with Some n => [(n, w)] | None => [] end.

(** [ids] is a path of the graph, closed under adjacency: its nodes are
    distinct, every one has node data, and the adjacency list of each is,
    in some order, its neighbours on the path. *)
Record path_component (ids : list Z) (w : Q) (nodes : pydict NodeData)
    (graph : gmap Z (list (Z * Q))) : Prop := {
  pc_nodup : NoDup ids;
  pc_nodes : ∀ x, x ∈ ids → is_Some (dict_get nodes x);
  pc_adj : ∀ i x, ids !! i = Some x →
             ∃ adj, graph !! x = Some adj ∧ adj ≡ₚ path_neighbours ids w i
}.

(** A valid path graph: the node at index [i] of the path has position
    index [i], for [i] from 0 to [length ids - 1], consecutive nodes are
    joined in both directions and every edge has weight [w]. *)
Definition is_path_graph (ids : list Z) (w : Q) (nodes : pydict NodeData)
    (graph : gmap Z (list (Z * Q))) : Prop :=
  path_component ids w nodes graph
  ∧ (∀ i x, ids !! i = Some x → position_of nodes x = Z.of_nat i).

(** The route from index [s] to index [t] of the path: [|t - s| + 1]
    nodes, the one at place [k] being [k] indices from [s] towards [t]. *)
Definition is_route (ids : list Z) (s t : nat) (path : list Z) : Prop :=
  length path = S (Z.abs_nat (Z.of_nat t - Z.of_nat s))
  ∧ ∀ k, (k ≤ Z.abs_nat (Z.of_nat t - Z.of_nat s))%nat →
         path !! k = ids !! (if (s <=? t)%nat then s + k else s - k)%nat.

Lemma is_route_unique ids s t p p' :
  is_route ids s t p → is_route ids s t p' → p = p'.
Proof.
  intros [Hl Hp] [Hl' Hp']. apply list_eq. intros k.
  destruct (decide (k ≤ Z.abs_nat (Z.of_nat t - Z.of_nat s))%nat).
  - by rewrite Hp, Hp'.
  - rewrite !lookup_ge_None_2; [done|lia..].
Qed.

Lemma heappop_none (h : list entry) : heappop h = None → h = [].
Proof.
  destruct h as [|y h]; [done|]. cbn.
  destruct (heappop h) as [[m r]|]; [|done]. by destruct (entry_ltb m y).
Qed.

Lemma heappop_perm (h : list entry) x rest :
  heappop h = Some (x, rest) → h ≡ₚ x :: rest.
Proof.
  revert x rest. induction h as [|y h IH]; intros x rest; [done|].
  cbn. destruct (heappop h) as [[m r]|] eqn:E.
  - destruct (entry_ltb m y); intros [= <- <-]; [|done].
    rewrite (IH m r eq_refl). apply perm_swap.
  - intros [= <- <-]. by apply heappop_none in E as ->.
Qed.

Lemma path_neighbours_elem ids w i nb d :
  (nb, d) ∈ path_neighbours ids w i ↔
  d = w ∧ ∃ j, ids !! j = Some nb ∧ (S j = i ∨ j = S i).
Proof.
  unfold path_neighbours. rewrite elem_of_app. split.
  - intros [H|H].
    + destruct i as [|j]; [by apply elem_of_nil in H|].
      destruct (ids !! j) eqn:Hj; [|by apply elem_of_nil in H].
      apply list_elem_of_singleton in H as [= -> ->]. eauto.
    + destruct (ids !! S i) eqn:Hj; [|by apply elem_of_nil in H].
      apply list_elem_of_singleton in H as [= -> ->]. eauto.
  - intros (-> & j & Hj & [<- | ->]).
    + left. rewrite Hj. by apply list_elem_of_singleton.
    + right. rewrite Hj. by apply list_elem_of_singleton.
Qed.

Lemma scaled_le (a b : Z) (w : Q) :
  a ≤ b → (0 <= w)%Q → (inject_Z a * w <= inject_Z b * w)%Q.
Proof.
  intros Hab Hw. apply Qmult_le_compat_r; [|done]. by rewrite <- Zle_Qle.
Qed.

Lemma scaled_succ (a : Z) (w : Q) :
  (inject_Z (a + 1) * w == inject_Z a * w + w)%Q.
Proof. rewrite inject_Z_plus. change (inject_Z 1) with 1%Q. ring. Qed.

Section PathGraph.
Variables (ids : list Z) (w : Q) (nodes : pydict NodeData).
Variable graph : gmap Z (list (Z * Q)).
Variables (start goal : Z) (s : nat).
Hypothesis Hpc : path_component ids w nodes graph.
Hypothesis Hw : (0 <= w)%Q.
Hypothesis Hs : ids !! s = Some start.
Hypothesis Hgoal : is_Some (dict_get nodes goal).

(** The number of edges between index [i] and the start, and the index
    next to [i] on the side of the start. *)
Definition dist (i : nat) : Z := Z.abs (Z.of_nat i - Z.of_nat s).
Definition toward (i : nat) : nat := if (s <? i)%nat then pred i else S i.

(** A node is seen once it has been pushed: it is being expanded
    ([pend]), was expanded ([closed]) or waits in the queue. *)
Definition seen (pend closed : list Z) (st : astar_state) (x : Z) : Prop :=
  x ∈ pend ∨ x ∈ closed ∨ x ∈ map snd (open_set st).

(** The invariant of the search loop. *)
Record astar_inv (pend closed : list Z) (st : astar_state) : Prop := {
  inv_nodup : NoDup (pend ++ closed ++ map snd (open_set st));
  inv_ids : ∀ x, seen pend closed st x → x ∈ ids;
  inv_start : seen pend closed st start;
  inv_goal : (goal ∉ pend) ∧ (goal ∉ closed);
  inv_g_seen : ∀ i x, ids !! i = Some x → seen pend closed st x →
    ∃ q, g_score st !! x = Some (Fin q) ∧ (q == inject_Z (dist i) * w)%Q;
  inv_g_unseen : ∀ x, x ∈ ids → ¬ seen pend closed st x →
    g_score st !! x = Some Inf;
  inv_from : ∀ i x, ids !! i = Some x → seen pend closed st x → i ≠ s →
    ∃ y, ids !! toward i = Some y ∧ came_from st !! x = Some y
         ∧ (y ∈ pend ∨ y ∈ closed);
  inv_from_none : ∀ x, ¬ seen pend closed st x ∨ x = start →
    came_from st !! x = None;
  inv_closed : ∀ i x nb, ids !! i = Some x → x ∈ closed →
    nb ∈ path_neighbours ids w i → seen pend closed st (fst nb)
}.

Lemma index_unique i j x : ids !! i = Some x → ids !! j = Some x → i = j.
Proof. apply NoDup_lookup, Hpc. Qed.

Definition astar_init : astar_state :=
  {| open_set := [(Fin 0, start)]; came_from := ∅;
     g_score := <[start := Fin 0]> ((fun _ => Inf) <$> graph);
     f_score := <[start := Fin 0]> ((fun _ => Inf) <$> graph) |}.

(** The invariant does not read [f_score]. *)
Lemma astar_inv_f pend closed st f :
  astar_inv pend closed st →
  astar_inv pend closed
    {| open_set := open_set st; came_from := came_from st;
       g_score := g_score st; f_score := f |}.
Proof. intros []. by constructor. Qed.

Lemma astar_inv_init : astar_inv [] [] astar_init.
Proof.
  constructor; unfold seen; cbn.
  - apply NoDup_singleton.
  - intros x [?%elem_of_nil|[?%elem_of_nil| ->%list_elem_of_singleton]]; [done..|].
    apply list_elem_of_lookup. eauto.
  - right. right. by apply list_elem_of_singleton.
  - split; apply not_elem_of_nil.
  - intros i x Hi [?%elem_of_nil|[?%elem_of_nil| ->%list_elem_of_singleton]];
      [done..|].
    assert (i = s) as -> by (by eapply index_unique).
    exists 0%Q. split; [apply lookup_insert_eq|].
    unfold dist. rewrite Z.sub_diag. change (inject_Z (Z.abs 0)) with 0%Q. ring.
  - intros x [i Hi]%list_elem_of_lookup Hx.
    rewrite lookup_insert_ne.
    + rewrite lookup_fmap. destruct (pc_adj _ _ _ _ Hpc i x Hi) as (adj & -> & _).
      done.
    + intros <-. apply Hx. right. right. by apply list_elem_of_singleton.
  - intros i x Hi [?%elem_of_nil|[?%elem_of_nil| ->%list_elem_of_singleton]];
      [done..|].
    intros Hne. destruct Hne. by eapply index_unique.
  - intros x _. apply lookup_empty.
  - intros i x nb _ ?%elem_of_nil. done.
Qed.

(** Taking a node other than the goal out of the queue. *)
Lemma astar_inv_pop closed st f cur rest :
  astar_inv [] closed st →
  heappop (open_set st) = Some ((f, cur), rest) →
  cur ≠ goal →
  astar_inv [cur] closed
    {| open_set := rest; came_from := came_from st;
       g_score := g_score st; f_score := f_score st |}.
Proof.
  intros [] Hpop%heappop_perm Hcur.
  assert (Hperm : map snd (open_set st) ≡ₚ cur :: map snd rest).
  { by rewrite Hpop. }
  assert (Hseen : ∀ x,
    seen [cur] closed {| open_set := rest; came_from := came_from st;
       g_score := g_score st; f_score := f_score st |} x
    ↔ seen [] closed st x).
  { intros x. unfold seen. cbn [open_set].
    rewrite Hperm, !elem_of_cons, !elem_of_nil. tauto. }
  constructor; cbn [open_set came_from g_score f_score].
  - cbn in inv_nodup0. rewrite Hperm in inv_nodup0.
    cbn. eapply NoDup_Permutation_proper; [|exact inv_nodup0].
    by rewrite Permutation_middle.
  - intros x Hx%Hseen. auto.
  - by apply Hseen.
  - split; [|apply inv_goal0]. by intros ->%list_elem_of_singleton.
  - intros i x Hi Hx%Hseen. eauto.
  - intros x Hx Hn. apply inv_g_unseen0; [done|]. by rewrite <- Hseen.
  - intros i x Hi Hx%Hseen Hne.
    destruct (inv_from0 i x Hi Hx Hne) as (y & ? & ? & [?%elem_of_nil|?]);
      [done|]. eauto.
  - intros x [Hx| ->]; apply inv_from_none0; [|by right]. left.
    by rewrite <- Hseen.
  - intros i x nb Hi Hx Hnb. apply Hseen. eauto.
Qed.

(** The node expanded joins the closed ones once all its neighbours
    are seen. *)
Lemma astar_inv_close closed st c cur :
  astar_inv [cur] closed st →
  ids !! c = Some cur →
  (∀ nb, nb ∈ path_neighbours ids w c → seen [cur] closed st (fst nb)) →
  astar_inv [] (cur :: closed) st.
Proof.
  intros [] Hc Hnb.
  assert (Hseen : ∀ x, seen [] (cur :: closed) st x ↔ seen [cur] closed st x).
  { intros x. unfold seen. rewrite !elem_of_cons, !elem_of_nil. tauto. }
  constructor.
  - done.
  - intros x Hx%Hseen. auto.
  - by apply Hseen.
  - split; [apply not_elem_of_nil|]. destruct inv_goal0 as [Hg1 Hg2].
    intros [->|?]%elem_of_cons; [|done]. apply Hg1. by apply list_elem_of_singleton.
  - intros i x Hi Hx%Hseen. eauto.
  - intros x Hx Hn. apply inv_g_unseen0; [done|]. by rewrite <- Hseen.
  - intros i x Hi Hx%Hseen Hne.
    destruct (inv_from0 i x Hi Hx Hne) as (y & ? & ? & [->%list_elem_of_singleton|?]).
    + exists cur. split_and!; [done..|]. right. by left.
    + exists y. split_and!; [done..|]. right. by right.
  - intros x [Hx| ->]; apply inv_from_none0; [|by right]. left.
    by rewrite <- Hseen.
  - intros i x nb Hi [->|Hx]%elem_of_cons Hin; apply Hseen.
    + assert (i = c) as -> by (by eapply index_unique). by apply Hnb.
    + eauto.
Qed.

Lemma seen_app pend closed st x :
  seen pend closed st x ↔ x ∈ pend ++ closed ++ map snd (open_set st).
Proof. unfold seen. by rewrite !elem_of_app. Qed.

(** A neighbour that is not seen yet lies one edge further from the
    start than the node expanded. *)
Lemma unseen_neighbour_further closed st c cur j nb :
  astar_inv [cur] closed st →
  ids !! c = Some cur → ids !! j = Some nb → S j = c ∨ j = S c →
  ¬ seen [cur] closed st nb →
  dist j = dist c + 1 ∧ toward j = c.
Proof.
  intros Hinv Hc Hj Hadj Hun.
  destruct (decide (c = s)) as [->|Hcs].
  - unfold dist, toward. destruct (Nat.ltb_spec s j); lia.
  - destruct (inv_from _ _ _ Hinv c cur Hc) as (y & Hy & _ & Hpop);
      [left; by apply list_elem_of_singleton|done|].
    assert (j ≠ toward c) as Hne.
    { intros ->. assert (nb = y) as -> by congruence.
      apply Hun. unfold seen. tauto. }
    unfold dist, toward in *.
    destruct (Nat.ltb_spec s c), (Nat.ltb_spec s j); lia.
Qed.

(** One round of the loop over the neighbours. *)
Lemma relax_inv closed st c cur nb d :
  astar_inv [cur] closed st →
  ids !! c = Some cur →
  (nb, d) ∈ path_neighbours ids w c →
  ∃ st', relax nodes goal cur (nb, d) st = Return st'
         ∧ astar_inv [cur] closed st'
         ∧ seen [cur] closed st' nb
         ∧ (∀ x, seen [cur] closed st x → seen [cur] closed st' x).
Proof.
  intros Hinv Hc (-> & j & Hj & Hadj)%path_neighbours_elem.
  assert (seen [cur] closed st cur) as Hcur.
  { left. by apply list_elem_of_singleton. }
  destruct (inv_g_seen _ _ _ Hinv c cur Hc Hcur) as (q & Hq & Hqe).
  assert (nb ∈ ids) as Hnb by (apply list_elem_of_lookup; eauto).
  unfold relax, getitem. rewrite Hq. cbn [mbind outcome_bind num_add].
  destruct (decide (nb ∈ [cur] ++ closed ++ map snd (open_set st)))
    as [Hseen%seen_app|Hun].
  - destruct (inv_g_seen _ _ _ Hinv j nb Hj Hseen) as (q' & -> & Hqe').
    cbn [mbind outcome_bind num_ltb].
    assert (Qltb (q + w) q' = false) as ->.
    { apply Qltb_ge. rewrite Hqe', Hqe, <- scaled_succ.
      apply scaled_le; [|done]. unfold dist. lia. }
    exists st. done.
  - rewrite <- seen_app in Hun.
    rewrite (inv_g_unseen _ _ _ Hinv nb Hnb Hun).
    cbn [mbind outcome_bind num_ltb].
    destruct (pc_nodes _ _ _ _ Hpc nb Hnb) as [d1 Hd1].
    destruct Hgoal as [d2 Hd2].
    unfold _heuristic, nodes_getitem. rewrite Hd1, Hd2.
    cbn [mbind outcome_bind].
    assert (existsb (Z.eqb nb) (map snd (open_set st)) = false) as ->.
    { apply not_true_is_false. intros (x & Hx & ->%Z.eqb_eq)%existsb_exists.
      apply Hun. right. right. by apply list_elem_of_In. }
    cbn [negb]. eexists. split; [done|].
    destruct (unseen_neighbour_further _ _ _ _ _ _ Hinv Hc Hj Hadj Hun)
      as [Hdist Htow].
    assert (nb ≠ cur) as Hnc by (intros ->; done).
    match goal with |- astar_inv _ _ ?st' ∧ _ => set (st1 := st') end.
    assert (Hseen' : ∀ x, seen [cur] closed st1 x ↔ seen [cur] closed st x ∨ x = nb).
    { intros x. unfold seen, st1, heappush. cbn [open_set].
      rewrite map_app, elem_of_app. cbn [map snd].
      rewrite !list_elem_of_singleton. tauto. }
    split_and!.
    + destruct Hinv. constructor.
      * unfold st1, heappush. cbn [open_set]. rewrite map_app. cbn [map snd].
        rewrite !app_assoc. apply NoDup_app. split_and!.
        -- by rewrite <- !app_assoc.
        -- intros x Hx ->%list_elem_of_singleton. apply Hun, seen_app.
           by rewrite <- !app_assoc in Hx.
        -- apply NoDup_singleton.
      * intros x [Hx| ->]%Hseen'; auto.
      * apply Hseen'. by left.
      * done.
      * intros i x Hi [Hx| ->]%Hseen'.
        -- destruct (inv_g_seen0 i x Hi Hx) as (q0 & Hq0 & Hqe0).
           exists q0. split; [|done]. unfold st1. cbn [g_score].
           rewrite lookup_insert_ne; [done|]. by intros ->.
        -- assert (i = j) as -> by (by eapply index_unique).
           exists (q + w)%Q. split; [apply lookup_insert_eq|].
           by rewrite Hdist, scaled_succ, Hqe.
      * intros x Hx Hn. unfold st1. cbn [g_score].
        rewrite lookup_insert_ne.
        -- apply inv_g_unseen0; [done|]. intros ?. apply Hn, Hseen'. by left.
        -- intros ->. apply Hn, Hseen'. by right.
      * intros i x Hi [Hx| ->]%Hseen' Hne.
        -- destruct (inv_from0 i x Hi Hx Hne) as (y & ? & ? & ?).
           exists y. split_and!; [done| |done]. unfold st1. cbn [came_from].
           rewrite lookup_insert_ne; [done|]. by intros ->.
        -- assert (i = j) as -> by (by eapply index_unique).
           exists cur. rewrite Htow. split_and!; [done| |].
           ++ apply lookup_insert_eq.
           ++ left. by apply list_elem_of_singleton.
      * intros x Hx. unfold st1. cbn [came_from].
        rewrite lookup_insert_ne.
        -- apply inv_from_none0. destruct Hx as [Hx|Hx]; [|by right].
           left. intros ?. apply Hx, Hseen'. by left.
        -- intros ->. destruct Hx as [Hx| ->]; [apply Hx, Hseen'; by right|].
           done.
      * intros i x nb' Hi Hx Hin. apply Hseen'. left. eauto.
    + apply Hseen'. by right.
    + intros x Hx. apply Hseen'. by left.
Qed.

(** The loop over the adjacency list of the node expanded. *)
Lemma relax_all_inv closed c cur adj : ∀ st,
  astar_inv [cur] closed st →
  ids !! c = Some cur →
  (∀ e, e ∈ adj → e ∈ path_neighbours ids w c) →
  ∃ st', for_each (relax nodes goal cur) adj st = Return st'
         ∧ astar_inv [cur] closed st'
         ∧ (∀ e, e ∈ adj → seen [cur] closed st' (fst e))
         ∧ (∀ x, seen [cur] closed st x → seen [cur] closed st' x).
Proof.
  induction adj as [|[nb d] adj IH]; intros st Hinv Hc Hadj.
  - exists st. split_and!; [done..| |done]. by intros e ?%elem_of_nil.
  - destruct (relax_inv closed st c cur nb d Hinv Hc) as (st1 & Hr & Hinv1 & Hnb & Hmono1).
    { apply Hadj. by left. }
    destruct (IH st1 Hinv1 Hc) as (st' & Hrun & Hinv' & Hall & Hmono).
    { intros e He. apply Hadj. by right. }
    exists st'. cbn [for_each]. rewrite Hr. cbn [mbind outcome_bind].
    split_and!; [done..| |by auto].
    intros e [->|He]%elem_of_cons; [|by auto]. by apply Hmono.
Qed.

Lemma closed_length closed st :
  astar_inv [] closed st → (length closed ≤ length ids)%nat.
Proof.
  intros Hinv. apply submseteq_length, NoDup_submseteq.
  - pose proof (inv_nodup _ _ _ Hinv) as Hnd. cbn in Hnd.
    by apply NoDup_app in Hnd as (? & _).
  - intros x Hx. apply (inv_ids _ _ _ Hinv). unfold seen. tauto.
Qed.

(** When the queue is empty every node of the path has been expanded. *)
Lemma closed_all closed st :
  astar_inv [] closed st → open_set st = [] →
  ∀ d i x, Z.of_nat d = dist i → ids !! i = Some x → x ∈ closed.
Proof.
  intros Hinv Hopen.
  assert (Hseen : ∀ x, seen [] closed st x → x ∈ closed).
  { intros x. unfold seen. rewrite Hopen. cbn.
    intros [?%elem_of_nil|[?|?%elem_of_nil]]; done. }
  induction d as [|d IH]; intros i x Hd Hi.
  - assert (i = s) as -> by (unfold dist in Hd; lia).
    assert (x = start) as -> by congruence.
    apply Hseen, (inv_start _ _ _ Hinv).
  - pose proof (lookup_lt_Some _ _ _ Hi) as Hlen.
    pose proof (lookup_lt_Some _ _ _ Hs) as Hlens.
    assert (toward i < length ids)%nat as Hj.
    { unfold toward, dist in *. destruct (Nat.ltb_spec s i); lia. }
    apply lookup_lt_is_Some in Hj as [y Hy].
    assert (y ∈ closed) as Hyc.
    { apply (IH (toward i)); [|done].
      unfold toward, dist in *. destruct (Nat.ltb_spec s i); lia. }
    apply Hseen.
    apply (inv_closed _ _ _ Hinv (toward i) y (x, w) Hy Hyc).
    apply path_neighbours_elem. split; [done|]. exists i. split; [done|].
    unfold toward, dist in *. destruct (Nat.ltb_spec s i); lia.
Qed.

(** The index [m] steps from [i] towards the start. *)
Definition back (i m : nat) : nat := if (s <? i)%nat then (i - m)%nat else (i + m)%nat.

(** Walking [came_from] from a seen node leads to the start, along the
    path. *)
Lemma reconstruct_loop_chain pend closed st :
  astar_inv pend closed st →
  ∀ d i x acc fuel,
    Z.of_nat d = dist i → ids !! i = Some x → seen pend closed st x →
    (d < fuel)%nat →
    ∃ tail, reconstruct_loop fuel (came_from st) x acc = Return (acc ++ tail)
            ∧ length tail = d
            ∧ ∀ k, (k < d)%nat → tail !! k = ids !! back i (S k).
Proof.
  intros Hinv. induction d as [|d IH]; intros i x acc fuel Hd Hi Hx Hfuel;
    (destruct fuel as [|fuel]; [lia|]); cbn [reconstruct_loop].
  - assert (i = s) as -> by (unfold dist in Hd; lia).
    assert (x = start) as -> by congruence.
    rewrite (inv_from_none _ _ _ Hinv start) by (by right).
    exists []. rewrite app_nil_r. split_and!; [done..|]. intros k ?. lia.
  - assert (i ≠ s) as Hne by (unfold dist in Hd; lia).
    destruct (inv_from _ _ _ Hinv i x Hi Hx Hne) as (y & Hy & -> & Hpop).
    destruct (IH (toward i) y (acc ++ [y]) fuel) as (tail & -> & Hlen & Htail).
    { unfold toward, dist in *. destruct (Nat.ltb_spec s i); lia. }
    { done. }
    { unfold seen. tauto. }
    { lia. }
    exists (y :: tail). split_and!.
    + by rewrite <- app_assoc.
    + cbn. lia.
    + intros [|k] Hk; cbn.
      * rewrite <- Hy. f_equal. unfold back, toward.
        destruct (Nat.ltb_spec s i); lia.
      * rewrite Htail by lia. f_equal. unfold back, toward, dist in *.
        destruct (Nat.ltb_spec s i), (Nat.ltb_spec s (pred i)),
          (Nat.ltb_spec s (S i)); lia.
Qed.

(** The path that [_reconstruct_path] returns for the goal at index
    [t]. *)
Lemma reconstruct_path_route pend closed st t fuel :
  astar_inv pend closed st →
  ids !! t = Some goal → seen pend closed st goal →
  (length ids ≤ fuel)%nat →
  ∃ path, _reconstruct_path fuel (came_from st) goal = Return path
          ∧ is_route ids s t path.
Proof.
  intros Hinv Ht Hseen Hfuel.
  pose proof (lookup_lt_Some _ _ _ Ht) as Hlt.
  pose proof (lookup_lt_Some _ _ _ Hs) as Hls.
  set (d := Z.abs_nat (Z.of_nat t - Z.of_nat s)).
  destruct (reconstruct_loop_chain pend closed st Hinv d t goal [goal] fuel)
    as (tail & Hrun & Hlen & Htail); [unfold dist; lia|done|done|lia|].
  unfold _reconstruct_path. rewrite Hrun. cbn [mbind outcome_bind].
  eexists. split; [done|]. fold d. split.
  - rewrite length_rev, length_app. cbn. lia.
  - intros k Hk. rewrite rev_alt. change (rev_append ?l []) with (reverse l).
    rewrite reverse_lookup by (rewrite length_app; cbn; lia).
    rewrite length_app, Hlen. cbn [length app].
    replace (1 + d - S k)%nat with (d - k)%nat by lia.
    destruct (decide (k = d)) as [->|Hkd].
    + rewrite Nat.sub_diag. cbn. rewrite <- Ht. f_equal.
      destruct (Nat.leb_spec s t); lia.
    + destruct (d - k)%nat as [|m] eqn:Hm; [lia|]. cbn.
      rewrite Htail by lia. f_equal. unfold back.
      destruct (Nat.leb_spec s t), (Nat.ltb_spec s t); lia.
Qed.

(** The search loop: it finds the route to a goal on the path and
    answers [None] for a goal that is not on it. *)
Lemma astar_loop_result : ∀ k closed st fuel,
  astar_inv [] closed st →
  (length ids - length closed < k)%nat →
  (k + length ids ≤ fuel)%nat →
  (∀ t, ids !! t = Some goal →
     ∃ path, astar_loop fuel graph nodes goal st = Return (Some path)
             ∧ is_route ids s t path)
  ∧ (goal ∉ ids → astar_loop fuel graph nodes goal st = Return None).
Proof.
  induction k as [|k IH]; intros closed st fuel Hinv Hk Hfuel; [lia|].
  destruct fuel as [|fuel]; [lia|].
  cbn [astar_loop].
  destruct (heappop (open_set st)) as [[[f cur] rest]|] eqn:Hpop.
  - pose proof (heappop_perm _ _ _ Hpop) as Hperm.
    assert (seen [] closed st cur) as Hcur.
    { right. right. rewrite Hperm. cbn. by left. }
    pose proof (inv_ids _ _ _ Hinv cur Hcur) as [c Hc]%list_elem_of_lookup.
    destruct (Z.eqb_spec cur goal) as [->|Hne].
    + split.
      * intros t Ht.
        destruct (reconstruct_path_route [] closed st t (S fuel) Hinv Ht Hcur)
          as (path & -> & Hroute); [lia|].
        exists path. done.
      * intros Hg. destruct Hg. apply list_elem_of_lookup. eauto.
    + pose proof (astar_inv_pop closed st f cur rest Hinv Hpop Hne) as Hinv1.
      destruct (pc_adj _ _ _ _ Hpc c cur Hc) as (adj & Hadj & Hp).
      unfold getitem. rewrite Hadj. cbn [mbind outcome_bind].
      destruct (relax_all_inv closed c cur adj _ Hinv1 Hc)
        as (st' & -> & Hinv' & Hall & _).
      { intros e He. by rewrite <- Hp. }
      cbn [mbind outcome_bind].
      assert (astar_inv [] (cur :: closed) st') as Hinv2.
      { eapply astar_inv_close; [done..|]. intros nb Hnb. apply Hall.
        by rewrite Hp. }
      pose proof (closed_length _ _ Hinv2) as Hlen. cbn [length] in Hlen.
      apply (IH (cur :: closed) st'); [done|cbn [length]; lia|lia].
  - apply heappop_none in Hpop. split; [|done].
    intros t Ht. exfalso.
    apply (proj2 (inv_goal _ _ _ Hinv)).
    apply (closed_all closed st Hinv Hpop
             (Z.abs_nat (Z.of_nat t - Z.of_nat s)) t goal); [|done].
    unfold dist. lia.
Qed.

(** [_astar] from the start of the section. *)
Lemma astar_result fuel :
  (2 * length ids < fuel)%nat →
  (∀ t, ids !! t = Some goal →
     ∃ path, _astar fuel graph nodes start goal = Return (Some path)
             ∧ is_route ids s t path)
  ∧ (goal ∉ ids → _astar fuel graph nodes start goal = Return None).
Proof.
  intros Hfuel. unfold _astar, _heuristic, nodes_getitem.
  destruct (pc_nodes _ _ _ _ Hpc start) as [d1 ->].
  { apply list_elem_of_lookup. eauto. }
  destruct Hgoal as [d2 ->]. cbn [mbind outcome_bind].
  apply (astar_loop_result (S (length ids)) []).
  - apply (astar_inv_f [] [] astar_init), astar_inv_init.
  - cbn. lia.
  - lia.
Qed.
End PathGraph.

(** C2. On a valid path graph (the node at index [i] of [ids] has
    position index [i], consecutive nodes are joined in both directions,
    all edges have the same weight [w ≥ 0]), for every start and goal on
    it, [_astar] returns, given enough fuel, the route from the start to
    the goal: its length is the absolute difference of the two position
    indices plus 1, and the position index goes up by one at every step
    when the goal is not before the start, down by one otherwise. For a
    goal that has node data but is not on the path of the start, the queue
    runs empty and the answer is [None]; in general, the loop answers
    [None] as soon as it finds the queue empty. *)
Theorem astar_on_path_graph (ids : list Z) (w : Q) (nodes : pydict NodeData)
    (graph : gmap Z (list (Z * Q))) (s t : nat) (start goal : Z) :
  is_path_graph ids w nodes graph → (0 <= w)%Q →
  ids !! s = Some start → ids !! t = Some goal →
  (∃ path,
     (∀ fuel, (2 * length ids < fuel)%nat →
        _astar fuel graph nodes start goal = Return (Some path))
     ∧ Z.of_nat (length path) =
         Z.abs (position_of nodes goal - position_of nodes start) + 1
     ∧ is_route ids s t path
     ∧ (∀ k x y, path !! k = Some x → path !! S k = Some y →
          position_of nodes y =
            position_of nodes x + (if (s <=? t)%nat then 1 else -1)))
  ∧ (∀ goal', is_Some (dict_get nodes goal') → goal' ∉ ids →
       ∀ fuel, (2 * length ids < fuel)%nat →
         _astar fuel graph nodes start goal' = Return None)
  ∧ (∀ fuel goal' st, open_set st = [] →
       astar_loop (S fuel) graph nodes goal' st = Return None).
Proof.
  intros [Hpc Hpos] Hw Hs Ht. split_and!.
  - assert (is_Some (dict_get nodes goal)) as Hgoal.
    { apply (pc_nodes _ _ _ _ Hpc). apply list_elem_of_lookup. eauto. }
    destruct (astar_result ids w nodes graph start goal s Hpc Hw Hs Hgoal
                (S (2 * length ids)) ltac:(lia)) as [Hfound _].
    destruct (Hfound t Ht) as (path & _ & Hroute).
    exists path. split_and!.
    + intros fuel Hfuel.
      destruct (astar_result ids w nodes graph start goal s Hpc Hw Hs Hgoal
                  fuel Hfuel) as [Hfound' _].
      destruct (Hfound' t Ht) as (path' & -> & Hroute').
      by rewrite (is_route_unique _ _ _ _ _ Hroute Hroute').
    + destruct Hroute as [-> _]. rewrite (Hpos _ _ Hs), (Hpos _ _ Ht). lia.
    + done.
    + intros k x y Hx Hy. destruct Hroute as [Hlen Hr].
      pose proof (lookup_lt_Some _ _ _ Hy) as Hk. rewrite Hlen in Hk.
      rewrite Hr in Hx by lia. rewrite Hr in Hy by lia.
      rewrite (Hpos _ _ Hx), (Hpos _ _ Hy).
      destruct (Nat.leb_spec s t); lia.
  - intros goal' Hgoal' Hout fuel Hfuel.
    by apply (astar_result ids w nodes graph start goal' s Hpc Hw Hs Hgoal' fuel Hfuel).
  - intros fuel goal' st Hopen. cbn [astar_loop]. by rewrite Hopen.
Qed.

(* ===================================================================== *)
(** * Part III: the properties at work on the mapped kitchen               *)
(* ===================================================================== *)

(** A live frame that shows the second landmark is located there, with
    all its 60 keypoints matched. *)
Lemma localize_returns_first_best_witness :
  localize demo_extract bf_match_crosscheck (db demo_world)
    (demo_frame 60 (demo_base 1)) "kitchen" = (Some 2, 60, Some 1).
Proof.
  destruct (localize_returns_first_best demo_extract bf_match_crosscheck
              (db demo_world) (demo_frame 60 (demo_base 1)) "kitchen"
              (fst (demo_frame 60 (demo_base 1)))
              (map (fun i => (demo_base 1 + N.of_nat i)%N) (seq 0 60))
              eq_refl ltac:(vm_compute; discriminate)) as (Hhigh & _).
  refine (Hhigh 1%nat
            {| fd_id := 2; fd_sequence := 1;
               fd_path := "data/saved_frames/1_1.jpg";
               fd_keypoints := repeat demo_keypoint 60;
               fd_descriptors :=
                 Some (map (fun i => (demo_base 1 + N.of_nat i)%N) (seq 0 60)) |}
            60 _ ltac:(lia)).
  split_and!.
  - vm_compute. reflexivity.
  - vm_compute. reflexivity.
  - intros j g sc Hj Hg Hsc. destruct j as [|j]; [|lia].
    vm_compute in Hg. injection Hg as <-.
    vm_compute in Hsc. injection Hsc as <-. lia.
  - intros j g sc Hg Hsc. destruct j as [|[|[|j]]]; vm_compute in Hg;
      [..|discriminate]; injection Hg as <-;
      vm_compute in Hsc; injection Hsc as <-; lia.
Defined.

(** A live frame with 9 keypoints is not located. *)
Lemma localize_sentinel_witness :
  localize demo_extract bf_match_crosscheck (db demo_world)
    (demo_frame 9 (demo_base 1)) "kitchen" = (None, 0, None).
Proof.
  apply localize_sentinel. right. left. vm_compute. reflexivity.
Defined.

(** The route from the first to the last node of the kitchen. *)
Lemma demo_is_path_graph : is_path_graph [1; 2; 3] (7 # 10) demo_nodes demo_graph.
Proof.
  split; [constructor|].
  - repeat (apply NoDup_cons; split;
            [rewrite ?elem_of_cons, elem_of_nil; lia|]). apply NoDup_nil_2.
  - intros x Hx. rewrite !elem_of_cons, elem_of_nil in Hx.
    destruct Hx as [->|[->|[->|[]]]]; vm_compute; eauto.
  - intros i x Hi. destruct i as [|[|[|i]]]; cbn in Hi; [..|discriminate];
      injection Hi as <-; eexists; (split; [vm_compute; reflexivity|reflexivity]).
  - intros i x Hi. destruct i as [|[|[|i]]]; cbn in Hi; [..|discriminate];
      injection Hi as <-; vm_compute; reflexivity.
Defined.

Lemma astar_on_path_graph_witness :
  _astar 1000 demo_graph demo_nodes 1 3 = Return (Some [1; 2; 3])
  ∧ _astar 1000 demo_graph demo_nodes 3 1 = Return (Some [3; 2; 1]).
Proof.
  split.
  - destruct (astar_on_path_graph [1; 2; 3] (7 # 10) demo_nodes demo_graph
                0 2 1 3 demo_is_path_graph ltac:(vm_compute; discriminate)
                eq_refl eq_refl) as ((path & Hrun & _) & _).
    pose proof (Hrun 7%nat ltac:(cbn; lia)) as H7.
    vm_compute in H7. injection H7 as <-. apply Hrun. cbn. lia.
  - destruct (astar_on_path_graph [1; 2; 3] (7 # 10) demo_nodes demo_graph
                2 0 3 1 demo_is_path_graph ltac:(vm_compute; discriminate)
                eq_refl eq_refl) as ((path & Hrun & _) & _).
    pose proof (Hrun 7%nat ltac:(cbn; lia)) as H7.
    vm_compute in H7. injection H7 as <-. apply Hrun. cbn. lia.
Defined.

(** Stopping the trip under way. *)
Lemma stop_navigation_effect_witness :
  let '(r, w') := stop_navigation demo_underway in
  status r = "success"%string
  ∧ mode (app_state w') = idle
  ∧ current_path (navigator w') = []
  ∧ destination (app_state w') = None
  ∧ current_step (navigator w') = current_step (navigator demo_underway).
Proof.
  apply (proj1 (stop_navigation_effect demo_underway)). reflexivity.
Defined.

(** C5, as the claim states it, fails: the step index of the trip under
    way is 2 before the stop and still 2 after it. *)
Lemma stop_navigation_keeps_step :
  ¬ (∀ w, mode (app_state w) = navigating →
       mode (app_state (snd (stop_navigation w))) = idle
       ∧ current_path (navigator (snd (stop_navigation w))) = []
       ∧ current_step (navigator (snd (stop_navigation w))) = 0
       ∧ destination (app_state (snd (stop_navigation w))) = None).
Proof.
  intros H. destruct (H demo_underway eq_refl) as (_ & _ & Hstep & _).
  vm_compute in Hstep. discriminate.
Qed.

(** There is no garage in the store. *)
Lemma start_navigation_not_found_witness :
  let '(r, w') := start_navigation (Some "garage"%string) demo_world in
  status r = "error"%string ∧ message r = "Location not found"%string
  ∧ app_state w' = app_state demo_world ∧ navigator w' = navigator demo_world
  ∧ db w' = db demo_world ∧ threads w' = threads demo_world
  ∧ mode (app_state w') = idle.
Proof.
  assert ("garage"%string ∉ get_all_locations (db demo_world)) as Hd.
  { rewrite list_elem_of_In. vm_compute. intros [H|[]]. discriminate. }
  pose proof (start_navigation_not_found demo_world "garage" Hd) as H.
  destruct (start_navigation (Some "garage"%string) demo_world) as [r w'].
  destruct H as (H1 & H2 & H3 & H4 & H5 & H6 & H7).
  split_and!; [done..|]. by apply H7.
Defined.

(** The instructions along the route of three nodes. *)
Lemma get_next_instruction_by_step_witness :
  get_next_instruction {| current_path := [1; 2; 3]; current_step := 2 |}
    demo_nodes = Return "Destination reached"%string
  ∧ get_next_instruction {| current_path := [1; 2; 3]; current_step := 1 |}
      demo_nodes = Return "Continue forward 0.7 meters"%string.
Proof.
  split.
  - apply (get_next_instruction_by_step
             {| current_path := [1; 2; 3]; current_step := 2 |} demo_nodes);
      [cbn; lia|reflexivity].
  - apply (get_next_instruction_by_step
             {| current_path := [1; 2; 3]; current_step := 1 |} demo_nodes);
      cbn; lia.
Defined.



(** Planning the route to the end of the kitchen from its first node. *)
Lemma plan_route_atomic_witness :
  plan_route 10 (db demo_world) Navigator_init "kitchen" 1 None =
    (Return (Some [1; 2; 3]), {| current_path := [1; 2; 3]; current_step := 0 |}).
Proof.
  destruct (plan_route_atomic 10 (db demo_world) Navigator_init "kitchen" 1 None)
    as (_ & _ & H & _).
  apply (H [1; 2; 3]).
  - vm_compute. discriminate.
  - vm_compute. reflexivity.
Defined.

(* ===================================================================== *)
(** * Part IV: further properties of the store                            *)
(* ===================================================================== *)

(** ** The order of the answers *)

Lemma insert_by_perm {A} (key : A → Z) (x : A) (l : list A) :
  insert_by key x l ≡ₚ x :: l.
Proof.
  induction l as [|y l IH]; [done|]. cbn.
  destruct (key x <=? key y); [done|]. rewrite IH. apply perm_swap.
Qed.

Lemma sort_by_perm {A} (key : A → Z) (l : list A) : sort_by key l ≡ₚ l.
Proof.
  induction l as [|x l IH]; [done|]. cbn.
  by rewrite insert_by_perm, IH.
Qed.

Lemma insert_by_sorted {A} (key : A → Z) (x : A) (l : list A) :
  StronglySorted (fun a b => key a ≤ key b) l →
  StronglySorted (fun a b => key a ≤ key b) (insert_by key x l).
Proof.
  induction 1 as [|y l Hs IH Hy]; cbn.
  - repeat constructor.
  - destruct (Z.leb_spec (key x) (key y)).
    + constructor; [by constructor|]. constructor; [done|].
      eapply Forall_impl; [exact Hy|]. cbn. intros. lia.
    + constructor; [done|]. rewrite insert_by_perm. constructor; [lia|done].
Qed.

Lemma sort_by_sorted {A} (key : A → Z) (l : list A) :
  StronglySorted (fun a b => key a ≤ key b) (sort_by key l).
Proof.
  induction l as [|x l IH]; cbn; [constructor|]. by apply insert_by_sorted.
Qed.

Lemma StronglySorted_weaken {A} (R R' : A → A → Prop) (l : list A) :
  (∀ a b, R a b → R' a b) → StronglySorted R l → StronglySorted R' l.
Proof.
  intros HR. induction 1 as [|x l Hs IH Hx]; constructor; [done|].
  eapply Forall_impl; [exact Hx|]. cbn. auto.
Qed.

(** A row that is not before any other stays last. *)
Lemma insert_by_last {A} (key : A → Z) (x y : A) (l : list A) :
  Forall (fun a => key a ≤ key y) (x :: l) →
  StronglySorted (fun a b => key a ≤ key b) l →
  insert_by key x (l ++ [y]) = insert_by key x l ++ [y].
Proof.
  intros Hle _. induction l as [|z l IH]; cbn.
  - apply Forall_cons in Hle as [Hx _].
    by destruct (Z.leb_spec (key x) (key y)); [|lia].
  - destruct (key x <=? key z); [done|]. cbn. f_equal. apply IH.
    apply Forall_cons in Hle as [Hx Hl]. apply Forall_cons in Hl as [_ Hl].
    by constructor.
Qed.

Lemma sort_by_cons {A} (key : A → Z) (x : A) (l : list A) :
  sort_by key (x :: l) = insert_by key x (sort_by key l).
Proof. done. Qed.

Lemma sort_by_snoc {A} (key : A → Z) (y : A) (l : list A) :
  Forall (fun a => key a ≤ key y) l →
  sort_by key (l ++ [y]) = sort_by key l ++ [y].
Proof.
  induction l as [|x l IH]; intros Hle; [done|].
  apply Forall_cons in Hle as [Hx Hl].
  rewrite <- app_comm_cons, !sort_by_cons, IH by done.
  apply insert_by_last; [|apply sort_by_sorted].
  constructor; [done|]. by rewrite sort_by_perm.
Qed.

Lemma find_app_none {A} (f : A → bool) (l k : list A) :
  List.find f l = None → List.find f (l ++ k) = List.find f k.
Proof.
  induction l as [|y l IH]; [done|]. cbn. by destruct (f y).
Qed.

(** X1. [save_location] is idempotent: for a name that is stored already it
    answers with the id of the stored row and leaves the store alone; for a
    new name it appends one row whose id is above all ids in use. Either
    way the name is found under the id afterwards, saving it again gives
    the same id and store, and frames, nodes and edges are untouched. *)
Theorem save_location_idempotent (now : Z) (name : string) (db : Database) :
  let id := fst (save_location now name db) in
  let db' := snd (save_location now name db) in
  (∃ l, find_location name db' = Some l ∧ loc_id l = id ∧ loc_name l = name)
  ∧ (∀ now', save_location now' name db' = (id, db'))
  ∧ (∀ l, find_location name db = Some l → id = loc_id l ∧ db' = db)
  ∧ (find_location name db = None →
       locations db' =
         locations db ++
           [{| loc_id := id; loc_name := name; loc_created_at := now |}]
       ∧ ∀ l, l ∈ locations db → loc_id l < id)
  ∧ frames db' = frames db ∧ graph_nodes db' = graph_nodes db
  ∧ graph_edges db' = graph_edges db.
Proof.
  assert (Hfind : find_location name db = None →
    find_location name
      {| locations := locations db ++
           [{| loc_id := lastrowid (map loc_id (locations db));
               loc_name := name; loc_created_at := now |}];
         frames := frames db; graph_nodes := graph_nodes db;
         graph_edges := graph_edges db |}
    = Some {| loc_id := lastrowid (map loc_id (locations db));
              loc_name := name; loc_created_at := now |}).
  { unfold find_location. cbn [locations]. intros Hn.
    rewrite find_app_none by done. cbn. by rewrite String.eqb_refl. }
  unfold save_location.
  destruct (find_location name db) as [l|] eqn:Hl; cbn [fst snd].
  - split_and!; try done.
    + exists l. split_and!; [done..|].
      apply find_some in Hl as [_ H]. by apply String.eqb_eq.
    + intros now'. by rewrite Hl.
    + by intros ? [= ->].
  - rewrite (Hfind eq_refl). split_and!; try done.
    + eauto.
    + intros _. split; [done|]. intros l Hin. apply lastrowid_gt.
      apply list_elem_of_fmap. eauto.
Qed.

(** The names and the ids of the locations are distinct: the [UNIQUE] and
    [PRIMARY KEY] constraints of the table. *)
Definition locations_unique (db : Database) : Prop :=
  NoDup (map loc_name (locations db)) ∧ NoDup (map loc_id (locations db)).

Lemma find_location_none name db :
  find_location name db = None ↔ name ∉ map loc_name (locations db).
Proof.
  unfold find_location. split.
  - intros Hn (l & Heq & Hin)%list_elem_of_fmap.
    pose proof (find_none _ _ Hn l (proj1 (list_elem_of_In _ _) Hin)) as H.
    cbn in H. by rewrite <- Heq, String.eqb_refl in H.
  - intros Hn. destruct (List.find _ _) as [l|] eqn:Hl; [|done].
    apply find_some in Hl as [Hin Heq%String.eqb_eq].
    destruct Hn. apply list_elem_of_fmap. exists l. split; [done|].
    by apply list_elem_of_In.
Qed.

Lemma save_location_unique now name db :
  locations_unique db → locations_unique (snd (save_location now name db)).
Proof.
  intros [Hn Hi]. unfold save_location.
  destruct (find_location name db) as [l|] eqn:Hl; [done|].
  apply find_location_none in Hl.
  split; cbn [snd locations]; rewrite map_app; cbn [map];
    apply NoDup_app; (split_and!; [done| |apply NoDup_singleton]).
  - by intros x Hx ->%list_elem_of_singleton.
  - intros x Hx Hx'%list_elem_of_singleton. subst x.
    apply lastrowid_gt in Hx. cbn in Hx. lia.
Qed.

(** With unique names, the join on the name selects the rows of one
    location id. *)
Lemma in_location_find name db l x :
  locations_unique db → find_location name db = Some l →
  in_location name x db = (loc_id l =? x).
Proof.
  intros [Hn _] Hl. unfold in_location.
  apply find_some in Hl as [Hin Hname%String.eqb_eq].
  destruct (Z.eqb_spec (loc_id l) x) as [<-|Hne].
  - apply existsb_exists. exists l. split; [done|].
    by rewrite Z.eqb_refl, Hname, String.eqb_refl.
  - apply not_true_is_false. intros (l' & Hin' & H)%existsb_exists.
    apply andb_true_iff in H as [Hid%Z.eqb_eq Hnm%String.eqb_eq].
    assert (l' = l) as ->; [|done].
    apply list_elem_of_In, list_elem_of_lookup in Hin as [i Hi].
    apply list_elem_of_In, list_elem_of_lookup in Hin' as [j Hj].
    assert (i = j) as ->; [|congruence].
    eapply NoDup_lookup; [exact Hn| |].
    + rewrite list_lookup_fmap, Hi. done.
    + rewrite list_lookup_fmap, Hj. cbn. congruence.
Qed.

Lemma in_location_none name db x :
  find_location name db = None → in_location name x db = false.
Proof.
  intros Hn. unfold in_location. apply not_true_is_false.
  intros (l & Hin & H)%existsb_exists.
  apply andb_true_iff in H as [_ Hnm].
  unfold find_location in Hn. by rewrite (find_none _ _ Hn l Hin) in Hnm.
Qed.

Lemma save_location_listed now name db :
  name ∈ get_all_locations (snd (save_location now name db)).
Proof.
  unfold get_all_locations. rewrite sort_by_perm.
  unfold save_location. destruct (find_location name db) as [l|] eqn:Hl.
  - cbn [snd]. apply find_some in Hl as [Hin Heq%String.eqb_eq].
    apply list_elem_of_fmap. exists l. split; [done|]. by apply list_elem_of_In.
  - cbn [snd locations]. rewrite map_app, elem_of_app. right.
    by apply list_elem_of_singleton.
Qed.

Lemma save_location_tables now name db :
  frames (snd (save_location now name db)) = frames db
  ∧ graph_nodes (snd (save_location now name db)) = graph_nodes db
  ∧ graph_edges (snd (save_location now name db)) = graph_edges db.
Proof.
  unfold save_location. by destruct (find_location name db).
Qed.

(** X2. [get_all_locations] lists every stored name, each as often as it
    is stored (once, names being unique), the newest first; after
    [save_location] the name saved is in the list and no name is lost. *)
Theorem get_all_locations_lists_all (now : Z) (name : string) (db : Database) :
  (∃ rows, get_all_locations db = map loc_name rows
           ∧ rows ≡ₚ locations db
           ∧ StronglySorted (fun a b => loc_created_at b ≤ loc_created_at a) rows)
  ∧ (locations_unique db → NoDup (get_all_locations db))
  ∧ name ∈ get_all_locations (snd (save_location now name db))
  ∧ (∀ n, n ∈ get_all_locations db →
          n ∈ get_all_locations (snd (save_location now name db))).
Proof.
  assert (Hperm : ∀ d, get_all_locations d ≡ₚ map loc_name (locations d)).
  { intros d. unfold get_all_locations. by rewrite sort_by_perm. }
  split_and!.
  - eexists. split; [done|]. split; [apply sort_by_perm|].
    eapply StronglySorted_weaken; [|apply sort_by_sorted]. cbn. intros. lia.
  - intros [Hn _]. by rewrite Hperm.
  - apply save_location_listed.
  - intros n. rewrite !Hperm. unfold save_location.
    destruct (find_location name db); [done|]. cbn [snd locations].
    rewrite map_app, elem_of_app. tauto.
Qed.

(** ** Frames in and out of the store *)

(** The row of [get_location_frames] for a row of the table. *)
Definition frame_data_of (f : FrameRow) : FrameData :=
  {| fd_id := frame_id f; fd_sequence := frame_sequence_number f;
     fd_path := frame_image_path f; fd_keypoints := frame_keypoints f;
     fd_descriptors := frame_descriptors f |}.

Lemma get_location_frames_eq name db :
  get_location_frames name db =
    map frame_data_of
      (sort_by frame_sequence_number
         (List.filter (fun f => in_location name (frame_location_id f) db)
                      (frames db))).
Proof. done. Qed.

(** What [save_frame] writes when it does not raise. *)
Lemma save_frame_returns location_id seq path kp desc db fid db' :
  save_frame location_id seq path kp desc db = Return (fid, db') →
  fid = lastrowid (map frame_id (frames db))
  ∧ locations db' = locations db
  ∧ frames db' = frames db ++
      [{| frame_id := fid; frame_location_id := location_id;
          frame_sequence_number := seq; frame_image_path := path;
          frame_keypoints := kp; frame_descriptors := desc |}]
  ∧ graph_nodes db' = graph_nodes db ++
      [{| node_id := lastrowid (map node_id (graph_nodes db));
          node_location_id := location_id; node_frame_id := fid;
          node_position_index := seq |}]
  ∧ ∃ links, graph_edges db' = graph_edges db ++ links.
Proof.
  unfold save_frame.
  match goal with |- context [mbind _ ?m] => destruct m as [es| |] eqn:Hes end;
    [|done..].
  cbn [mbind outcome_bind]. intros [= <- <-]. cbn. split_and!; [done..|].
  destruct (0 <? seq); [|injection Hes as <-; exists []; by rewrite app_nil_r].
  destruct (find_node _ _ _) as [prev|];
    [|injection Hes as <-; exists []; by rewrite app_nil_r].
  unfold insert_edge in Hes.
  destruct (edge_exists _ _ (graph_edges db)); [done|]. cbn in Hes.
  destruct (edge_exists _ _ _); [done|]. injection Hes as <-.
  eexists. by rewrite <- app_assoc.
Qed.

(** X3. [get_location_frames] returns the frames of the location and
    nothing else, in the order of their sequence numbers; for a name that
    is not stored it returns no frame, and [localize] then answers with the
    sentinel whatever the live frame shows. *)
Theorem get_location_frames_sorted {Image} (ef : Extractor Image)
    (matcher : Matcher) (frame : Image) (name : string) (db : Database) :
  (∃ rows, get_location_frames name db = map frame_data_of rows
           ∧ rows ≡ₚ List.filter
                       (fun f => in_location name (frame_location_id f) db)
                       (frames db)
           ∧ StronglySorted
               (fun a b => frame_sequence_number a ≤ frame_sequence_number b) rows)
  ∧ StronglySorted (fun a b => fd_sequence a ≤ fd_sequence b)
      (get_location_frames name db)
  ∧ (locations_unique db → ∀ l, find_location name db = Some l →
       ∀ g, g ∈ get_location_frames name db ↔
            ∃ f, f ∈ frames db ∧ frame_location_id f = loc_id l
                 ∧ g = frame_data_of f)
  ∧ (find_location name db = None →
       get_location_frames name db = []
       ∧ localize ef matcher db frame name = (None, 0, None)).
Proof.
  rewrite get_location_frames_eq. split_and!.
  - eexists. split; [done|]. split; [apply sort_by_perm|apply sort_by_sorted].
  - pose proof (sort_by_sorted frame_sequence_number
      (List.filter (fun f => in_location name (frame_location_id f) db)
         (frames db))) as Hs.
    induction Hs as [|x l Hs IH Hx]; cbn; constructor; [done|].
    apply Forall_forall. intros g (f & -> & Hf)%list_elem_of_fmap.
    rewrite Forall_forall in Hx. by apply Hx.
  - intros Hu l Hl g. rewrite list_elem_of_fmap. split.
    + intros (f & -> & Hf). exists f. rewrite sort_by_perm in Hf.
      apply list_elem_of_In, filter_In in Hf as [Hin Hloc].
      rewrite (in_location_find _ _ _ _ Hu Hl) in Hloc.
      apply Z.eqb_eq in Hloc. split_and!; [by apply list_elem_of_In|done..].
    + intros (f & Hin & Hloc & ->). exists f. split; [done|].
      rewrite sort_by_perm. apply list_elem_of_In, filter_In.
      split; [by apply list_elem_of_In|].
      rewrite (in_location_find _ _ _ _ Hu Hl). by apply Z.eqb_eq.
  - intros Hn.
    assert (List.filter (fun f => in_location name (frame_location_id f) db)
              (frames db) = []) as Hempty.
    { induction (frames db) as [|f l IH]; [done|]. cbn.
      by rewrite (in_location_none _ _ _ Hn). }
    rewrite Hempty. split; [done|].
    unfold localize. destruct (ef frame) as [kp [cd|]]; [|done].
    destruct (Z.of_nat (length kp) <? 10); [done|].
    by rewrite get_location_frames_eq, Hempty.
Qed.

(** X4. A frame that [save_frame] has written comes back from
    [get_location_frames] with the id returned, its sequence number and
    its features; it comes last when no frame of the location has a higher
    sequence number; the id is new; and the frames of the other locations
    are as before. *)
Theorem save_frame_then_get_location_frames
    (location_id seq : Z) (path : string) (kp : list KeyPoint)
    (desc : option Descriptors) (db db' : Database) (fid : Z)
    (name : string) (l : LocationRow) :
  locations_unique db →
  find_location name db = Some l → loc_id l = location_id →
  save_frame location_id seq path kp desc db = Return (fid, db') →
  let g := {| fd_id := fid; fd_sequence := seq; fd_path := path;
              fd_keypoints := kp; fd_descriptors := desc |} in
  get_location_frames name db' ≡ₚ get_location_frames name db ++ [g]
  ∧ (Forall (fun h => fd_sequence h ≤ seq) (get_location_frames name db) →
     get_location_frames name db' = get_location_frames name db ++ [g])
  ∧ (∀ h, h ∈ get_location_frames name db → fd_id h < fid)
  ∧ (∀ other l', find_location other db = Some l' → loc_id l' ≠ location_id →
       get_location_frames other db' = get_location_frames other db).
Proof.
  intros Hu Hl Hid Hsave g.
  destruct (save_frame_returns _ _ _ _ _ _ _ _ Hsave) as (Hfid & Hloc & Hfr & _).
  assert (Hu' : locations_unique db') by (unfold locations_unique; by rewrite Hloc).
  assert (Hfind : ∀ n, find_location n db' = find_location n db).
  { intros n. unfold find_location. by rewrite Hloc. }
  assert (Hin : ∀ n x, in_location n x db' = in_location n x db).
  { intros n x. unfold in_location. by rewrite Hloc. }
  assert (Hfilter : List.filter
            (fun f => in_location name (frame_location_id f) db') (frames db')
          = List.filter (fun f => in_location name (frame_location_id f) db)
              (frames db) ++
            [{| frame_id := fid; frame_location_id := location_id;
                frame_sequence_number := seq; frame_image_path := path;
                frame_keypoints := kp; frame_descriptors := desc |}]).
  { rewrite Hfr, List.filter_app. cbn [List.filter frame_location_id].
    rewrite Hin, (in_location_find _ _ _ _ Hu Hl), Hid, Z.eqb_refl.
    f_equal. apply filter_ext. intros f. by rewrite Hin. }
  rewrite !get_location_frames_eq, Hfilter. split_and!.
  - rewrite !sort_by_perm, map_app. done.
  - intros Hle. rewrite sort_by_snoc, map_app; [done|].
    rewrite Forall_forall in Hle. apply Forall_forall. intros f Hf.
    apply (Hle (frame_data_of f)). apply list_elem_of_fmap. exists f.
    split; [done|]. by rewrite sort_by_perm.
  - intros h (f & -> & Hf)%list_elem_of_fmap. rewrite sort_by_perm in Hf.
    apply list_elem_of_In, filter_In in Hf as [Hf _]. cbn. rewrite Hfid.
    apply lastrowid_gt, list_elem_of_fmap. exists f. split; [done|].
    by apply list_elem_of_In.
  - intros other l' Hl' Hne. rewrite !get_location_frames_eq. f_equal. f_equal.
    rewrite Hfr, List.filter_app. cbn [List.filter frame_location_id].
    rewrite Hin, (in_location_find _ _ _ _ Hu Hl').
    destruct (Z.eqb_spec (loc_id l') location_id); [done|].
    rewrite app_nil_r. apply filter_ext. intros f. by rewrite Hin.
Qed.

(** The first frame of the kitchen, saved and read back. *)
Definition demo_first_frame : FrameData :=
  {| fd_id := 1; fd_sequence := 0; fd_path := "data/saved_frames/1_0.jpg";
     fd_keypoints := fst (demo_frame 80 (demo_base 0));
     fd_descriptors := snd (demo_frame 80 (demo_base 0)) |}.

Definition saved_store (o : outcome (Z * Database)) (db : Database) : Database :=
  match o with
  | Return (_, db') => db'
  | _ => db
  end.

Definition demo_first_saved : Database :=
  saved_store
    (save_frame 1 0 "data/saved_frames/1_0.jpg"
       (fst (demo_frame 80 (demo_base 0))) (snd (demo_frame 80 (demo_base 0)))
       (db demo_mapping))
    (db demo_mapping).

Lemma save_frame_then_get_location_frames_witness :
  get_location_frames "kitchen" demo_first_saved = [demo_first_frame].
Proof.
  destruct (save_frame_then_get_location_frames 1 0 "data/saved_frames/1_0.jpg"
              (fst (demo_frame 80 (demo_base 0)))
              (snd (demo_frame 80 (demo_base 0)))
              (db demo_mapping) demo_first_saved 1 "kitchen"
              {| loc_id := 1; loc_name := "kitchen"; loc_created_at := 0 |})
    as (_ & Hlast & _).
  - split; apply NoDup_singleton.
  - reflexivity.
  - reflexivity.
  - vm_compute. reflexivity.
  - apply Hlast. vm_compute. constructor.
Defined.

(** ** The constraints of the schema *)

(** Unique location names and ids, unique frame and node ids, one edge per
    pair of nodes, every node on a stored frame and every edge between
    stored nodes. *)
Definition store_consistent (db : Database) : Prop :=
  locations_unique db
  ∧ NoDup (map frame_id (frames db))
  ∧ NoDup (map node_id (graph_nodes db))
  ∧ NoDup (map (fun e => (from_node e, to_node e)) (graph_edges db))
  ∧ (∀ n, n ∈ graph_nodes db → node_frame_id n ∈ map frame_id (frames db))
  ∧ (∀ e, e ∈ graph_edges db →
        from_node e ∈ map node_id (graph_nodes db)
        ∧ to_node e ∈ map node_id (graph_nodes db)).

Lemma store_consistent_closed db : store_consistent db → edges_closed db.
Proof.
  intros (_ & _ & _ & _ & _ & Hfk) e He.
  destruct (Hfk e He). split; by apply lastrowid_gt.
Qed.

Lemma NoDup_snoc_fresh (ids : list Z) :
  NoDup ids → NoDup (ids ++ [lastrowid ids]).
Proof.
  intros Hn. apply NoDup_app. split_and!; [done| |apply NoDup_singleton].
  intros x Hx Hx'%list_elem_of_singleton. subst x.
  apply lastrowid_gt in Hx. lia.
Qed.

(** X5. The constraints of the schema hold in the empty store and are
    kept by [save_location] and by [save_frame]; and in a store that has
    them [save_frame] never raises. *)
Theorem store_stays_consistent :
  store_consistent init_database
  ∧ (∀ now name db,
       store_consistent db → store_consistent (snd (save_location now name db)))
  ∧ (∀ location_id seq path kp desc db,
       store_consistent db →
       ∃ fid db', save_frame location_id seq path kp desc db = Return (fid, db')
                  ∧ store_consistent db').
Proof.
  split_and!.
  - unfold store_consistent, locations_unique. cbn.
    split_and!; try apply NoDup_nil_2; by intros ? ?%elem_of_nil.
  - intros now name db (Hu & Hf & Hn & He & Hnf & Hfk).
    pose proof (save_location_unique now name db Hu) as Hu'.
    destruct (save_location_tables now name db) as (E1 & E2 & E3).
    unfold store_consistent. rewrite E1, E2, E3. done.
  - intros location_id seq path kp desc db Hc.
    pose proof (store_consistent_closed db Hc) as Hcl.
    destruct Hc as (Hu & Hf & Hn & He & Hnf & Hfk).
    rewrite save_frame_closed by done. eexists _, _. split; [done|].
    set (new_node := lastrowid (map node_id (graph_nodes db))).
    assert (Hlinks : ∀ e, e ∈ frame_links location_id seq new_node db →
      (from_node e = new_node ∨ to_node e = new_node)
      ∧ from_node e ∈ map node_id (graph_nodes db) ++ [new_node]
      ∧ to_node e ∈ map node_id (graph_nodes db) ++ [new_node]).
    { intros e. unfold frame_links. destruct (0 <? seq); [|by intros ?%elem_of_nil].
      destruct (find_node _ _ _) as [prev|] eqn:Hp; [|by intros ?%elem_of_nil].
      assert (node_id prev ∈ map node_id (graph_nodes db)) as Hprev.
      { apply list_elem_of_fmap. exists prev. split; [done|]. by eapply find_node_in. }
      rewrite !elem_of_cons, elem_of_nil. intros [->|[->|[]]]; cbn;
        rewrite !elem_of_app, !list_elem_of_singleton; tauto. }
    unfold store_consistent. cbn [locations frames graph_nodes graph_edges].
    rewrite !map_app. cbn [map frame_id node_id].
    split_and!.
    + done.
    + by apply NoDup_snoc_fresh.
    + by apply NoDup_snoc_fresh.
    + apply NoDup_app. split_and!; [done| |].
      * intros k (e & -> & Hin)%list_elem_of_fmap
                 (e' & Hk & Hin')%list_elem_of_fmap.
        destruct (Hfk e Hin) as [H1 H2].
        apply lastrowid_gt in H1, H2. fold new_node in H1, H2.
        destruct (Hlinks e' Hin') as [[H|H] _]; injection Hk as Hk1 Hk2; lia.
      * unfold frame_links. destruct (0 <? seq); [|apply NoDup_nil_2].
        destruct (find_node _ _ _) as [prev|] eqn:Hp; [|apply NoDup_nil_2].
        assert (node_id prev < new_node).
        { apply lastrowid_gt, list_elem_of_fmap. exists prev. split; [done|].
          by eapply find_node_in. }
        cbn. apply NoDup_cons. split; [|apply NoDup_singleton].
        intros [= ? ?]%list_elem_of_singleton. lia.
    + intros n [Hin| ->%list_elem_of_singleton]%elem_of_app.
      * apply elem_of_app. left. by apply Hnf.
      * cbn. apply elem_of_app. right. by apply list_elem_of_singleton.
    + intros e [Hin|Hin]%elem_of_app.
      * destruct (Hfk e Hin). rewrite !elem_of_app. tauto.
      * by apply Hlinks.
Qed.

(* ===================================================================== *)
(** * Part V: further properties of the localizer and the planner         *)
(* ===================================================================== *)

(** The loop of [localize] keeps a count that is not negative and, once
    it has a best frame, the id, the sequence index and the score of a
    frame it has seen. *)
Lemma localize_fold_sound matcher cd (fr : list FrameData) :
  ∀ bm bc bs,
    (0 ≤ bc ∧ (bm = None ∨ ∃ g, g ∈ fr ∧ bm = Some (fd_id g)
                           ∧ bs = fd_sequence g
                           ∧ match_score matcher cd g = Some bc)) →
    ∀ seen, (∀ g, g ∈ seen → g ∈ fr) →
    let '(bm', bc', bs') :=
      fold_left (localize_step matcher cd) seen (bm, bc, bs) in
    0 ≤ bc' ∧ (bm' = None ∧ bc' = bc ∧ bm = None
               ∨ ∃ g, g ∈ fr ∧ bm' = Some (fd_id g) ∧ bs' = fd_sequence g
                      ∧ match_score matcher cd g = Some bc').
Proof.
  intros bm bc bs H seen. revert bm bc bs H.
  induction seen as [|g seen IH]; intros bm bc bs [Hbc H] Hin; cbn [fold_left].
  - split; [done|]. destruct H as [->|H]; [left; done|by right].
  - rewrite localize_step_score.
    assert (Hseen : ∀ g', g' ∈ seen → g' ∈ fr) by (intros; apply Hin; by right).
    destruct (match_score matcher cd g) as [sc|] eqn:Hsc.
    + destruct (Z.ltb_spec bc sc).
      * specialize (IH (Some (fd_id g)) sc (fd_sequence g)).
        destruct (fold_left _ seen _) as [[bm' bc'] bs'].
        destruct IH as [? [(? & _ & ?)|?]]; [|done|done|].
        -- split; [lia|]. right. exists g. split_and!; [|done..].
           apply Hin. by left.
        -- split; [done|]. by right.
      * specialize (IH bm bc bs (conj Hbc H) Hseen).
        by destruct (fold_left _ seen _) as [[bm' bc'] bs'].
    + specialize (IH bm bc bs (conj Hbc H) Hseen).
      by destruct (fold_left _ seen _) as [[bm' bc'] bs'].
Qed.

(** X6. What [localize] answers is sound. A frame id comes with a
    confidence of at least 30 and a sequence index, and the three belong to
    one stored frame of the location: its id, its match score against the
    live descriptors, its sequence index. Without a frame id there is no
    sequence index and the confidence is from 0 to 29. *)
Theorem localize_sound {Image} (ef : Extractor Image) (matcher : Matcher)
    (db : Database) (frame : Image) (name : string) :
  match localize ef matcher db frame name with
  | (Some id, c, Some seq) =>
      30 ≤ c
      ∧ ∃ kp cd g, ef frame = (kp, Some cd) ∧ 10 ≤ Z.of_nat (length kp)
                   ∧ g ∈ get_location_frames name db
                   ∧ fd_id g = id ∧ fd_sequence g = seq
                   ∧ match_score matcher cd g = Some c
  | (None, c, None) => 0 ≤ c < 30
  | _ => False
  end.
Proof.
  unfold localize. destruct (ef frame) as [kp [cd|]] eqn:Hef; [|done].
  destruct (Z.ltb_spec (Z.of_nat (length kp)) 10); [done|].
  destruct (get_location_frames name db) as [|g0 fr] eqn:Hfr; [done|].
  rewrite <- Hfr.
  pose proof (localize_fold_sound matcher cd (get_location_frames name db)
                None 0 0 (conj (Z.le_refl 0) (or_introl eq_refl))
                (get_location_frames name db) (fun _ H => H)) as Hs.
  destruct (fold_left _ _ _) as [[bm bc] bs].
  unfold confidence_threshold. destruct (Z.leb_spec 30 bc).
  - destruct Hs as [_ [(-> & -> & _)|(g & Hg & -> & -> & Hsc)]]; [lia|].
    split; [done|]. exists kp, cd, g. done.
  - lia.
Qed.

(** ** The heuristic *)



(** ** The search on any graph *)

(** X8. The edge cases of [_astar], on any graph and with any fuel: it
    raises [KeyError] when the start or the goal has no node data; the
    route from a node to itself is that node alone, found without looking
    at the graph; from a start that is not a key of the adjacency map it
    raises [KeyError]; and from a start without edges it answers [None]
    for any other goal. *)
Theorem astar_edge_cases (fuel : nat) (graph : gmap Z (list (Z * Q)))
    (nodes : pydict NodeData) (start goal : Z) :
  (dict_get nodes start = None ∨ dict_get nodes goal = None →
     _astar fuel graph nodes start goal = Raise KeyError)
  ∧ (is_Some (dict_get nodes start) →
     _astar (S fuel) graph nodes start start = Return (Some [start]))
  ∧ (is_Some (dict_get nodes start) → is_Some (dict_get nodes goal) →
     start ≠ goal → graph !! start = None →
     _astar (S fuel) graph nodes start goal = Raise KeyError)
  ∧ (is_Some (dict_get nodes start) → is_Some (dict_get nodes goal) →
     start ≠ goal → graph !! start = Some [] →
     _astar (S (S fuel)) graph nodes start goal = Return None).
Proof.
  unfold _astar, _heuristic, nodes_getitem. split_and!.
  - intros [-> | H]; [done|]. destruct (dict_get nodes start); [|done].
    by rewrite H.
  - intros [d ->]. cbn -[Z.eqb]. by rewrite Z.eqb_refl.
  - intros [d1 ->] [d2 ->] Hne Hg. cbn -[Z.eqb].
    destruct (Z.eqb_spec start goal); [done|]. unfold getitem. by rewrite Hg.
  - intros [d1 ->] [d2 ->] Hne Hg. cbn -[Z.eqb].
    destruct (Z.eqb_spec start goal); [done|]. unfold getitem. by rewrite Hg.
Qed.

(** There is an edge from [a] to [b] in the adjacency map. *)
Definition edge_in (graph : gmap Z (list (Z * Q))) (a b : Z) : Prop :=
  ∃ adj d, graph !! a = Some adj ∧ (b, d) ∈ adj.

(** Every step of the list follows an edge; [is_walk_back] for a list
    that is read from its end. *)
Fixpoint is_walk (graph : gmap Z (list (Z * Q))) (path : list Z) : Prop :=
  match path with
  | a :: (b :: _) as rest => edge_in graph a b ∧ is_walk graph rest
  | _ => True
  end.

Fixpoint is_walk_back (graph : gmap Z (list (Z * Q))) (path : list Z) : Prop :=
  match path with
  | a :: (b :: _) as rest => edge_in graph b a ∧ is_walk_back graph rest
  | _ => True
  end.

Lemma is_walk_back_snoc graph l a b :
  is_walk_back graph l → last l = Some a → edge_in graph b a →
  is_walk_back graph (l ++ [b]).
Proof.
  induction l as [|x [|y l] IH]; [done| |].
  - cbn. intros _ [= ->] He. done.
  - intros [Hxy Hw] Hl He. split; [done|]. apply IH; done.
Qed.

Lemma is_walk_snoc graph l a b :
  is_walk graph l → last l = Some a → edge_in graph a b →
  is_walk graph (l ++ [b]).
Proof.
  induction l as [|x [|y l] IH]; [done| |].
  - cbn. intros _ [= ->] He. done.
  - intros [Hxy Hw] Hl He. split; [done|]. apply IH; done.
Qed.

Lemma is_walk_back_rev graph l : is_walk_back graph l → is_walk graph (rev l).
Proof.
  induction l as [|x [|y l] IH]; [done..|].
  intros [Hxy Hw]. change (rev (x :: y :: l)) with (rev (y :: l) ++ [x]).
  apply is_walk_snoc with y; [by apply IH| |done].
  cbn. by rewrite last_snoc.
Qed.

(** The invariant of the search on any graph: [came_from] follows edges,
    and every node it leads to, like every node in the queue, is the start
    or has a predecessor itself. *)
Definition astar_sound_inv (graph : gmap Z (list (Z * Q))) (start : Z)
    (st : astar_state) : Prop :=
  (∀ x y, came_from st !! x = Some y →
     edge_in graph y x ∧ (y = start ∨ is_Some (came_from st !! y)))
  ∧ (∀ e, e ∈ open_set st → snd e = start ∨ is_Some (came_from st !! snd e)).

Lemma relax_sound graph nodes start goal cur adj e st st' :
  astar_sound_inv graph start st →
  graph !! cur = Some adj → e ∈ adj →
  cur = start ∨ is_Some (came_from st !! cur) →
  relax nodes goal cur e st = Return st' →
  astar_sound_inv graph start st'
  ∧ (cur = start ∨ is_Some (came_from st' !! cur)).
Proof.
  intros [Hcf Hop] Hadj Hin Hcur. destruct e as [nb d]. unfold relax.
  destruct (getitem (g_score st) cur) as [gc| |]; [|done..].
  cbn [mbind outcome_bind].
  destruct (getitem (g_score st) nb) as [gn| |]; [|done..].
  cbn [mbind outcome_bind].
  destruct (num_ltb _ gn); [|by intros [= <-]].
  destruct (_heuristic nodes nb goal) as [h| |]; [|done..].
  cbn [mbind outcome_bind]. intros [= <-].
  assert (Hkeep : ∀ y, y = start ∨ is_Some (came_from st !! y) →
            y = start ∨ is_Some (<[nb:=cur]> (came_from st) !! y)).
  { intros y [->|Hy]; [by left|]. right.
    destruct (decide (nb = y)) as [->|]; [by rewrite lookup_insert_eq|].
    by rewrite lookup_insert_ne. }
  split; [split|]; cbn [came_from open_set].
  - intros x y. destruct (decide (nb = x)) as [->|Hne].
    + rewrite lookup_insert_eq. intros [= <-]. split; [|by apply Hkeep].
      by exists adj, d.
    + rewrite lookup_insert_ne by done. intros Hxy.
      destruct (Hcf x y Hxy). split; [done|]. by apply Hkeep.
  - intros e He.
    assert (e ∈ open_set st ∨ snd e = nb) as [He'|He'].
    { destruct (negb _); [|by left]. unfold heappush in He.
      apply elem_of_app in He as [?|He]; [by left|].
      apply list_elem_of_singleton in He as ->. by right. }
    + by apply Hkeep, Hop.
    + right. rewrite He', lookup_insert_eq. done.
  - by apply Hkeep.
Qed.

Lemma relax_all_sound graph nodes start goal cur adj :
  graph !! cur = Some adj →
  ∀ es st st', (∀ e, e ∈ es → e ∈ adj) →
    astar_sound_inv graph start st →
    cur = start ∨ is_Some (came_from st !! cur) →
    for_each (relax nodes goal cur) es st = Return st' →
    astar_sound_inv graph start st'.
Proof.
  intros Hadj. induction es as [|e es IH]; intros st st' Hes Hinv Hcur.
  - by intros [= <-].
  - cbn [for_each].
    destruct (relax nodes goal cur e st) as [st1| |] eqn:Hr; [|done..].
    cbn [mbind outcome_bind].
    destruct (relax_sound graph nodes start goal cur adj e st st1)
      as [Hinv1 Hcur1]; [done|done|apply Hes; by left|done|done|].
    apply IH; [|done..]. intros e' He'. apply Hes. by right.
Qed.

Lemma reconstruct_loop_sound graph start (cf : gmap Z Z) :
  (∀ x y, cf !! x = Some y →
     edge_in graph y x ∧ (y = start ∨ is_Some (cf !! y))) →
  ∀ fuel cur acc p,
    cur = start ∨ is_Some (cf !! cur) →
    is_walk_back graph acc → last acc = Some cur →
    reconstruct_loop fuel cf cur acc = Return p →
    is_walk_back graph p ∧ last p = Some start ∧ head p = head acc.
Proof.
  intros Hcf. induction fuel as [|fuel IH]; intros cur acc p Hcur Hw Hl; [done|].
  cbn [reconstruct_loop]. destruct (cf !! cur) as [prev|] eqn:Hp.
  - intros Hrun. destruct (Hcf cur prev Hp) as [He Hprev].
    destruct (IH prev (acc ++ [prev]) p) as (? & ? & Hh); [done| | |done|].
    + by eapply is_walk_back_snoc.
    + by rewrite last_snoc.
    + split_and!; [done..|]. rewrite Hh. by destruct acc.
  - intros [= <-]. destruct Hcur as [->|[? ?]]; done.
Qed.

Lemma astar_loop_sound graph nodes start goal :
  ∀ fuel st path,
    astar_sound_inv graph start st →
    astar_loop fuel graph nodes goal st = Return (Some path) →
    head path = Some start ∧ last path = Some goal ∧ is_walk graph path.
Proof.
  induction fuel as [|fuel IH]; intros st path Hinv; [done|].
  cbn [astar_loop].
  destruct (heappop (open_set st)) as [[[f cur] rest]|] eqn:Hpop; [|done].
  pose proof (heappop_perm _ _ _ Hpop) as Hperm.
  destruct Hinv as [Hcf Hop].
  assert (cur = start ∨ is_Some (came_from st !! cur)) as Hcur.
  { apply (Hop (f, cur)). rewrite Hperm. by left. }
  destruct (Z.eqb_spec cur goal) as [->|Hne].
  - unfold _reconstruct_path.
    destruct (reconstruct_loop (S fuel) (came_from st) goal [goal]) as [p| |] eqn:Hp;
      [|done..].
    cbn [mbind outcome_bind]. intros [= <-].
    destruct (reconstruct_loop_sound graph start (came_from st) Hcf
                (S fuel) goal [goal] p) as (Hw & Hl & Hh); [done..|].
    split_and!.
    + rewrite <- Hl. rewrite <- (rev_involutive p) at 2.
      destruct (rev p) as [|x l]; [done|]. cbn. by rewrite last_snoc.
    + cbn in Hh. destruct p as [|x l]; [done|]. injection Hh as ->.
      cbn. by rewrite last_snoc.
    + by apply is_walk_back_rev.
  - destruct (getitem graph cur) as [adj| |] eqn:Hadj; [|done..].
    cbn [mbind outcome_bind].
    destruct (for_each _ adj _) as [st'| |] eqn:Hrun; [|done..].
    cbn [mbind outcome_bind]. apply IH.
    unfold getitem in Hadj. destruct (graph !! cur) as [adj'|] eqn:Hg; [|done].
    injection Hadj as Heq. subst adj'.
    apply (relax_all_sound graph nodes start goal cur adj Hg adj
             {| open_set := rest; came_from := came_from st;
                g_score := g_score st; f_score := f_score st |} st').
    + done.
    + split; cbn [came_from open_set]; [done|].
      intros e He. apply Hop. rewrite Hperm. by right.
    + exact Hcur.
    + exact Hrun.
Qed.

(** X9. On any graph, a path that [_astar] returns is a walk of the
    graph from the start to the goal: it begins with the start, ends with
    the goal, and every step follows an edge of the adjacency map. *)
Theorem astar_returns_walk (fuel : nat) (graph : gmap Z (list (Z * Q)))
    (nodes : pydict NodeData) (start goal : Z) (path : list Z) :
  _astar fuel graph nodes start goal = Return (Some path) →
  head path = Some start ∧ last path = Some goal ∧ is_walk graph path.
Proof.
  unfold _astar. destruct (_heuristic nodes start goal) as [h| |]; [|done..].
  cbn [mbind outcome_bind]. apply astar_loop_sound.
  split; cbn [came_from open_set].
  - intros x y. by rewrite lookup_empty.
  - intros e ->%list_elem_of_singleton. by left.
Qed.

Lemma astar_returns_walk_witness :
  head [1; 2; 3] = Some 1 ∧ last [1; 2; 3] = Some 3
  ∧ is_walk demo_graph [1; 2; 3].
Proof.
  apply (astar_returns_walk 10 demo_graph demo_nodes 1 3).
  vm_compute. reflexivity.
Defined.

(** ** The goal of a route and the errors of [plan_route] *)

Lemma py_max_by_fold {A} (key : A → Z) (l : list A) :
  ∀ (pre : list A) (best : A) (i : nat),
    pre !! i = Some best →
    (∀ y, y ∈ pre → key y ≤ key best) →
    (∀ j y, (j < i)%nat → pre !! j = Some y → key y < key best) →
    ∃ i', (pre ++ l) !! i' = Some (py_max_by key best l)
          ∧ (∀ y, y ∈ pre ++ l → key y ≤ key (py_max_by key best l))
          ∧ (∀ j y, (j < i')%nat → (pre ++ l) !! j = Some y →
                    key y < key (py_max_by key best l)).
Proof.
  unfold py_max_by. induction l as [|x l IH]; intros pre best i Hi Hmax Hfirst.
  - exists i. rewrite app_nil_r. done.
  - cbn [fold_left]. replace (pre ++ x :: l) with ((pre ++ [x]) ++ l)
      by (by rewrite <- app_assoc).
    pose proof (lookup_lt_Some _ _ _ Hi) as Hlt.
    destruct (Z.ltb_spec (key best) (key x)).
    + apply (IH (pre ++ [x]) x (length pre)).
      * rewrite lookup_app_r by lia. by rewrite Nat.sub_diag.
      * intros y [Hy| ->%list_elem_of_singleton]%elem_of_app; [|lia].
        specialize (Hmax y Hy). lia.
      * intros j y Hj Hy. rewrite lookup_app_l in Hy by lia.
        assert (y ∈ pre) as Hin by (apply list_elem_of_lookup; eauto).
        specialize (Hmax y Hin). lia.
    + apply (IH (pre ++ [x]) best i).
      * by rewrite lookup_app_l by lia.
      * intros y [Hy| ->%list_elem_of_singleton]%elem_of_app; [by apply Hmax|lia].
      * intros j y Hj Hy. rewrite lookup_app_l in Hy by lia. by eapply Hfirst.
Qed.

Lemma build_adjacency_error nodes edges :
  build_adjacency nodes edges = Raise KeyError
  ∨ ∃ g, build_adjacency nodes edges = Return g.
Proof.
  unfold build_adjacency.
  generalize (list_to_map (map (fun k : Z => (k, @nil (Z * Q))) (dict_keys nodes))
               : gmap Z (list (Z * Q))).
  induction edges as [|[[a b] d] edges IH]; intros g; cbn [for_each]; [eauto|].
  assert (add_edge (a, b, d) g = Raise KeyError
          ∨ ∃ g', add_edge (a, b, d) g = Return g') as [-> |[g' ->]].
  { unfold add_edge, getitem. destruct (g !! a); cbn; eauto. }
  - by left.
  - cbn [mbind outcome_bind]. apply IH.
Qed.

(** X10. Without a destination, [plan_route] heads for a node of the
    highest position index, the first of them in the order of the node
    dict. A destination or a current node that is given is not checked:
    when it has no node data, [plan_route] raises [KeyError], whatever the
    fuel, and the navigator is as before. *)
Theorem plan_route_goal (fuel : nat) (db : Database) (self : Navigator)
    (name : string) (cur d : Z) :
  let nodes := fst (get_navigation_graph name db) in
  nodes ≠ [] →
  (∃ i, dict_keys nodes !! i = Some (route_goal nodes None)
        ∧ (∀ k, k ∈ dict_keys nodes →
              position_of nodes k ≤ position_of nodes (route_goal nodes None))
        ∧ (∀ j k, (j < i)%nat → dict_keys nodes !! j = Some k →
              position_of nodes k < position_of nodes (route_goal nodes None)))
  ∧ route_goal nodes (Some d) = d
  ∧ (dict_get nodes d = None →
       plan_route fuel db self name cur (Some d) = (Raise KeyError, self))
  ∧ (dict_get nodes cur = None →
       plan_route fuel db self name cur None = (Raise KeyError, self)).
Proof.
  intros nodes Hne. split_and!.
  - unfold route_goal. destruct (dict_keys nodes) as [|k0 ks] eqn:Hk.
    { destruct nodes; done. }
    apply (py_max_by_fold (position_of nodes) ks [k0] k0 0%nat); [done| |].
    + by intros y ->%list_elem_of_singleton.
    + intros j y Hj. lia.
  - done.
  - intros Hd. unfold plan_route. subst nodes.
    destruct (get_navigation_graph name db) as [nodes edges]. cbn [fst] in *.
    destruct nodes as [|nd nodes]; [done|].
    destruct (build_adjacency_error (nd :: nodes) edges) as [-> |[g ->]]; [done|].
    cbn [mbind outcome_bind route_goal].
    unfold _astar, _heuristic, nodes_getitem. rewrite Hd.
    by destruct (dict_get (nd :: nodes) cur).
  - intros Hc. unfold plan_route. subst nodes.
    destruct (get_navigation_graph name db) as [nodes edges]. cbn [fst] in *.
    destruct nodes as [|nd nodes]; [done|].
    destruct (build_adjacency_error (nd :: nodes) edges) as [-> |[g ->]]; [done|].
    cbn [mbind outcome_bind].
    unfold _astar, _heuristic, nodes_getitem. by rewrite Hc.
Qed.

Lemma plan_route_goal_witness :
  plan_route 10 (db demo_world) Navigator_init "kitchen" 1 (Some 7)
    = (Raise KeyError, Navigator_init)
  ∧ route_goal demo_nodes None = 3.
Proof.
  destruct (plan_route_goal 10 (db demo_world) Navigator_init "kitchen" 1 7)
    as (_ & _ & H & _).
  - vm_compute. discriminate.
  - split; [|vm_compute; reflexivity]. apply H. vm_compute. reflexivity.
Defined.

(** ** Steps and instructions *)

Definition instruction_continue : string := "Continue forward 0.7 meters".
Definition instruction_reached : string := "Destination reached".

Lemma py_index_in_range {A} (l : list A) (i : Z) :
  - Z.of_nat (length l) ≤ i < Z.of_nat (length l) →
  ∃ x, py_index l i = Return x.
Proof.
  intros Hi. unfold py_index.
  set (j := if i <? 0 then Z.of_nat (length l) + i else i).
  assert (0 ≤ j < Z.of_nat (length l)) as Hj.
  { unfold j. destruct (Z.ltb_spec i 0); lia. }
  destruct (Z.ltb_spec j 0); [lia|]. destruct (Z.leb_spec (Z.of_nat (length l)) j); [lia|].
  cbn. destruct (l !! Z.to_nat j) eqn:Hl; [by eexists|].
  apply lookup_ge_None in Hl. lia.
Qed.

Lemma py_index_below {A} (l : list A) (i : Z) :
  i < - Z.of_nat (length l) → py_index l i = Raise IndexError.
Proof.
  intros Hi. unfold py_index. destruct (Z.ltb_spec i 0); [|lia].
  by destruct (Z.ltb_spec (Z.of_nat (length l) + i) 0); [|lia].
Qed.

(** The instruction at a step index that is not negative. *)
Lemma get_next_instruction_nonneg path step nodes :
  0 ≤ step →
  get_next_instruction {| current_path := path; current_step := step |} nodes =
    Return (if Z.of_nat (length path) - 1 <=? step
            then instruction_reached else instruction_continue).
Proof.
  intros Hs. unfold get_next_instruction. cbn [current_path current_step].
  destruct path as [|n p] eqn:Hp.
  { destruct (Z.leb_spec (Z.of_nat (length (@nil Z)) - 1) step);
      [done|cbn in *; lia]. }
  rewrite <- Hp. set (L := Z.of_nat (length path)).
  destruct (Z.leb_spec L step).
  { by destruct (Z.leb_spec (L - 1) step); [|lia]. }
  destruct (py_index_in_range path step) as [x ->]; [lia|].
  cbn [mbind outcome_bind]. destruct (Z.eqb_spec step (L - 1)).
  { by destruct (Z.leb_spec (L - 1) step); [|lia]. }
  destruct (py_index_in_range path (step + 1)) as [y ->]; [lia|].
  cbn [mbind outcome_bind]. by destruct (Z.leb_spec (L - 1) step); [lia|].
Qed.

(** X11. [get_next_instruction] has two answers only, for any step index
    from 0 on: ["Destination reached"] when the path is empty or the step
    index is at or beyond the last index, ["Continue forward 0.7 meters"]
    before. It raises [IndexError] for a step index below minus the length
    of a path that is not empty. *)
Theorem get_next_instruction_total (path : list Z) (step : Z)
    (nodes : pydict NodeData) :
  (0 ≤ step →
     get_next_instruction {| current_path := path; current_step := step |} nodes =
       Return (if Z.of_nat (length path) - 1 <=? step
               then "Destination reached"%string
               else "Continue forward 0.7 meters"%string))
  ∧ (path = [] →
     get_next_instruction {| current_path := path; current_step := step |} nodes =
       Return "Destination reached"%string)
  ∧ (path ≠ [] → step < - Z.of_nat (length path) →
     get_next_instruction {| current_path := path; current_step := step |} nodes =
       Raise IndexError).
Proof.
  split_and!.
  - apply get_next_instruction_nonneg.
  - by intros ->.
  - intros Hne Hs. unfold get_next_instruction. cbn [current_path current_step].
    destruct path as [|n p]; [done|]. set (q := n :: p) in *.
    destruct (Z.leb_spec (Z.of_nat (length q)) step); [lia|].
    rewrite (py_index_below q step) by lia. done.
Qed.

Lemma get_next_instruction_total_witness :
  get_next_instruction {| current_path := [1; 2; 3]; current_step := 5 |} demo_nodes
    = Return "Destination reached"%string
  ∧ get_next_instruction {| current_path := [1; 2; 3]; current_step := -4 |} demo_nodes
    = Raise IndexError.
Proof.
  split.
  - apply (proj1 (get_next_instruction_total [1; 2; 3] 5 demo_nodes)). lia.
  - apply (get_next_instruction_total [1; 2; 3] (-4) demo_nodes); [done|cbn; lia].
Defined.

(** The navigator after [k] calls of [advance_step]. *)
Definition advance_steps (k : nat) (self : Navigator) : Navigator :=
  Nat.iter k (fun n => snd (advance_step n)) self.

Lemma advance_step_spec (n : Navigator) :
  let moves := current_step n <? Z.of_nat (length (current_path n)) - 1 in
  current_path (snd (advance_step n)) = current_path n
  ∧ current_step (snd (advance_step n)) =
      (if moves then current_step n + 1 else current_step n)
  ∧ fst (advance_step n) = moves.
Proof.
  unfold advance_step. by destruct (_ <? _).
Qed.

(** X12. Along a planned route: after [k] calls of [advance_step] the
    path is the same and the step index is [k], held at the last index of
    the path; [advance_step] answers [True] as long as it moves; and the
    instruction is ["Continue forward 0.7 meters"] for the first [L - 1]
    steps and ["Destination reached"] from then on. *)
Theorem instructions_along_route (path : list Z) (nodes : pydict NodeData)
    (k : nat) :
  let L := Z.of_nat (length path) in
  let nav := advance_steps k {| current_path := path; current_step := 0 |} in
  current_path nav = path
  ∧ current_step nav = Z.max 0 (Z.min (Z.of_nat k) (L - 1))
  ∧ fst (advance_step nav) = (Z.of_nat k <? L - 1)
  ∧ get_next_instruction nav nodes =
      Return (if Z.of_nat k <? L - 1
              then "Continue forward 0.7 meters"%string
              else "Destination reached"%string).
Proof.
  intros L nav.
  assert (Hnav : current_path nav = path
                 ∧ current_step nav = Z.max 0 (Z.min (Z.of_nat k) (L - 1))).
  { subst nav. induction k as [|k [IH1 IH2]]; [cbn; split; [done|lia]|].
    change (advance_steps (S k) ?n) with (snd (advance_step (advance_steps k n))).
    destruct (advance_step_spec
                (advance_steps k {| current_path := path; current_step := 0 |}))
      as (-> & -> & _).
    rewrite IH1, IH2. fold L. split; [done|].
    destruct (Z.ltb_spec (Z.max 0 (Z.min (Z.of_nat k) (L - 1))) (L - 1)); lia. }
  destruct Hnav as [Hp Hs]. split_and!; [done..| |].
  - destruct (advance_step_spec nav) as (_ & _ & ->). rewrite Hp, Hs. fold L.
    destruct (Z.ltb_spec (Z.max 0 (Z.min (Z.of_nat k) (L - 1))) (L - 1)),
      (Z.ltb_spec (Z.of_nat k) (L - 1)); done || lia.
  - destruct nav as [p s]. cbn in Hp, Hs. subst p.
    rewrite get_next_instruction_nonneg by lia. fold L. rewrite Hs.
    unfold instruction_reached, instruction_continue.
    destruct (Z.leb_spec (L - 1) (Z.max 0 (Z.min (Z.of_nat k) (L - 1)))),
      (Z.ltb_spec (Z.of_nat k) (L - 1)); done || lia.
Qed.

(* ===================================================================== *)
(** * Part VI: further properties of the session                          *)
(* ===================================================================== *)


Lemma location_known_elem d names :
  location_known (Some d) names = true ↔ d ∈ names.
Proof.
  cbn. rewrite existsb_exists. split.
  - intros (x & Hx & ->%String.eqb_eq). by apply list_elem_of_In.
  - intros Hd. exists d. split; [by apply list_elem_of_In|apply String.eqb_refl].
Qed.

(** X13. A location that [start_mapping] has begun to map is known from
    then on: [start_navigation] to it succeeds at once, whatever the
    session was doing; the mode goes from [mapping] to [navigating], and the
    mapping loop, at its next round, finds the mode changed and saves
    nothing more. Without a name the location is ["unnamed_location"]. *)
Theorem start_mapping_registers_location {Image} (ef : Extractor Image)
    (now : Z) (n : option string) (w : World)
    (location_id : Z) (capture : option Image) :
  let name := match n with Some s => s | None => "unnamed_location"%string end in
  let w1 := snd (start_mapping now n w) in
  let w2 := snd (start_navigation (Some name) w1) in
  name ∈ get_all_locations (db w1)
  ∧ current_location (app_state w1) = Some name
  ∧ mapping_frames (app_state w1) = 0
  ∧ status (fst (start_navigation (Some name) w1)) = "success"%string
  ∧ mode (app_state w2) = navigating
  ∧ destination (app_state w2) = Some name
  ∧ db w2 = db w1
  ∧ mapping_tick ef location_id capture w2 = Return w2.
Proof.
  intros name w1 w2.
  assert (name ∈ get_all_locations (db w1)) as Hin.
  { subst w1. unfold start_mapping. fold name.
    pose proof (save_location_listed now name (db w)) as H.
    by destruct (save_location now name (db w)). }
  assert (current_location (app_state w1) = Some name
          ∧ mapping_frames (app_state w1) = 0) as [H1 H2].
  { subst w1. unfold start_mapping. fold name.
    by destruct (save_location now name (db w)). }
  apply location_known_elem in Hin as Hk.
  subst w2. unfold start_navigation. rewrite Hk.
  split_and!; done.
Qed.

Lemma mapping_ticks_keep_location {Image} (ef : Extractor Image) location_id
    (captures : list (option Image)) :
  ∀ w w', for_each (mapping_tick ef location_id) captures w = Return w' →
          current_location (app_state w') = current_location (app_state w).
Proof.
  induction captures as [|c cs IH]; intros w w'.
  - by intros [= <-].
  - cbn [for_each].
    destruct (mapping_tick ef location_id c w) as [wa| |] eqn:Ht; [|done..].
    cbn [mbind outcome_bind]. intros Hrun. rewrite (IH _ _ Hrun).
    unfold mapping_tick in Ht.
    destruct (mode (app_state w)); [by injection Ht as <-| |by injection Ht as <-].
    destruct c as [frame|]; [|by injection Ht as <-].
    destruct (ef frame) as [kp [d|]]; [|by injection Ht as <-].
    destruct (50 <? _); [|by injection Ht as <-].
    destruct (save_frame _ _ _ _ _ _) as [r| |]; [|done..].
    cbn in Ht. by injection Ht as <-.
Qed.

(** X14. A mapping session from start to stop: [stop_mapping] reports as
    many frames as captures were accepted, sets the mode to [idle] and
    forgets the current location without touching the store; the store then
    holds that many frames more than before the session; and a round the
    mapping loop might still make saves nothing, as a second [stop_mapping]
    is answered with an error. *)
Theorem mapping_session_report {Image} (ef : Extractor Image)
    (now : Z) (name : string) (db0 : Database) (captures : list (option Image))
    (late : option Image) :
  store_consistent db0 →
  let location_id := fst (save_location now name db0) in
  let n := length (List.filter (accepted ef) captures) in
  ∃ w1,
    for_each (mapping_tick ef location_id) captures
      (snd (start_mapping now (Some name) (world_init db0))) = Return w1
    ∧ let r := fst (stop_mapping w1) in
      let w2 := snd (stop_mapping w1) in
      status r = "success"%string
      ∧ message r = ("Mapping complete: " ++ str_Z (Z.of_nat n) ++ " frames")%string
      ∧ location r = Some name
      ∧ mode (app_state w2) = idle
      ∧ current_location (app_state w2) = None
      ∧ db w2 = db w1
      ∧ length (frames (db w2)) = (length (frames db0) + n)%nat
      ∧ mapping_tick ef location_id late w2 = Return w2
      ∧ status (fst (stop_mapping w2)) = "error"%string.
Proof.
  intros Hc location_id n.
  pose proof (store_consistent_closed db0 Hc) as Hcl.
  destruct (start_mapping_inv now name db0 Hcl) as (Hinv & Hk0 & Hf0 & _ & _).
  destruct (mapping_ticks_counts ef location_id captures _ Hinv)
    as (w1 & es & Hrun & Hinv1 & Hk & Hf & _).
  exists w1. split; [exact Hrun|].
  destruct Hinv1 as (Hmode & _). fold n in Hk, Hf.
  assert (current_location (app_state w1) = Some name) as Hloc.
  { rewrite (mapping_ticks_keep_location ef location_id captures _ _ Hrun).
    unfold start_mapping. by destruct (save_location _ _ _). }
  unfold stop_mapping. rewrite Hmode. cbn [fst snd status message location
    app_state db mode current_location set_current_location set_mode].
  rewrite Hk, Hk0, Hloc, Hf, Hf0. split_and!; done.
Qed.

Lemma demo_store_consistent : store_consistent init_database.
Proof.
  unfold store_consistent, locations_unique. cbn.
  split_and!; try apply NoDup_nil_2; by intros ? ?%elem_of_nil.
Qed.

Lemma mapping_session_report_witness :
  message (fst (stop_mapping
    match for_each (mapping_tick demo_extract 1) demo_captures demo_mapping with
    | Return w => w
    | _ => demo_mapping
    end)) = "Mapping complete: 3 frames"%string.
Proof.
  destruct (mapping_session_report demo_extract 0 "kitchen" init_database
              demo_captures None demo_store_consistent)
    as (w1 & Hrun & _ & Hmsg & _).
  change (for_each (mapping_tick demo_extract 1) demo_captures demo_mapping
          = Return w1) in Hrun.
  rewrite Hrun. exact Hmsg.
Defined.

(** X15. On the match counts that [localize] returns, [_cap_confidence]
    is the count capped at 100, with one exception: a count of 1 lies in
    the range that is read as a probability and becomes 100. *)
Theorem cap_confidence_of_count (n : Z) :
  0 ≤ n →
  (_cap_confidence (RawNum (inject_Z n)) ==
     inject_Z (if n =? 1 then 100 else Z.min n 100))%Q.
Proof.
  intros Hn.
  assert (Hround : ∀ m, (py_round1 (inject_Z m) == inject_Z m)%Q).
  { intros m. unfold py_round1. rewrite (round_half_even_Z _ (m * 10)).
    - rewrite inject_Z_mult. change (inject_Z 10) with 10%Q. field.
    - rewrite inject_Z_mult. change (inject_Z 10) with 10%Q. reflexivity. }
  assert (Hclamp : ∀ m, 0 ≤ m →
    (py_max 0 (py_min (inject_Z m) 100) == inject_Z (Z.min m 100))%Q).
  { intros m Hm.
    assert (inject_Z 0 <= inject_Z m)%Q as H0 by (by rewrite <- Zle_Qle).
    change (inject_Z 0) with 0%Q in H0.
    destruct (clamp_cases (inject_Z m)) as [[? _]|[(_ & H100 & ->)|[H100 ->]]].
    - lra.
    - change 100%Q with (inject_Z 100) in H100. rewrite <- Zle_Qle in H100.
      by rewrite Z.min_l.
    - change 100%Q with (inject_Z 100) in H100. rewrite <- Zlt_Qlt in H100.
      by rewrite Z.min_r by lia. }
  unfold _cap_confidence.
  destruct (Z.eqb_spec n 1) as [-> |Hne]; [by vm_compute|].
  destruct (decide (n = 0)) as [-> |Hn0]; [by vm_compute|].
  assert (Qle_bool (inject_Z n) 1 = false) as ->.
  { apply not_true_is_false. intros H%Qle_bool_iff.
    change 1%Q with (inject_Z 1) in H. rewrite <- Zle_Qle in H. lia. }
  rewrite andb_false_r.
  rewrite (py_round1_comp _ _ (Hclamp n Hn)). apply Hround.
Qed.

Lemma cap_confidence_of_count_witness :
  (_cap_confidence (RawNum (inject_Z 1)) == 100)%Q
  ∧ (_cap_confidence (RawNum (inject_Z 2)) == 2)%Q
  ∧ (_cap_confidence (RawNum (inject_Z 250)) == 100)%Q.
Proof.
  split_and!.
  - apply (cap_confidence_of_count 1). lia.
  - apply (cap_confidence_of_count 2). lia.
  - apply (cap_confidence_of_count 250). lia.
Defined.

(* ===================================================================== *)
(** * Part VII: properties of the obstacle detector                       *)
(* ===================================================================== *)

Lemma estimate_distance_values (a : Q) :
  _estimate_distance a ∈ [(1 # 2)%Q; 1%Q; (3 # 2)%Q; (5 # 2)%Q].
Proof.
  unfold _estimate_distance.
  repeat (match goal with |- context [if ?c then _ else _] => destruct c end);
    rewrite !elem_of_cons; tauto.
Qed.

(** X16. [_estimate_distance] answers with one of 0.5, 1.0, 1.5 and 2.5
    metres, and a larger box is never estimated further away. *)
Theorem estimate_distance_antitone (a b : Q) :
  (_estimate_distance a ∈ [(1 # 2)%Q; 1%Q; (3 # 2)%Q; (5 # 2)%Q])
  ∧ ((a <= b)%Q → (_estimate_distance b <= _estimate_distance a)%Q).
Proof.
  split; [apply estimate_distance_values|]. unfold _estimate_distance.
  - intros Hab.
    destruct (Qltb (3 # 10) a) eqn:A1; destruct (Qltb (3 # 10) b) eqn:B1;
    destruct (Qltb (15 # 100) a) eqn:A2; destruct (Qltb (15 # 100) b) eqn:B2;
    destruct (Qltb (5 # 100) a) eqn:A3; destruct (Qltb (5 # 100) b) eqn:B3;
    try (by vm_compute);
    rewrite ?Qltb_lt, ?Qltb_ge in *; exfalso; lra.
Qed.

Lemma estimate_distance_antitone_witness :
  (_estimate_distance (4 # 10) <= _estimate_distance (1 # 10))%Q.
Proof.
  apply (estimate_distance_antitone (1 # 10) (4 # 10)). by vm_compute.
Defined.

(** The order of the keys: higher priority first, nearer first among
    equal priorities. *)
Definition detection_le (a b : Detection) : Prop :=
  det_priority b < det_priority a
  ∨ (det_priority a = det_priority b ∧ (det_distance a <= det_distance b)%Q).

Lemma detection_ltb_false a b : detection_ltb a b = false → detection_le b a.
Proof.
  unfold detection_ltb, detection_le.
  destruct (Z.eqb_spec (- det_priority a) (- det_priority b)).
  - intros H%Qltb_ge. right. split; [lia|done].
  - intros H%Z.ltb_ge. left. lia.
Qed.

Lemma detection_ltb_true a b : detection_ltb a b = true → detection_le a b.
Proof.
  unfold detection_ltb, detection_le.
  destruct (Z.eqb_spec (- det_priority a) (- det_priority b)).
  - intros H%Qltb_lt. right. split; [lia|]. by apply Qlt_le_weak.
  - intros H%Z.ltb_lt. left. lia.
Qed.

Lemma detection_le_trans a b c :
  detection_le a b → detection_le b c → detection_le a c.
Proof.
  unfold detection_le. intros [H1|[H1 H1']] [H2|[H2 H2']].
  - left. lia.
  - left. lia.
  - left. lia.
  - right. split; [lia|]. by eapply Qle_trans.
Qed.

Lemma insert_sorted_perm {A} (ltb : A → A → bool) x (l : list A) :
  insert_sorted ltb x l ≡ₚ x :: l.
Proof.
  induction l as [|y l IH]; [done|]. cbn.
  destruct (ltb y x); [|done]. rewrite IH. apply perm_swap.
Qed.

Lemma py_sort_perm {A} (ltb : A → A → bool) (l : list A) : py_sort ltb l ≡ₚ l.
Proof.
  induction l as [|x l IH]; [done|]. cbn. by rewrite insert_sorted_perm, IH.
Qed.

Lemma py_sort_detections_sorted (l : list Detection) :
  StronglySorted detection_le (py_sort detection_ltb l).
Proof.
  induction l as [|x l IH]; cbn; [constructor|].
  fold (py_sort detection_ltb l). revert IH.
  generalize (py_sort detection_ltb l). clear l.
  induction 1 as [|y l Hs IH Hy]; cbn.
  - repeat constructor.
  - destruct (detection_ltb y x) eqn:Hyx.
    + constructor; [done|]. rewrite insert_sorted_perm.
      constructor; [by apply detection_ltb_true|done].
    + apply detection_ltb_false in Hyx.
      constructor; [by constructor|]. constructor; [done|].
      eapply Forall_impl; [exact Hy|]. cbn. intros z Hz.
      by eapply detection_le_trans.
Qed.

Lemma detect_step_adds width height out i obs obs' :
  detect_step width height out i obs = Return obs' →
  obs' = obs
  ∨ ∃ d, obs' = obs ++ [d]
         ∧ (1 # 2 < det_confidence d)%Q
         ∧ out_scores out !! i = Some (det_confidence d)
         ∧ det_priority d = priority_of (det_class d)
         ∧ det_distance d ∈ [(1 # 2)%Q; 1%Q; (3 # 2)%Q; (5 # 2)%Q]
         ∧ det_class d ∈ class_names.
Proof.
  unfold detect_step, getitem_nat.
  destruct (out_scores out !! i) as [score|] eqn:Hs; [|done].
  cbn [mbind outcome_bind]. destruct (Qltb (1 # 2) score) eqn:Hsc;
    [|intros [= <-]; by left].
  destruct (out_classes out !! i) as [c|]; [|done]. cbn [mbind outcome_bind].
  destruct (_ <? _); [|intros [= <-]; by left].
  destruct (py_index class_names (py_int c)) as [cn| |] eqn:Hcn; [|done..].
  cbn [mbind outcome_bind].
  destruct (out_boxes out !! i) as [[[[ymin xmin] ymax] xmax]|]; [|done].
  cbn [mbind outcome_bind]. intros [= <-]. right. eexists. split; [done|].
  cbn [det_confidence det_priority det_class det_distance].
  split_and!; [by apply Qltb_lt|done|done|apply estimate_distance_values|].
  unfold py_index in Hcn. destruct (_ || _); [done|].
  destruct (class_names !! _) eqn:Hl; [|done]. injection Hcn as <-.
  apply list_elem_of_lookup. eauto.
Qed.

Lemma priority_of_range (c : string) : 1 ≤ priority_of c ≤ 3.
Proof.
  unfold priority_of, obstacle_priority. cbn [List.find fst].
  repeat (match goal with |- context [if ?b then _ else _] => destruct b end);
    lia.
Qed.

(** What holds of every detection of the model. *)
Definition detection_ok (out : ModelOutput) (d : Detection) : Prop :=
  (1 # 2 < det_confidence d)%Q
  ∧ det_confidence d ∈ out_scores out
  ∧ det_class d ∈ class_names
  ∧ 1 ≤ det_priority d ≤ 3
  ∧ det_distance d ∈ [(1 # 2)%Q; 1%Q; (3 # 2)%Q; (5 # 2)%Q].

Lemma detect_loop_ok width height out (idx : list nat) :
  ∀ obs obs',
    for_each (detect_step width height out) idx obs = Return obs' →
    Forall (detection_ok out) obs →
    Forall (detection_ok out) obs'
    ∧ (length obs' ≤ length obs + length idx)%nat.
Proof.
  induction idx as [|i idx IH]; intros obs obs'.
  - intros [= <-]. split; [done|]. cbn. lia.
  - cbn [for_each].
    destruct (detect_step width height out i obs) as [obs1| |] eqn:Hstep; [|done..].
    cbn [mbind outcome_bind]. intros Hrun Hok.
    destruct (detect_step_adds _ _ _ _ _ _ Hstep) as [-> |(d & -> & H1 & H2 & H3 & H4 & H5)].
    + destruct (IH _ _ Hrun Hok). split; [done|]. cbn. lia.
    + destruct (IH _ _ Hrun) as [Hall Hlen].
      * apply Forall_app. split; [done|]. constructor; [|done].
        split_and!; [done| |done| | |done].
        -- apply list_elem_of_lookup. eauto.
        -- rewrite H3. apply priority_of_range.
        -- rewrite H3. apply priority_of_range.
      * split; [done|]. rewrite length_app in Hlen. cbn in *. lia.
Qed.

(** X17. What [detect_obstacles] returns from the output of the model:
    at most one detection per score, each with a score above 0.5, a class
    name of the list, a priority from 1 to 3 and one of the four
    distances; the list is in the order of priority, the highest first,
    and of distance, the nearest first, among equal priorities. So the
    first detection has the highest priority, and no detection of that
    priority is nearer. *)
Theorem detect_obstacles_sorted (out : ModelOutput) (width height : Z)
    (r : MockDraw) (obstacles : list Detection) :
  detect_obstacles (Some out) width height r = Return obstacles →
  StronglySorted detection_le obstacles
  ∧ (length obstacles ≤ length (out_scores out))%nat
  ∧ Forall (detection_ok out) obstacles
  ∧ (∀ o rest, obstacles = o :: rest →
       ∀ o', o' ∈ rest →
         det_priority o' ≤ det_priority o
         ∧ (det_priority o' = det_priority o →
            (det_distance o <= det_distance o')%Q)).
Proof.
  unfold detect_obstacles.
  destruct (for_each _ _ _) as [obs| |] eqn:Hrun; [|done..].
  cbn [mbind outcome_bind]. intros [= <-].
  destruct (detect_loop_ok _ _ _ _ _ _ Hrun (Forall_nil_2 _)) as [Hok Hlen].
  pose proof (py_sort_detections_sorted obs) as Hs.
  split_and!.
  - done.
  - rewrite py_sort_perm. rewrite length_seq in Hlen. cbn in Hlen. lia.
  - by rewrite py_sort_perm.
  - intros o rest Heq o' Ho'. rewrite Heq in Hs.
    apply StronglySorted_inv in Hs as [_ Hall].
    rewrite Forall_forall in Hall. specialize (Hall o' Ho').
    destruct Hall as [?|[? ?]]; split; lia || done.
Qed.

(** A frame with a person far away and a chair close by. *)
Definition demo_output : ModelOutput :=
  {| out_boxes := [(0, 0, 8 # 10, 8 # 10)%Q; (0, 0, 1 # 10, 1 # 10)%Q;
                   (0, 0, 5 # 10, 5 # 10)%Q];
     out_classes := [56%Q; 0%Q; 39%Q];
     out_scores := [8 # 10; 9 # 10; 3 # 10]%Q |}.

Definition demo_draw : MockDraw :=
  {| draw_random := 1 # 10; draw_choice := 1; draw_uniform := 12 # 10 |}.

Definition demo_detections : list Detection :=
  [{| det_class := "person"; det_confidence := 9 # 10;
      det_bbox := (0, 0, 64, 48); det_distance := 5 # 2; det_priority := 3 |};
   {| det_class := "chair"; det_confidence := 8 # 10;
      det_bbox := (0, 0, 512, 384); det_distance := 1 # 2; det_priority := 2 |}].

Lemma demo_detect :
  detect_obstacles (Some demo_output) 640 480 demo_draw = Return demo_detections.
Proof. vm_compute. reflexivity. Qed.

Lemma detect_obstacles_sorted_witness :
  StronglySorted detection_le demo_detections
  ∧ (length demo_detections ≤ length (out_scores demo_output))%nat.
Proof.
  destruct (detect_obstacles_sorted demo_output 640 480 demo_draw
              demo_detections demo_detect) as (H1 & H2 & _).
  by split.
Defined.

(** X18. On a list in the order of [detect_obstacles], the navigation loop
    warns exactly when some detection of the highest priority present is
    nearer than 1.5 metres; a nearer detection of a lower priority does
    not count. *)
Theorem obstacle_warning_rule (obstacles : list Detection) :
  StronglySorted detection_le obstacles →
  (is_Some (obstacle_warning obstacles)
   ↔ ∃ o, o ∈ obstacles
          ∧ (∀ o', o' ∈ obstacles → det_priority o' ≤ det_priority o)
          ∧ (det_distance o < 3 # 2)%Q).
Proof.
  intros Hs. destruct obstacles as [|o rest]; cbn [obstacle_warning].
  - split; [by intros [? ?]|]. by intros (o & ?%elem_of_nil & _).
  - apply StronglySorted_inv in Hs as [_ Hall]. rewrite Forall_forall in Hall.
    destruct (Qltb (det_distance o) (3 # 2)) eqn:Hd.
    + split; [|by eexists]. intros _. exists o. split_and!.
      * by left.
      * intros o' [-> |Ho']%elem_of_cons; [lia|].
        destruct (Hall o' Ho') as [?|[? ?]]; lia.
      * by apply Qltb_lt.
    + apply Qltb_ge in Hd. split; [by intros [? ?]|].
      intros (o1 & [-> |Ho1]%elem_of_cons & Hmax & Hnear).
      * exfalso. by apply (Qlt_not_le _ _ Hnear).
      * exfalso. destruct (Hall o1 Ho1) as [Hlt|[_ Hle]].
        -- specialize (Hmax o ltac:(by left)). lia.
        -- apply (Qlt_not_le _ _ Hnear). by eapply Qle_trans.
Qed.

Lemma demo_detections_sorted : StronglySorted detection_le demo_detections.
Proof.
  repeat constructor.
Qed.

(** The person at 2.5 metres hides the chair at 0.5 metres. *)
Lemma obstacle_warning_rule_witness :
  ¬ is_Some (obstacle_warning demo_detections).
Proof.
  intros H.
  apply (obstacle_warning_rule demo_detections demo_detections_sorted) in H
    as (o & Ho & Hmax & Hnear).
  unfold demo_detections in Ho.
  apply elem_of_cons in Ho as [-> |Ho].
  - vm_compute in Hnear. discriminate.
  - apply list_elem_of_singleton in Ho as ->.
    assert (3 ≤ 2) as Hle; [|lia].
    apply (Hmax {| det_class := "person"; det_confidence := 9 # 10;
                   det_bbox := (0, 0, 64, 48); det_distance := 5 # 2;
                   det_priority := 3 |}).
    by left.
Defined.

(* ===================================================================== *)
(** * Part VIII: properties of the navigation loop                        *)
(* ===================================================================== *)

Definition arrived_text : string := "You have arrived at your destination".

(** What a round leaves alone. *)
Definition round_keeps (w w' : World) : Prop :=
  db w' = db w ∧ threads w' = threads w
  ∧ destination (app_state w') = destination (app_state w)
  ∧ current_location (app_state w') = current_location (app_state w)
  ∧ mapping_frames (app_state w') = mapping_frames (app_state w)
  ∧ (∃ more, spoken w' = spoken w ++ more).

Lemma round_keeps_refl w : round_keeps w w.
Proof. unfold round_keeps. split_and!; [done..|]. exists []. by rewrite app_nil_r. Qed.

Lemma round_keeps_trans w1 w2 w3 :
  round_keeps w1 w2 → round_keeps w2 w3 → round_keeps w1 w3.
Proof.
  intros (A1 & A2 & A3 & A4 & A5 & m1 & A6) (B1 & B2 & B3 & B4 & B5 & m2 & B6).
  unfold round_keeps. split_and!; try congruence.
  exists (m1 ++ m2). by rewrite B6, A6, app_assoc.
Qed.

Lemma obstacle_check_keeps {Image} (r : NavRound Image) l w l' w' :
  obstacle_check r l w = Return (l', w') →
  round_keeps w w'
  ∧ navigator w' = navigator w
  ∧ mode (app_state w') = mode (app_state w)
  ∧ localization_confidence (app_state w') = localization_confidence (app_state w)
  ∧ navigation_instruction (app_state w') = navigation_instruction (app_state w)
  ∧ current_position (app_state w') = current_position (app_state w)
  ∧ current_node l' = current_node l.
Proof.
  unfold obstacle_check. destruct (Qle_bool _ _).
  - destruct (round_detections r) as [ds| |]; [|done..]. cbn [mbind outcome_bind].
    intros [= <- <-]. unfold round_keeps.
    destruct (obstacle_warning ds); cbn; split_and!; try done;
      [by eexists|exists []; by rewrite app_nil_r].
  - intros [= <- <-]. split; [apply round_keeps_refl|done].
Qed.

Lemma plan_if_needed_keeps fuel destination cn w w' :
  plan_if_needed fuel destination cn w = Return w' →
  app_state w' = app_state w ∧ db w' = db w ∧ spoken w' = spoken w
  ∧ threads w' = threads w
  ∧ (current_path (navigator w) ≠ [] → navigator w' = navigator w)
  ∧ (cn = None ∨ cn = Some 0 → navigator w' = navigator w).
Proof.
  unfold plan_if_needed. destruct cn as [node|]; [|by intros [= <-]; split_and!].
  destruct (current_path (navigator w)) eqn:Hp; [|by intros [= <-]; split_and!].
  destruct (Z.eqb_spec node 0) as [->|Hn]; [by intros [= <-]; split_and!|].
  destruct (plan_route _ _ _ _ _ _) as [res nav].
  destruct res as [res| |]; [|done..]. cbn [mbind outcome_bind].
  intros [= <-]. cbn. split_and!; try done. intros [|]; congruence.
Qed.

Lemma give_instruction_spec {Image} (r : NavRound Image) nodes l w c l' w' :
  give_instruction r nodes l w = Return (c, l', w') →
  round_keeps w w'
  ∧ current_path (navigator w') = current_path (navigator w)
  ∧ current_node l' = current_node l
  ∧ localization_confidence (app_state w') = localization_confidence (app_state w)
  ∧ (c = NextRound → mode (app_state w') = mode (app_state w))
  ∧ (c = Break →
     mode (app_state w') = idle
     ∧ announces_arrival (navigation_instruction (app_state w')) = true
     ∧ last (spoken w') = Some arrived_text
     ∧ truthy (current_node l) = true
     ∧ current_path (navigator w) ≠ []
     ∧ get_next_instruction (navigator w) nodes
       = Return (navigation_instruction (app_state w'))).
Proof.
  unfold give_instruction.
  destruct (truthy (current_node l)) eqn:Ht; cbn [andb];
    [|intros [= <- <- <-]; split_and!; try done; apply round_keeps_refl].
  destruct (current_path (navigator w)) as [|n p] eqn:Hp; cbn [negb];
    [intros [= <- <- <-]; split_and!; try done; apply round_keeps_refl|].
  destruct (get_next_instruction (navigator w) nodes) as [ins| |] eqn:Hi;
    [|done..]. cbn [mbind outcome_bind].
  destruct (advance_step_spec (navigator w)) as (Hadv & _ & _).
  destruct (announces_arrival ins) eqn:Ha; intros [= <- <- <-];
    destruct (Qle_bool 5 _); cbn; unfold round_keeps; cbn;
    rewrite ?Hadv, ?Hp; split_and!; try done; eauto using app_nil_r;
    try (by rewrite last_snoc);
    try (eexists; by rewrite <- app_assoc);
    try (exists []; by rewrite app_nil_r).
Qed.

(** A confidence in percent. *)
Definition percent (c : Q) : Prop := (0 <= c)%Q ∧ (c <= 100)%Q.

Lemma cap_confidence_percent (val : raw_confidence) :
  percent (_cap_confidence val).
Proof.
  destruct (cap_confidence_range val) as [->|(n & -> & Hn)].
  - split; lra.
  - by apply tenth_bounds.
Qed.

Lemma localization_block_spec {Image} (extract_features : Extractor Image)
    matcher fuel normalize destination r frame l w c l' w' :
  localization_block extract_features matcher fuel normalize destination
    r frame l w = Return (c, l', w') →
  round_keeps w w'
  ∧ (current_path (navigator w) ≠ [] →
     current_path (navigator w') = current_path (navigator w))
  ∧ (normalize = true → percent (localization_confidence (app_state w')))
  ∧ (c = NextRound → mode (app_state w') = mode (app_state w))
  ∧ (c = Break →
     mode (app_state w') = idle
     ∧ announces_arrival (navigation_instruction (app_state w')) = true
     ∧ last (spoken w') = Some arrived_text
     ∧ current_path (navigator w') ≠ []).
Proof.
  unfold localization_block.
  destruct (localize _ _ _ _ _) as [[frame_id confidence] sequence].
  set (conf := if normalize then _ else _).
  assert (normalize = true → percent conf) as Hconf.
  { intros ->. apply cap_confidence_percent. }
  destruct (truthy frame_id) eqn:Hf.
  2:{ intros [= <- <- <-]. unfold round_keeps. cbn.
      split_and!; try done. by eexists. }
  cbn [db with_app_state].
  destruct (get_navigation_graph destination (db w)) as [nodes edges].
  match goal with |- context [plan_if_needed ?f ?d ?cn ?w0] =>
    destruct (plan_if_needed f d cn w0) as [w1| |] eqn:Hplan; [|done..] end.
  cbn [mbind outcome_bind]. intros Hgive.
  apply plan_if_needed_keeps in Hplan as (Ha & Hd & Hs & Ht & Hn & _).
  cbn in Ha, Hd, Hs, Ht, Hn.
  apply give_instruction_spec in Hgive
    as ((G1 & G2 & G3 & G4 & G5 & more & G6) & Gp & _ & Gc & Gn & Gb).
  rewrite Ha in *. cbn in *.
  split_and!.
  - unfold round_keeps. split_and!; try congruence. exists more. congruence.
  - intros Hne. rewrite Gp. by rewrite Hn.
  - intros Hnorm. rewrite Gc. by apply Hconf.
  - done.
  - intros Hc. destruct (Gb Hc) as (B1 & B2 & B3 & _ & B5 & _).
    split_and!; try done. by rewrite Gp.
Qed.

(** X19. What a round of the navigation loop does and never does. The
    store, the running threads, the destination, the current location and
    the mapping counter are as before, and the spoken texts are only
    added to; a path that is held is kept (there is no new planning);
    in the first loop a confidence in percent stays one; a round that
    goes on to the next leaves the mode as it was; and a round that ends
    the loop has set the mode to [idle], holds a path, has stored an
    instruction that says the destination is reached and has spoken
    "You have arrived at your destination" last. *)
Theorem navigation_round_effect {Image} (extract_features : Extractor Image)
    (matcher : Matcher) (fuel : nat) (normalize : bool) (destination : string)
    (r : NavRound Image) (l : NavLocals) (w : World)
    (c : LoopControl) (l' : NavLocals) (w' : World) :
  navigation_round extract_features matcher fuel normalize destination r l w
    = Return (c, l', w') →
  round_keeps w w'
  ∧ (current_path (navigator w) ≠ [] →
     current_path (navigator w') = current_path (navigator w))
  ∧ (normalize = true → percent (localization_confidence (app_state w)) →
     percent (localization_confidence (app_state w')))
  ∧ (c = NextRound → mode (app_state w') = mode (app_state w))
  ∧ (c = Break →
     mode (app_state w') = idle
     ∧ announces_arrival (navigation_instruction (app_state w')) = true
     ∧ last (spoken w') = Some arrived_text
     ∧ current_path (navigator w') ≠ []).
Proof.
  unfold navigation_round.
  destruct (round_capture r) as [frame|];
    [|intros [= <- <- <-]; split_and!; try done; apply round_keeps_refl].
  destruct (Qle_bool 1 _).
  - destruct (localization_block _ _ _ _ _ _ _ _ _) as [[[c1 l1] w1]| |] eqn:Hloc;
      [|done..].
    apply localization_block_spec in Hloc as (K & Hp & Hc & Hn & Hb).
    cbn [mbind outcome_bind]. destruct c1; cbn [mbind outcome_bind].
    + destruct (obstacle_check r _ w1) as [[l2 w2]| |] eqn:Ho; [|done..].
      cbn [mbind outcome_bind fst snd]. intros [= <- <- <-].
      apply obstacle_check_keeps in Ho as (K2 & O1 & O2 & O3 & _).
      split_and!; try done.
      * by eapply round_keeps_trans.
      * intros Hne. rewrite O1. by apply Hp.
      * intros Hnorm _. rewrite O3. by apply Hc.
      * intros _. rewrite O2. by apply Hn.
    + intros [= <- <- <-]. split_and!; try done. intros; by apply Hc.
  - cbn [mbind outcome_bind].
    destruct (obstacle_check r l w) as [[l2 w2]| |] eqn:Ho; [|done..].
    cbn [mbind outcome_bind fst snd]. intros [= <- <- <-].
    apply obstacle_check_keeps in Ho as (K2 & O1 & O2 & O3 & _).
    split_and!; try done.
    + by rewrite O1.
    + intros _ Hc. by rewrite O3.
Qed.

Lemma plan_if_needed_held fuel destination cn w :
  current_path (navigator w) ≠ [] →
  plan_if_needed fuel destination cn w = Return w.
Proof.
  unfold plan_if_needed. intros Hp. destruct cn; [|done].
  by destruct (current_path (navigator w)).
Qed.

Lemma obstacle_check_returns {Image} (r : NavRound Image) l w ds :
  round_detections r = Return ds →
  ∃ l' w', obstacle_check r l w = Return (l', w').
Proof.
  intros Hds. unfold obstacle_check. rewrite Hds.
  destruct (Qle_bool _ _); cbn; by do 2 eexists.
Qed.

Lemma give_instruction_by_step {Image} (r : NavRound Image) nodes l w :
  truthy (current_node l) = true →
  current_path (navigator w) ≠ [] →
  0 ≤ current_step (navigator w) →
  let last_index := Z.of_nat (length (current_path (navigator w))) - 1 in
  let step := current_step (navigator w) in
  let speaks := Qle_bool 5 (clock_instruction r - last_instruction l) in
  ∃ l' w',
    give_instruction r nodes l w
      = Return (if last_index <=? step then Break else NextRound, l', w')
    ∧ navigation_instruction (app_state w') =
        (if last_index <=? step then instruction_reached
         else instruction_continue)
    ∧ mode (app_state w') =
        (if last_index <=? step then idle else mode (app_state w))
    ∧ current_step (navigator w') =
        (if speaks && (step <? last_index) then step + 1 else step)
    ∧ current_path (navigator w') = current_path (navigator w)
    ∧ current_position (app_state w') = current_position (app_state w).
Proof.
  intros Hnode Hpath Hstep last_index step speaks.
  unfold give_instruction. rewrite Hnode.
  destruct w as [a [path st] d sp th]. cbn [navigator current_path current_step] in *.
  destruct path as [|n p]; [done|]. set (path := n :: p) in *. cbn [andb negb].
  rewrite (get_next_instruction_nonneg path st nodes Hstep).
  cbn [mbind outcome_bind]. fold last_index. fold speaks. subst step.
  destruct (advance_step_spec {| current_path := path; current_step := st |})
    as (Ap & As & _). cbn [current_path current_step] in Ap, As.
  fold last_index in As.
  destruct (Z.leb_spec last_index st) as [Hle|Hlt].
  - replace (announces_arrival instruction_reached) with true by (by vm_compute).
    do 2 eexists. split; [reflexivity|].
    destruct speaks; cbn [andb]; cbn; rewrite ?Ap, ?As;
      (destruct (Z.ltb_spec st last_index); [lia|]); by split_and!.
  - replace (announces_arrival instruction_continue) with false by (by vm_compute).
    do 2 eexists. split; [reflexivity|].
    destruct speaks; cbn [andb]; cbn; rewrite ?Ap, ?As;
      (destruct (Z.ltb_spec st last_index); [|lia]); by split_and!.
Qed.

(** X20. Arrival is decided by the step index. In a round whose
    localization is due and recognises a frame, with a node known and a
    path held at a step index from 0 on, the round does not depend on
    which node was recognised: at or beyond the last index of the path it
    stores "Destination reached", sets the mode to [idle] and ends the
    loop; before the last index it stores "Continue forward 0.7 meters"
    and goes on, and the step index moves by one exactly when the
    instruction is spoken (five seconds after the last one). *)
Theorem navigation_round_by_step {Image} (extract_features : Extractor Image)
    (matcher : Matcher) (fuel : nat) (normalize : bool) (destination : string)
    (r : NavRound Image) (l : NavLocals) (w : World)
    (frame : Image) (fid confidence : Z) (sequence : option Z)
    (ds : list Detection) :
  round_capture r = Some frame →
  Qle_bool 1 (clock_localization r - last_localization l) = true →
  localize extract_features matcher (db w) frame destination
    = (Some fid, confidence, sequence) →
  fid ≠ 0 →
  truthy (resolve_node (fst (get_navigation_graph destination (db w))) fid
            (current_node l)) = true →
  current_path (navigator w) ≠ [] →
  0 ≤ current_step (navigator w) →
  round_detections r = Return ds →
  let last_index := Z.of_nat (length (current_path (navigator w))) - 1 in
  let step := current_step (navigator w) in
  let speaks := Qle_bool 5 (clock_instruction r - last_instruction l) in
  ∃ l' w',
    navigation_round extract_features matcher fuel normalize destination r l w
      = Return (if last_index <=? step then Break else NextRound, l', w')
    ∧ navigation_instruction (app_state w') =
        (if last_index <=? step then "Destination reached"%string
         else "Continue forward 0.7 meters"%string)
    ∧ mode (app_state w') =
        (if last_index <=? step then idle else mode (app_state w))
    ∧ current_step (navigator w') =
        (if speaks && (step <? last_index) then step + 1 else step)
    ∧ current_path (navigator w') = current_path (navigator w)
    ∧ current_position (app_state w') = sequence.
Proof.
  intros Hcap Hdue Hloc Hfid Hnode Hpath Hstep Hds last_index step speaks.
  unfold navigation_round. rewrite Hcap, Hdue.
  unfold localization_block. rewrite Hloc.
  assert (truthy (Some fid) = true) as ->.
  { cbn. by destruct (Z.eqb_spec fid 0). }
  cbn [db with_app_state].
  destruct (get_navigation_graph destination (db w)) as [nodes edges].
  cbn [fst] in Hnode. cbn [current_node].
  rewrite plan_if_needed_held by done. cbn [mbind outcome_bind].
  match goal with |- context [give_instruction r nodes ?l0 ?w0] =>
    destruct (give_instruction_by_step r nodes l0 w0 Hnode Hpath Hstep)
      as (l1 & w1 & -> & G1 & G2 & G3 & G4 & G5) end.
  cbn [navigator with_app_state current_node last_instruction app_state
       mode set_current_position set_localization_confidence current_position]
    in G1, G2, G3, G4, G5.
  fold last_index step speaks in G1, G2, G3, G4, G5.
  unfold with_app_state. cbn [navigator]. fold last_index step.
  cbn [mbind outcome_bind]. destruct (last_index <=? step).
  - cbn [mbind outcome_bind]. by exists l1, w1.
  - cbn [mbind outcome_bind].
    match goal with |- context [obstacle_check r ?l0 w1] =>
      destruct (obstacle_check_returns r l0 w1 ds Hds) as (l2 & w2 & Ho) end.
    rewrite Ho. cbn [mbind outcome_bind fst snd]. exists l2, w2.
    apply obstacle_check_keeps in Ho as (_ & O1 & O2 & _ & O4 & O5 & _).
    rewrite O1, O2, O4, O5. by split_and!.
Qed.

(** A round of the trip of [demo_underway]: the camera shows the first
    landmark of the route, node 1, two seconds after the last
    localization and the last instruction. *)
Definition demo_round : NavRound demo_image :=
  {| round_capture := Some (demo_frame 80 (demo_base 0));
     round_detections := Return demo_detections;
     clock_localization := 10; clock_instruction := 10;
     clock_instruction_spoken := 10; clock_localized := 10;
     clock_obstacle := 10; clock_obstacle_checked := 10 |}.

Definition demo_locals : NavLocals :=
  {| last_localization := 8; last_obstacle_check := 8;
     last_instruction := 8; current_node := None |}.

Definition round_result (o : outcome (LoopControl * NavLocals * World))
    (l : NavLocals) (w : World) : NavLocals * World :=
  match o with
  | Return (_, l', w') => (l', w')
  | _ => (l, w)
  end.

Definition demo_arrival : NavLocals * World :=
  round_result
    (navigation_round demo_extract bf_match_crosscheck 100 true "kitchen"
       demo_round demo_locals demo_underway)
    demo_locals demo_underway.

Lemma demo_round_run :
  navigation_round demo_extract bf_match_crosscheck 100 true "kitchen"
    demo_round demo_locals demo_underway
  = Return (Break, fst demo_arrival, snd demo_arrival).
Proof. vm_compute. reflexivity. Qed.

Lemma navigation_round_effect_witness :
  db (snd demo_arrival) = db demo_underway
  ∧ mode (app_state (snd demo_arrival)) = idle
  ∧ last (spoken (snd demo_arrival)) = Some arrived_text.
Proof.
  destruct (navigation_round_effect demo_extract bf_match_crosscheck 100 true
              "kitchen" demo_round demo_locals demo_underway Break
              (fst demo_arrival) (snd demo_arrival) demo_round_run)
    as ((Hdb & _) & _ & _ & _ & Hb).
  destruct (Hb eq_refl) as (Hm & _ & Hl & _). by split_and!.
Defined.

(** The trip of [demo_underway] is at the last index of its path; the
    camera shows the first landmark of the route, and the trip ends. *)
Lemma navigation_round_by_step_witness :
  ∃ l' w',
    navigation_round demo_extract bf_match_crosscheck 100 true "kitchen"
      demo_round demo_locals demo_underway = Return (Break, l', w')
    ∧ mode (app_state w') = idle
    ∧ current_position (app_state w') = Some 0.
Proof.
  destruct (navigation_round_by_step demo_extract bf_match_crosscheck 100 true
              "kitchen" demo_round demo_locals demo_underway
              (demo_frame 80 (demo_base 0)) 1 80 (Some 0) demo_detections)
    as (l' & w' & Hr & _ & Hm & _ & _ & Hp).
  - reflexivity.
  - reflexivity.
  - vm_compute. reflexivity.
  - lia.
  - vm_compute. reflexivity.
  - vm_compute. discriminate.
  - vm_compute. discriminate.
  - reflexivity.
  - exists l', w'. by split_and!.
Defined.

(** X21. The second [while] of [navigation_loop] runs no round on the
    state the first one leaves: when the first loop is left, by its test
    or by its [break], the mode is not [navigating], so the test of the
    second loop fails and the thread ends with nothing changed. *)
Theorem second_loop_not_entered {Image} (extract_features : Extractor Image)
    (matcher : Matcher) (fuel : nat) (destination : string)
    (r r2 : NavRound Image) (l : NavLocals) (w : World)
    (l' : NavLocals) (w' : World) :
  navigation_step extract_features matcher fuel destination r FirstLoop l w
    = Return (SecondLoop, l', w') →
  mode (app_state w') ≠ navigating
  ∧ navigation_step extract_features matcher fuel destination r2 SecondLoop l' w'
    = Return (Finished, l', w').
Proof.
  intros Hstep.
  assert (mode (app_state w') ≠ navigating) as Hmode.
  { unfold navigation_step in Hstep.
    destruct (mode (app_state w)) eqn:Hm.
    - injection Hstep as <- <-. by rewrite Hm.
    - injection Hstep as <- <-. by rewrite Hm.
    - destruct (navigation_round _ _ _ _ _ _ _ _) as [[[c l1] w1]| |] eqn:Hr;
        [|done..].
      cbn [mbind outcome_bind] in Hstep. destruct c; [done|].
      injection Hstep as <- <-.
      unfold navigation_round in Hr.
      destruct (round_capture r) as [frame|]; [|done].
      destruct (Qle_bool 1 _).
      + destruct (localization_block _ _ _ _ _ _ _ _ _)
          as [[[c2 l2] w2]| |] eqn:Hloc; [|done..].
        apply localization_block_spec in Hloc as (_ & _ & _ & _ & Hb).
        cbn [mbind outcome_bind] in Hr. destruct c2.
        * cbn [mbind outcome_bind] in Hr.
          by destruct (obstacle_check r _ w2) as [[]| |].
        * cbn [mbind outcome_bind] in Hr. injection Hr as <- <-.
          destruct (Hb eq_refl) as (-> & _). done.
      + cbn [mbind outcome_bind] in Hr.
        by destruct (obstacle_check r l w) as [[]| |]. }
  split; [done|]. unfold navigation_step.
  by destruct (mode (app_state w')).
Qed.

Lemma second_loop_not_entered_witness :
  navigation_step demo_extract bf_match_crosscheck 100 "kitchen"
    demo_round SecondLoop (fst demo_arrival) (snd demo_arrival)
  = Return (Finished, fst demo_arrival, snd demo_arrival).
Proof.
  apply (second_loop_not_entered demo_extract bf_match_crosscheck 100 "kitchen"
           demo_round demo_round demo_locals demo_underway).
  unfold navigation_step.
  change (mode (app_state demo_underway)) with navigating.
  by rewrite demo_round_run.
Defined.

(* ===================================================================== *)
(** * Part IX: properties of the voice command                            *)
(* ===================================================================== *)

(** The state apart from the spoken texts. *)
Definition same_state (w w' : World) : Prop :=
  app_state w' = app_state w ∧ navigator w' = navigator w
  ∧ db w' = db w ∧ threads w' = threads w.

Lemma listen_same_state heard w :
  same_state w (snd (listen heard w)).
Proof. by destruct heard. Qed.

Lemma py_contains_empty sub :
  sub ≠ EmptyString → py_contains sub EmptyString = false.
Proof. by destruct sub. Qed.

(** X22. A voice command answered with an error has changed nothing but
    the spoken texts: the session state, the navigator, the store and the
    threads are as before. This holds for every outcome of the
    recogniser, every mode and every request body. *)
Theorem voice_command_error_keeps_state (heard : Heard) (now : Z)
    (data_location_name data_destination : option string) (w : World) :
  status (fst (voice_command heard now data_location_name data_destination w))
    = "error"%string →
  same_state w
    (snd (voice_command heard now data_location_name data_destination w)).
Proof.
  unfold voice_command.
  pose proof (listen_same_state heard w) as Hl.
  destruct (listen heard w) as [text w1]. cbn [snd] in Hl.
  destruct text as [[|c text]|]; [done| |done].
  set (t := String c text).
  destruct (py_contains "map" t || py_contains "create" t).
  { unfold start_mapping. by destruct (save_location _ _ _). }
  destruct (py_contains "stop" t).
  { unfold stop_mapping, stop_navigation.
    by destruct (mode (app_state w1)). }
  destruct (py_contains "navigate" t || py_contains "go to" t
            || py_contains "take me" t).
  { destruct (existsb _ _); [|done].
    unfold start_navigation. destruct data_destination as [d|]; [|done].
    by destruct (location_known _ _). }
  by destruct (py_contains "where am i" t).
Qed.

Lemma voice_command_error_keeps_state_witness :
  same_state demo_world
    (snd (voice_command (HeardText "Stop") 0 None None demo_world)).
Proof.
  apply (voice_command_error_keeps_state (HeardText "Stop") 0 None None demo_world).
  vm_compute. reflexivity.
Defined.

(** X23. The words "map" and "create" come first: a recognised text that
    contains one of them starts mapping, whatever else it says and
    whatever the mode. The location is the one of the request body
    ("unnamed_location" without one), not the one spoken; the mode is
    [mapping], the frame counter is 0 and one more mapping thread runs.
    So "stop mapping", spoken while mapping, starts over and does not
    stop. *)
Theorem voice_map_starts_mapping (raw : string) (now : Z)
    (data_location_name data_destination : option string) (w : World) :
  py_contains "map" (py_lower raw) || py_contains "create" (py_lower raw) = true →
  let name := default "unnamed_location"%string data_location_name in
  let '(response, w') :=
    voice_command (HeardText raw) now data_location_name data_destination w in
  response = {| status := "success"; message := ("Mapping " ++ name)%string;
                location := None |}
  ∧ mode (app_state w') = mapping
  ∧ current_location (app_state w') = Some name
  ∧ mapping_frames (app_state w') = 0
  ∧ threads w' =
      threads w ++ [MappingLoop (fst (save_location now name (db w)))]
  ∧ db w' = snd (save_location now name (db w))
  ∧ spoken w' = spoken w ++ ["Listening..."; ("Starting to map " ++ name)]%string.
Proof.
  intros Hmap name. unfold voice_command. cbn [listen].
  destruct (py_lower raw) as [|c text] eqn:Ht; [done|].
  rewrite Hmap. unfold start_mapping. cbn [db speak].
  replace (match data_location_name with Some n => n | None => _ end)
    with name by by destruct data_location_name.
  destruct (save_location now name (db w)) as [location_id db'].
  cbn. split_and!; try done. by rewrite <- app_assoc.
Qed.

(** "Stop mapping", spoken during the mapping of the kitchen, leaves the
    mode at [mapping] and starts a second mapping thread. *)
Lemma voice_map_starts_mapping_witness :
  mode (app_state
          (snd (voice_command (HeardText "Stop mapping") 5 (Some "kitchen"%string)
                  None demo_mapping))) = mapping
  ∧ threads (snd (voice_command (HeardText "Stop mapping") 5
                    (Some "kitchen"%string) None demo_mapping))
    = [MappingLoop 1; MappingLoop 1].
Proof.
  pose proof (voice_map_starts_mapping "Stop mapping" 5 (Some "kitchen"%string)
                None demo_mapping eq_refl) as H.
  cbv zeta in H.
  destruct (voice_command _ _ _ _ _) as [response w'].
  destruct H as (_ & Hm & _ & _ & Ht & _). split; [done|].
  cbn [snd]. rewrite Ht. vm_compute. reflexivity.
Defined.

(** X24. A spoken destination only opens the way. When the text asks to
    navigate ("navigate", "go to" or "take me", without "map", "create"
    or "stop") and contains the lower-case name of some stored location,
    the trip is started to the destination of the request body, not to
    the place spoken: the mode becomes [navigating] with that destination
    when the request names a stored location, and otherwise the answer is
    the error "Location not found" and the state is as before. *)
Theorem voice_navigate_uses_request (raw : string) (now : Z)
    (data_location_name data_destination : option string) (w : World)
    (loc : string) :
  let text := py_lower raw in
  py_contains "map" text || py_contains "create" text = false →
  py_contains "stop" text = false →
  py_contains "navigate" text || py_contains "go to" text
    || py_contains "take me" text = true →
  loc ∈ get_all_locations (db w) →
  py_contains (py_lower loc) text = true →
  let '(response, w') :=
    voice_command (HeardText raw) now data_location_name data_destination w in
  if location_known data_destination (get_all_locations (db w)) then
    status response = "success"%string
    ∧ mode (app_state w') = navigating
    ∧ destination (app_state w') = data_destination
    ∧ threads w' = threads w ++ [NavigationLoop (str_opt data_destination)]
  else
    response = error_response "Location not found"
    ∧ same_state w w'.
Proof.
  intros text Hmap Hstop Hnav Hloc Hin. unfold voice_command. cbn [listen].
  fold text. destruct text as [|c t] eqn:Ht.
  { by rewrite !orb_false_r in Hnav. }
  rewrite Hmap, Hstop, Hnav. cbn [db speak].
  assert (existsb (fun loc => py_contains (py_lower loc) (String c t))
            (get_all_locations (db w)) = true) as ->.
  { apply existsb_exists. exists loc. split; [|done].
    by apply list_elem_of_In. }
  unfold start_navigation. cbn [db].
  destruct data_destination as [d|]; [|done].
  destruct (location_known (Some d) _); by cbn.
Qed.

(** "Take me to the kitchen" with a request body that names no
    destination: the kitchen is stored, and the answer is an error. *)
Lemma voice_navigate_uses_request_witness :
  fst (voice_command (HeardText "Take me to the kitchen") 0 None None demo_world)
    = error_response "Location not found".
Proof.
  pose proof (voice_navigate_uses_request "Take me to the kitchen" 0 None None
                demo_world "kitchen" eq_refl eq_refl eq_refl) as H.
  cbv zeta in H.
  destruct (voice_command _ _ _ _ _) as [response w'].
  change (location_known None (get_all_locations (db demo_world))) with false in H.
  apply H.
  - vm_compute. apply list_elem_of_here.
  - reflexivity.
Defined.

(* ===================================================================== *)
(** * Part X: from mapping to navigation                                  *)
(* ===================================================================== *)

(** The rows that a mapping session adds for a location that had no node
    before: the node of index [i] and the two links that come with the
    node of index [i + 1]. [base] and [fbase] are the node id and the frame
    id that come next when the session starts. *)
Definition mapped_node (location_id base fbase : Z) (i : nat) : NodeRow :=
  {| node_id := base + Z.of_nat i; node_location_id := location_id;
     node_frame_id := fbase + Z.of_nat i;
     node_position_index := Z.of_nat i |}.

Definition mapped_links (base : Z) (i : nat) : list EdgeRow :=
  [{| from_node := base + Z.of_nat i; to_node := base + Z.of_nat (S i);
      edge_distance := 7 # 10 |};
   {| from_node := base + Z.of_nat (S i); to_node := base + Z.of_nat i;
      edge_distance := 7 # 10 |}].

(** The store [db] after [k] frames of the session that started on
    [db1]. *)
Definition mapped (db1 : Database) (location_id : Z) (k : nat) (db : Database)
  : Prop :=
  let base := lastrowid (map node_id (graph_nodes db1)) in
  let fbase := lastrowid (map frame_id (frames db1)) in
  locations db = locations db1
  ∧ map frame_id (frames db) =
      map frame_id (frames db1) ++ map (fun i => fbase + Z.of_nat i) (seq 0 k)
  ∧ graph_nodes db =
      graph_nodes db1 ++ map (mapped_node location_id base fbase) (seq 0 k)
  ∧ graph_edges db =
      graph_edges db1 ++ flat_map (mapped_links base) (seq 0 (k - 1)).

Lemma lastrowid_seq (ids : list Z) (k : nat) :
  lastrowid (ids ++ map (fun i => lastrowid ids + Z.of_nat i) (seq 0 k))
  = lastrowid ids + Z.of_nat k.
Proof.
  induction k as [|k IH]; [rewrite app_nil_r; cbn; lia|].
  rewrite seq_S, map_app, app_assoc. cbn [map Nat.add].
  unfold lastrowid in *. rewrite fold_max_app. cbn [fold_right].
  pose proof (fold_max_nonneg ids). lia.
Qed.

Lemma mapped_lastrowid db1 location_id k db :
  mapped db1 location_id k db →
  lastrowid (map node_id (graph_nodes db)) =
    lastrowid (map node_id (graph_nodes db1)) + Z.of_nat k
  ∧ lastrowid (map frame_id (frames db)) =
    lastrowid (map frame_id (frames db1)) + Z.of_nat k.
Proof.
  intros (_ & Hf & Hn & _). rewrite Hf, Hn, map_app, map_map. cbn [node_id mapped_node].
  by rewrite !lastrowid_seq.
Qed.

Lemma mapped_links_elem base j e :
  e ∈ flat_map (mapped_links base) (seq 0 j) →
  ∃ i, (i < j)%nat
       ∧ (from_node e = base + Z.of_nat i ∧ to_node e = base + Z.of_nat (S i)
          ∨ from_node e = base + Z.of_nat (S i) ∧ to_node e = base + Z.of_nat i).
Proof.
  intros Hin%list_elem_of_In. apply in_flat_map in Hin as (i & Hi & He).
  apply in_seq in Hi. exists i. split; [lia|].
  destruct He as [<-|[<-|[]]]; cbn; [by left|by right].
Qed.

Lemma mapped_closed db1 location_id k db :
  edges_closed db1 → mapped db1 location_id k db → edges_closed db.
Proof.
  intros Hcl Hm e He. destruct (mapped_lastrowid _ _ _ _ Hm) as [-> _].
  destruct Hm as (_ & _ & _ & Hedges). rewrite Hedges in He.
  apply elem_of_app in He as [He|He].
  - destruct (Hcl e He). lia.
  - apply mapped_links_elem in He as (i & Hi & [[-> ->]|[-> ->]]); lia.
Qed.

Lemma find_all_false {A} (f : A → bool) (l : list A) :
  (∀ x, x ∈ l → f x = false) → List.find f l = None.
Proof.
  induction l as [|y l IH]; intros H; [done|]. cbn.
  rewrite (H y) by apply list_elem_of_here. apply IH. intros x Hx.
  apply H. by apply list_elem_of_further.
Qed.

(** The node of an index below [k] is found by [find_node]. *)
Lemma mapped_find_node db1 location_id k db (j : nat) :
  (∀ n, n ∈ graph_nodes db1 → node_location_id n ≠ location_id) →
  mapped db1 location_id k db → (j < k)%nat →
  find_node location_id (Z.of_nat j) db =
    Some (mapped_node location_id (lastrowid (map node_id (graph_nodes db1)))
            (lastrowid (map frame_id (frames db1))) j).
Proof.
  intros Hnew (_ & _ & Hn & _) Hj. unfold find_node. rewrite Hn.
  rewrite find_app_none.
  2:{ apply find_all_false. intros n Hin. apply andb_false_iff. left.
      apply Z.eqb_neq. by apply Hnew. }
  set (f := mapped_node _ _ _).
  assert (∀ a k', (a ≤ j < a + k')%nat →
    List.find (fun n => (node_location_id n =? location_id)
                        && (node_position_index n =? Z.of_nat j))
      (map f (seq a k')) = Some (f j)) as H.
  { intros a k'. revert a. induction k' as [|k' IH]; intros a Ha; [lia|].
    cbn [seq map List.find]. unfold f at 1 2. cbn [node_location_id node_position_index mapped_node].
    rewrite Z.eqb_refl. cbn [andb].
    destruct (Z.eqb_spec (Z.of_nat a) (Z.of_nat j)) as [Heq|Hne].
    - by replace a with j by lia.
    - apply IH. lia. }
  apply H. lia.
Qed.

(** [save_frame] with the next index takes the session one frame on. *)
Lemma mapped_save_frame db1 location_id k path kp desc db :
  edges_closed db1 →
  (∀ n, n ∈ graph_nodes db1 → node_location_id n ≠ location_id) →
  mapped db1 location_id k db →
  ∃ fid db',
    save_frame location_id (Z.of_nat k) path kp desc db = Return (fid, db')
    ∧ mapped db1 location_id (S k) db'.
Proof.
  intros Hcl Hnew Hm.
  pose proof (mapped_closed _ _ _ _ Hcl Hm) as Hcl'.
  rewrite (save_frame_closed _ _ _ _ _ _ Hcl'). do 2 eexists. split; [done|].
  destruct (mapped_lastrowid _ _ _ _ Hm) as [Hbase Hfbase].
  rewrite Hbase, Hfbase.
  assert (frame_links location_id (Z.of_nat k)
            (lastrowid (map node_id (graph_nodes db1)) + Z.of_nat k) db
          = flat_map (mapped_links (lastrowid (map node_id (graph_nodes db1))))
              (seq (k - 1) (S k - 1 - (k - 1)))) as Hlinks.
  { unfold frame_links. destruct k as [|k]; [done|].
    destruct (Z.ltb_spec 0 (Z.of_nat (S k))); [|lia].
    replace (Z.of_nat (S k) - 1) with (Z.of_nat k) by lia.
    rewrite (mapped_find_node db1 location_id (S k) db k Hnew Hm) by lia.
    replace (S (S k) - 1 - (S k - 1))%nat with 1%nat by lia.
    replace (S k - 1)%nat with k by lia. cbn. do 3 f_equal; lia. }
  destruct Hm as (Hl & Hf & Hn & He). unfold mapped. cbn [locations frames graph_nodes graph_edges].
  split_and!.
  - done.
  - rewrite map_app, Hf, seq_S, map_app, app_assoc. done.
  - rewrite Hn, seq_S, map_app, app_assoc. done.
  - rewrite He, Hlinks, <- app_assoc, <- flat_map_app. do 2 f_equal.
    destruct k as [|k]; [done|].
    replace (S (S k) - 1 - (S k - 1))%nat with 1%nat by lia.
    replace (S (S k) - 1)%nat with (S k) by lia.
    replace (S k - 1)%nat with k by lia. by rewrite (seq_S k 0).
Qed.

(** What the mapping loop does with an accepted capture. *)
Lemma mapping_tick_saves {Image} (ef : Extractor Image) location_id c w :
  accepted ef c = true → mode (app_state w) = mapping →
  ∃ path kp desc,
    mapping_tick ef location_id c w =
      r ← save_frame location_id (mapping_frames (app_state w)) path kp desc (db w);
      Return {| app_state := set_mapping_frames (mapping_frames (app_state w) + 1)
                               (app_state w);
                navigator := navigator w; db := snd r;
                spoken := spoken w; threads := threads w |}.
Proof.
  intros Hc Hmode. unfold accepted in Hc. unfold mapping_tick. rewrite Hmode.
  destruct c as [frame|]; [|done].
  destruct (ef frame) as [kp [desc|]]; [|done]. cbn [fst snd] in Hc.
  rewrite Hc. by do 3 eexists.
Qed.

(** The mapping loop over a list of captures, in a session that started
    on [db1]. *)
Lemma mapped_ticks {Image} (ef : Extractor Image) db1 location_id captures :
  edges_closed db1 →
  (∀ n, n ∈ graph_nodes db1 → node_location_id n ≠ location_id) →
  ∀ w k,
    mode (app_state w) = mapping →
    mapping_frames (app_state w) = Z.of_nat k →
    mapped db1 location_id k (db w) →
    ∃ w', for_each (mapping_tick ef location_id) captures w = Return w'
          ∧ mapped db1 location_id
              (k + length (List.filter (accepted ef) captures)) (db w').
Proof.
  intros Hcl Hnew. induction captures as [|c captures IH]; intros w k Hmode Hk Hm.
  { exists w. split; [done|]. cbn. by rewrite Nat.add_0_r. }
  cbn [for_each List.filter]. destruct (accepted ef c) eqn:Hc.
  - destruct (mapping_tick_saves ef location_id c w Hc Hmode)
      as (path & kp & desc & ->). rewrite Hk.
    destruct (mapped_save_frame db1 location_id k path kp desc (db w)
                Hcl Hnew Hm) as (fid & db' & -> & Hm').
    cbn [mbind outcome_bind snd].
    match goal with |- context [for_each _ captures ?w1] =>
      destruct (IH w1 (S k)) as (w' & -> & Hm'') end; [done|cbn; lia|done|].
    exists w'. split; [done|]. cbn [length].
    by replace (k + S (length (List.filter (accepted ef) captures)))%nat
      with (S k + length (List.filter (accepted ef) captures))%nat by lia.
  - rewrite (mapping_tick_rejected _ _ _ _ Hc). cbn [mbind outcome_bind].
    by apply IH.
Qed.

Lemma filter_none {A} (f : A → bool) (l : list A) :
  (∀ x, x ∈ l → f x = false) → List.filter f l = [].
Proof.
  induction l as [|y l IH]; intros H; [done|]. cbn.
  rewrite (H y) by apply list_elem_of_here. apply IH. intros x Hx.
  apply H. by apply list_elem_of_further.
Qed.

Lemma filter_all {A} (f : A → bool) (l : list A) :
  (∀ x, x ∈ l → f x = true) → List.filter f l = l.
Proof.
  induction l as [|y l IH]; intros H; [done|]. cbn.
  rewrite (H y) by apply list_elem_of_here. f_equal. apply IH. intros x Hx.
  apply H. by apply list_elem_of_further.
Qed.

Lemma dict_set_fresh {V} (d : pydict V) (k : Z) (v : V) :
  k ∉ dict_keys d → dict_set d k v = d ++ [(k, v)].
Proof.
  induction d as [|[k' v'] d IH]; intros Hk; [done|]. cbn.
  destruct (Z.eqb_spec k' k) as [->|Hne].
  - destruct Hk. apply list_elem_of_here.
  - f_equal. apply IH. intros Hin. apply Hk. by apply list_elem_of_further.
Qed.

(** The node data of the node of index [i]. *)
Definition mapped_data (base fbase : Z) (i : nat) : Z * NodeData :=
  (base + Z.of_nat i,
   {| position := Z.of_nat i; nd_frame_id := fbase + Z.of_nat i |}).

Lemma mapped_data_keys base fbase n :
  dict_keys (map (mapped_data base fbase) (seq 0 n))
  = map (fun i => base + Z.of_nat i) (seq 0 n).
Proof. unfold dict_keys. by rewrite map_map. Qed.

Lemma mapped_ids_elem base n x :
  x ∈ map (fun i => base + Z.of_nat i) (seq 0 n) ↔
  ∃ i, (i < n)%nat ∧ x = base + Z.of_nat i.
Proof.
  rewrite list_elem_of_fmap. split.
  - intros (i & -> & Hi%list_elem_of_In%in_seq). exists i. split; [lia|done].
  - intros (i & Hi & ->). exists i. split; [done|].
    apply list_elem_of_In, in_seq. lia.
Qed.

Lemma mapped_ids_lookup base n i :
  (i < n)%nat →
  map (fun i => base + Z.of_nat i) (seq 0 n) !! i = Some (base + Z.of_nat i).
Proof.
  intros Hi. rewrite list_lookup_fmap, lookup_seq_lt by done. done.
Qed.

Lemma mapped_ids_lookup_inv base n i x :
  map (fun i => base + Z.of_nat i) (seq 0 n) !! i = Some x →
  (i < n)%nat ∧ x = base + Z.of_nat i.
Proof.
  intros H. assert (i < n)%nat as Hi.
  { apply lookup_lt_Some in H. by rewrite length_map, length_seq in H. }
  rewrite mapped_ids_lookup in H by done. split; [done|congruence].
Qed.

Lemma mapped_ids_nodup base n :
  NoDup (map (fun i => base + Z.of_nat i) (seq 0 n)).
Proof.
  apply NoDup_fmap_2; [|apply NoDup_seq]. intros i j. lia.
Qed.

Lemma mapped_dict location_id base fbase n :
  fold_left (fun d nd => dict_set d (node_id nd)
               {| position := node_position_index nd;
                  nd_frame_id := node_frame_id nd |})
    (map (mapped_node location_id base fbase) (seq 0 n)) []
  = map (mapped_data base fbase) (seq 0 n).
Proof.
  induction n as [|n IH]; [done|].
  rewrite !seq_S, !map_app, fold_left_app, IH. cbn.
  rewrite dict_set_fresh; [done|].
  rewrite mapped_data_keys, mapped_ids_elem. intros (i & Hi & Heq). lia.
Qed.

Lemma mapped_sorted location_id base fbase n :
  sort_by node_position_index (map (mapped_node location_id base fbase) (seq 0 n))
  = map (mapped_node location_id base fbase) (seq 0 n).
Proof.
  induction n as [|n IH]; [done|].
  rewrite seq_S, map_app. cbn [map]. rewrite sort_by_snoc, IH; [done|].
  apply Forall_forall. intros nd (i & -> & Hi%list_elem_of_In%in_seq)%list_elem_of_fmap.
  cbn. lia.
Qed.

Lemma in_location_ext name x db db' :
  locations db = locations db' → in_location name x db = in_location name x db'.
Proof. unfold in_location. by intros ->. Qed.

(** The navigation graph of a location after a session of [n] frames:
    the nodes in the order of their indices and the links between
    neighbours. *)
Lemma mapped_graph db1 location_id name n db :
  edges_closed db1 →
  (∀ nd, nd ∈ graph_nodes db1 →
     in_location name (node_location_id nd) db1 = false) →
  in_location name location_id db1 = true →
  mapped db1 location_id n db →
  let base := lastrowid (map node_id (graph_nodes db1)) in
  let fbase := lastrowid (map frame_id (frames db1)) in
  get_navigation_graph name db =
    (map (mapped_data base fbase) (seq 0 n),
     map (fun e => (from_node e, to_node e, edge_distance e))
       (flat_map (mapped_links base) (seq 0 (n - 1)))).
Proof.
  intros Hcl Hold Hloc Hm base fbase. destruct Hm as (Hl & _ & Hn & He).
  unfold get_navigation_graph. rewrite Hn, He. fold base fbase. f_equal.
  - rewrite List.filter_app, filter_none, filter_all, app_nil_l.
    + by rewrite mapped_sorted, mapped_dict.
    + intros nd (i & -> & _)%list_elem_of_fmap. cbn.
      by rewrite (in_location_ext _ _ _ _ Hl).
    + intros nd Hnd. rewrite (in_location_ext _ _ _ _ Hl). by apply Hold.
  - f_equal. rewrite List.filter_app, filter_none, filter_all, app_nil_l; [done| |].
    + intros e (i & Hi & Hft)%mapped_links_elem.
      apply existsb_exists.
      assert (∃ j, (j < n)%nat ∧ from_node e = base + Z.of_nat j) as (j & Hj & Hfrom).
      { destruct Hft as [[-> _]|[-> _]]; eexists; (split; [|done]); lia. }
      exists (mapped_node location_id base fbase j). split.
      * apply list_elem_of_In, elem_of_app. right. apply list_elem_of_fmap.
        exists j. split; [done|]. apply list_elem_of_In, in_seq. lia.
      * cbn. rewrite Hfrom, Z.eqb_refl. cbn.
        by rewrite (in_location_ext _ _ _ _ Hl).
    + intros e Hin. apply not_true_is_false.
      intros (nd & Hnd%list_elem_of_In & H)%existsb_exists.
      apply andb_true_iff in H as [Hid%Z.eqb_eq Hin'].
      rewrite (in_location_ext _ _ _ _ Hl) in Hin'.
      apply elem_of_app in Hnd as [Hnd|(i & -> & _)%list_elem_of_fmap].
      * by rewrite (Hold nd Hnd) in Hin'.
      * cbn in Hid. destruct (Hcl e Hin) as [Hlt _]. fold base in Hlt. lia.
Qed.

Lemma for_each_app {A S} (body : A → S → outcome S) (xs ys : list A) (st : S) :
  for_each body (xs ++ ys) st = st' ← for_each body xs st; for_each body ys st'.
Proof.
  revert st. induction xs as [|x xs IH]; intros st; [done|].
  cbn [for_each app]. destruct (body x st); [|done..]. apply IH.
Qed.

(** The adjacency list of the node of index [m] when the links of the
    first [j + 1] nodes are in. *)
Definition adj_after (base : Z) (w : Q) (j m : nat) : list (Z * Q) :=
  (if (1 <=? m)%nat && (m <=? j)%nat then [(base + Z.of_nat (m - 1), w)] else [])
  ++ (if (m <? j)%nat then [(base + Z.of_nat (S m), w)] else []).

Lemma mapped_adjacency base n j (G0 : gmap Z (list (Z * Q))) :
  (∀ m, (m < n)%nat → G0 !! (base + Z.of_nat m) = Some []) →
  (j < n)%nat →
  ∃ G,
    for_each add_edge
      (map (fun e => (from_node e, to_node e, edge_distance e))
         (flat_map (mapped_links base) (seq 0 j))) G0 = Return G
    ∧ ∀ m, (m < n)%nat →
        G !! (base + Z.of_nat m) = Some (adj_after base (7 # 10) j m).
Proof.
  intros H0. induction j as [|j IH]; intros Hj.
  { exists G0. split; [done|]. intros m Hm. rewrite (H0 m Hm).
    unfold adj_after. by destruct m. }
  destruct IH as (G & Hrun & HG); [lia|].
  rewrite seq_S, flat_map_app, map_app, for_each_app, Hrun.
  cbn [mbind outcome_bind Nat.add flat_map mapped_links app map for_each
       from_node to_node edge_distance add_edge].
  unfold getitem. rewrite (HG j) by lia. cbn [mbind outcome_bind].
  rewrite lookup_insert_ne by lia. rewrite (HG (S j)) by lia.
  cbn [mbind outcome_bind]. eexists. split; [done|].
  intros m Hm.
  destruct (decide (m = S j)) as [->|Hne1].
  { rewrite lookup_insert_eq. f_equal. unfold adj_after.
    replace (S j - 1)%nat with j by lia.
    destruct (Nat.leb_spec 1 (S j)); [|lia].
    destruct (Nat.leb_spec (S j) j); [lia|].
    destruct (Nat.leb_spec (S j) (S j)); [|lia].
    destruct (Nat.ltb_spec (S j) j); [lia|].
    destruct (Nat.ltb_spec (S j) (S j)); [lia|]. done. }
  rewrite lookup_insert_ne by lia.
  destruct (decide (m = j)) as [->|Hne2].
  { rewrite lookup_insert_eq. f_equal. unfold adj_after.
    destruct (Nat.leb_spec 1 j); cbn [andb];
      destruct (Nat.leb_spec j j); try lia;
      destruct (Nat.leb_spec j (S j)); try lia;
      destruct (Nat.ltb_spec j j); try lia;
      destruct (Nat.ltb_spec j (S j)); try lia; done. }
  rewrite lookup_insert_ne by lia. rewrite (HG m Hm). f_equal. unfold adj_after.
  destruct (Nat.leb_spec 1 m); cbn [andb];
    destruct (Nat.leb_spec m j); destruct (Nat.leb_spec m (S j)); try lia;
    destruct (Nat.ltb_spec m j); destruct (Nat.ltb_spec m (S j)); try lia; done.
Qed.

Lemma mapped_neighbours base n (w : Q) i :
  (i < n)%nat →
  path_neighbours (map (fun i => base + Z.of_nat i) (seq 0 n)) w i
  = adj_after base w (n - 1) i.
Proof.
  intros Hi. unfold path_neighbours, adj_after.
  destruct i as [|i].
  - cbn [Nat.leb andb app]. destruct (Nat.ltb_spec 0 (n - 1)).
    + by rewrite mapped_ids_lookup by lia.
    + by rewrite lookup_ge_None_2 by (rewrite length_map, length_seq; lia).
  - rewrite (mapped_ids_lookup base n i) by lia.
    destruct (Nat.leb_spec 1 (S i)); [|lia].
    destruct (Nat.leb_spec (S i) (n - 1)); [|lia]. cbn [andb].
    replace (S i - 1)%nat with i by lia. f_equal.
    destruct (Nat.ltb_spec (S i) (n - 1)).
    + by rewrite mapped_ids_lookup by lia.
    + by rewrite lookup_ge_None_2 by (rewrite length_map, length_seq; lia).
Qed.

Lemma mapped_dict_get base fbase n i :
  (i < n)%nat →
  dict_get (map (mapped_data base fbase) (seq 0 n)) (base + Z.of_nat i)
  = Some {| position := Z.of_nat i; nd_frame_id := fbase + Z.of_nat i |}.
Proof.
  intros Hi.
  assert (∀ a k, (a ≤ i < a + k)%nat →
    dict_get (map (mapped_data base fbase) (seq a k)) (base + Z.of_nat i)
    = Some {| position := Z.of_nat i; nd_frame_id := fbase + Z.of_nat i |}) as H.
  { intros a k. revert a. induction k as [|k IH]; intros a Ha; [lia|].
    cbn [seq map dict_get mapped_data].
    destruct (Z.eqb_spec (base + Z.of_nat a) (base + Z.of_nat i)) as [Heq|Hne].
    - by replace a with i by lia.
    - apply IH. lia. }
  apply H. lia.
Qed.

Lemma mapped_position base fbase n i :
  (i < n)%nat →
  position_of (map (mapped_data base fbase) (seq 0 n)) (base + Z.of_nat i)
  = Z.of_nat i.
Proof.
  intros Hi. unfold position_of. by rewrite mapped_dict_get.
Qed.

(** The graph that [plan_route] builds from the rows of a session of [n]
    frames is a valid path graph on the nodes in the order of their
    indices. *)
Lemma mapped_path_graph base fbase n :
  let nodes := map (mapped_data base fbase) (seq 0 n) in
  let edges := map (fun e => (from_node e, to_node e, edge_distance e))
                 (flat_map (mapped_links base) (seq 0 (n - 1))) in
  let ids := map (fun i => base + Z.of_nat i) (seq 0 n) in
  (0 < n)%nat →
  ∃ graph, build_adjacency nodes edges = Return graph
           ∧ is_path_graph ids (7 # 10) nodes graph.
Proof.
  intros nodes edges ids Hn. unfold build_adjacency.
  destruct (mapped_adjacency base n (n - 1)
              (list_to_map (map (fun k => (k, [])) (dict_keys nodes))))
    as (graph & Hrun & Hadj); [|lia|].
  { intros m Hm. apply elem_of_list_to_map_1.
    - rewrite <- list_fmap_compose.
      replace (fst ∘ (fun k : Z => (k, @nil (Z * Q)))) with (@id Z) by done.
      rewrite list_fmap_id. unfold nodes. rewrite mapped_data_keys.
      apply mapped_ids_nodup.
    - apply list_elem_of_fmap. exists (base + Z.of_nat m). split; [done|].
      unfold nodes. rewrite mapped_data_keys. apply mapped_ids_elem. eauto. }
  exists graph. split; [done|]. split; [split|].
  - apply mapped_ids_nodup.
  - intros x (i & Hi & ->)%mapped_ids_elem. unfold nodes.
    by rewrite mapped_dict_get.
  - intros i x (Hi & ->)%mapped_ids_lookup_inv. eexists. split; [by apply Hadj|].
    unfold ids. by rewrite mapped_neighbours.
  - intros i x (Hi & ->)%mapped_ids_lookup_inv. by apply mapped_position.
Qed.

(** The goal that [plan_route] takes when none is given: the node of the
    last index. *)
Lemma mapped_route_goal base fbase n :
  (0 < n)%nat →
  route_goal (map (mapped_data base fbase) (seq 0 n)) None
  = base + Z.of_nat (n - 1).
Proof.
  intros Hn. unfold route_goal. set (nodes := map _ _).
  assert (dict_keys nodes = map (fun i => base + Z.of_nat i) (seq 0 n)) as Hkeys
    by apply mapped_data_keys.
  destruct (dict_keys nodes) as [|k0 ks] eqn:Hk.
  { destruct n; [lia|done]. }
  destruct (py_max_by_fold (position_of nodes) ks [k0] k0 0%nat)
    as (i' & Hi' & Hmax & _); [done| |lia|].
  { by intros y ->%list_elem_of_singleton. }
  cbn [app] in Hi', Hmax. rewrite Hkeys in Hi', Hmax.
  apply mapped_ids_lookup_inv in Hi' as [Hi' Hbest].
  specialize (Hmax (base + Z.of_nat (n - 1))).
  rewrite Hbest in Hmax |- *. unfold nodes in Hmax.
  rewrite !mapped_position in Hmax by lia.
  f_equal. f_equal. enough (Z.of_nat (n - 1) ≤ Z.of_nat i') by lia.
  apply Hmax. apply mapped_ids_elem. exists (n - 1)%nat. split; [lia|done].
Qed.

(** The route that [plan_route] finds on the rows of a session. *)
Lemma mapped_plan_route db1 location_id name n db fuel nav (s : nat) :
  edges_closed db1 →
  (∀ nd, nd ∈ graph_nodes db1 →
     in_location name (node_location_id nd) db1 = false) →
  in_location name location_id db1 = true →
  mapped db1 location_id n db →
  (s < n)%nat → (2 * n < fuel)%nat →
  let base := lastrowid (map node_id (graph_nodes db1)) in
  ∃ path,
    plan_route fuel db nav name (base + Z.of_nat s) None
      = (Return (Some path), {| current_path := path; current_step := 0 |})
    ∧ is_route (map (fun i => base + Z.of_nat i) (seq 0 n)) s (n - 1) path.
Proof.
  intros Hcl Hold Hloc Hm Hs Hfuel base. unfold plan_route.
  rewrite (mapped_graph db1 location_id name n db Hcl Hold Hloc Hm). fold base.
  set (fbase := lastrowid (map frame_id (frames db1))).
  destruct (mapped_path_graph base fbase n) as (graph & Hgraph & [Hpc Hpos]); [lia|].
  rewrite mapped_route_goal by lia. rewrite Hgraph. cbn [mbind outcome_bind].
  set (nodes := map (mapped_data base fbase) (seq 0 n)) in *.
  set (ids := map (fun i => base + Z.of_nat i) (seq 0 n)) in *.
  assert (ids !! s = Some (base + Z.of_nat s)) as Hstart
    by by apply mapped_ids_lookup.
  assert (ids !! (n - 1)%nat = Some (base + Z.of_nat (n - 1))) as Hlast
    by (apply mapped_ids_lookup; lia).
  assert (is_Some (dict_get nodes (base + Z.of_nat (n - 1)))) as Hgoal.
  { apply (pc_nodes _ _ _ _ Hpc). apply list_elem_of_lookup. eauto. }
  assert (0 <= 7 # 10)%Q as Hw by done.
  assert (2 * length ids < fuel)%nat as Hfuel'.
  { unfold ids. by rewrite length_map, length_seq. }
  destruct (astar_result ids (7 # 10) nodes graph (base + Z.of_nat s)
              (base + Z.of_nat (n - 1)) s Hpc Hw Hstart Hgoal fuel Hfuel')
    as [Hfound _].
  destruct (Hfound (n - 1)%nat Hlast) as (path & -> & Hroute).
  exists path. split; [|done].
  destruct nodes as [|nd nodes'] eqn:Hnodes.
  { apply (f_equal length) in Hnodes. unfold nodes in Hnodes.
    rewrite length_map, length_seq in Hnodes. cbn in Hnodes. lia. }
  destruct path as [|x path]; [|done].
  destruct Hroute as [Hlen _]. done.
Qed.

(** X25. From mapping to navigation. A mapping session for a new name, on
    a store whose edges join stored nodes and whose nodes belong to stored
    locations, in which [n > 0] captures are accepted, ends with a
    navigation graph of [n] nodes for that name, in the order of capture,
    the node at place [i] with position index [i]; and from each of these
    nodes [plan_route], with fuel above [2 n], finds the route to the node
    captured last, stores it as the current path and sets the step to 0. *)
Theorem mapping_then_navigation {Image} (ef : Extractor Image) (now : Z)
    (name : string) (captures : list (option Image)) (w0 : World) :
  name ∉ get_all_locations (db w0) →
  edges_closed (db w0) →
  (∀ nd, nd ∈ graph_nodes (db w0) →
     node_location_id nd ∈ map loc_id (locations (db w0))) →
  let n := length (List.filter (accepted ef) captures) in
  (0 < n)%nat →
  let w1 := snd (start_mapping now (Some name) w0) in
  let location_id := fst (save_location now name (db w0)) in
  ∃ w2 ids,
    for_each (mapping_tick ef location_id) captures w1 = Return w2
    ∧ dict_keys (fst (get_navigation_graph name (db w2))) = ids
    ∧ length ids = n
    ∧ (∀ i x, ids !! i = Some x →
         position_of (fst (get_navigation_graph name (db w2))) x = Z.of_nat i)
    ∧ ∀ (s : nat) (start : Z) (fuel : nat) (nav : Navigator),
        ids !! s = Some start → (2 * n < fuel)%nat →
        ∃ path,
          plan_route fuel (db w2) nav name start None
            = (Return (Some path),
               {| current_path := path; current_step := 0 |})
          ∧ is_route ids s (n - 1) path.
Proof.
  intros Hname Hcl Hlocated n Hn w1 location_id.
  assert (find_location name (db w0) = None) as Hfind.
  { apply find_location_none. intros Hin. apply Hname.
    unfold get_all_locations. by rewrite sort_by_perm. }
  set (db1 := db w1).
  assert (db1 = {| locations := locations (db w0) ++
                     [{| loc_id := location_id; loc_name := name;
                         loc_created_at := now |}];
                   frames := frames (db w0);
                   graph_nodes := graph_nodes (db w0);
                   graph_edges := graph_edges (db w0) |}
          ∧ location_id = lastrowid (map loc_id (locations (db w0)))
          ∧ mode (app_state w1) = mapping
          ∧ mapping_frames (app_state w1) = 0) as (Hdb1 & Hid & Hmode & Hk).
  { unfold db1, w1, location_id, start_mapping, save_location.
    by rewrite Hfind. }
  assert (edges_closed db1) as Hcl1 by by rewrite Hdb1.
  assert (∀ nd, nd ∈ graph_nodes db1 → node_location_id nd ≠ location_id) as Hnew.
  { rewrite Hdb1. cbn [graph_nodes]. intros nd Hnd%Hlocated%lastrowid_gt. lia. }
  assert (∀ x, in_location name x db1 = (location_id =? x)) as Hin.
  { intros x. rewrite Hdb1. unfold in_location. cbn [locations].
    rewrite existsb_app. fold (in_location name x (db w0)).
    rewrite (in_location_none _ _ _ Hfind). cbn.
    by rewrite String.eqb_refl, andb_true_r, orb_false_r. }
  assert (mapped db1 location_id 0 (db w1)) as Hm0.
  { unfold mapped. cbn. by rewrite !app_nil_r. }
  destruct (mapped_ticks ef db1 location_id captures Hcl1 Hnew w1 0%nat
              Hmode Hk Hm0) as (w2 & Hrun & Hm).
  cbn [Nat.add] in Hm. fold n in Hm.
  assert (∀ nd, nd ∈ graph_nodes db1 →
            in_location name (node_location_id nd) db1 = false) as Hold.
  { intros nd Hnd. rewrite Hin. apply Z.eqb_neq. intros Heq.
    by apply (Hnew nd Hnd). }
  assert (in_location name location_id db1 = true) as Hloc
    by (rewrite Hin; apply Z.eqb_refl).
  set (base := lastrowid (map node_id (graph_nodes db1))).
  exists w2, (map (fun i => base + Z.of_nat i) (seq 0 n)).
  rewrite (mapped_graph db1 location_id name n (db w2) Hcl1 Hold Hloc Hm).
  cbn [fst]. fold base. split_and!.
  - done.
  - apply mapped_data_keys.
  - by rewrite length_map, length_seq.
  - intros i x (Hi & ->)%mapped_ids_lookup_inv. by apply mapped_position.
  - intros s start fuel nav (Hs & ->)%mapped_ids_lookup_inv Hfuel.
    by apply (mapped_plan_route db1 location_id name n (db w2) fuel nav s).
Qed.

(** The session of [demo_world]: three captures accepted for the kitchen
    in an empty store; from the first node the route is the three nodes. *)
Lemma mapping_then_navigation_witness :
  ∃ w2 ids path,
    for_each (mapping_tick demo_extract 1) demo_captures demo_mapping = Return w2
    ∧ ids = [1; 2; 3]
    ∧ plan_route 100 (db w2) Navigator_init "kitchen" 1 None
      = (Return (Some path), {| current_path := path; current_step := 0 |})
    ∧ is_route ids 0 2 path.
Proof.
  destruct (mapping_then_navigation demo_extract 0 "kitchen" demo_captures
              (world_init init_database))
    as (w2 & ids & Hrun & Hkeys & _ & _ & Hplan).
  - vm_compute. by intros ?%elem_of_nil.
  - by intros e ?%elem_of_nil.
  - by intros nd ?%elem_of_nil.
  - vm_compute. lia.
  - assert (ids = [1; 2; 3]) as Hids.
    { rewrite <- Hkeys. change 1 with (fst (save_location 0 "kitchen" (db (world_init init_database)))) in Hrun.
      apply (f_equal (fun o => match o with Return w => Some w | _ => None end)) in Hrun.
      vm_compute in Hrun. injection Hrun as <-. vm_compute. reflexivity. }
    destruct (Hplan 0%nat 1 100%nat Navigator_init) as (path & Hp & Hroute).
    + by rewrite Hids.
    + vm_compute. lia.
    + exists w2, ids, path. rewrite Hids in *. by split_and!.
Defined.
